(** * Cross-reference reconciliation and pricing ingestion

    A shallow embedding of [data_manager.py] over the schema of [models.py].

    The Python functions are written in a state-and-exception monad over a
    [world] that holds everything the code can observe or change: the
    process environment, the response cache, the network (a script of the
    replies the successive [requests.get] calls will meet, and the log of the
    requests sent), the seconds slept, and the SQLAlchemy session (the
    durable tables, the view inside the open transaction, the objects added
    but not yet flushed, and a schedule of persistence faults).

    Modelling boundaries, stated once:
    - the persistence layer enforces the NOT NULL and UNIQUE constraints that
      [models.py] declares and numbers rows by [1 + max id]; foreign keys and
      the coercion of a bound value to the column type are left to the backend;
    - [ilike] is SQL LIKE over ASCII case folding, with [%] and [_] as
      wildcards and no escape character (the default SQLite backend);
    - cache entries neither expire nor are evicted (the TTL is one hour and
      the capacity 1024 entries);
    - text is a sequence of code points below 256; [int], [float], [str]
      and [repr] are those of CPython 3.11 on such text, with the binary64
      arithmetic of [PrimFloat];
    - a String column that the code compares holds text or null: the INSERT
      refuses any other value;
    - [NotModelled] stands for the operations of the two drivers that the
      model leaves out; nothing in [data_manager.py] raises it. *)

From Stdlib Require Import ZArith List String Ascii Bool Lia Floats DecimalString.
Import ListNotations.
Local Open Scope string_scope.
Local Open Scope Z_scope.
Local Set Warnings "-inexact-float,-register-all".

(* ------------------------------------------------------------------ *)
(** ** Python values and exceptions *)

Module Py.

(** A decoded JSON document, as [response.json()] returns it. *)
Inductive pyval : Type :=
| PNone
| PBool (b : bool)
| PInt (z : Z)
| PFloat (f : float)
| PStr (s : string)
| PList (l : list pyval)
| PDict (kv : list (string * pyval)).

Inductive exn : Type :=
| HTTPError (status_code : Z)   (* requests.exceptions.HTTPError *)
| RequestException              (* the other requests.exceptions.RequestException *)
| IntegrityError                (* sqlalchemy.exc.IntegrityError *)
| OperationalError              (* sqlalchemy.exc.OperationalError *)
| KeyError
| IndexError
| AttributeError
| TypeError
| ValueError
| OverflowError
| NotModelled.

(** [except requests.exceptions.RequestException]: HTTPError is a subclass. *)
Definition is_RequestException (e : exn) : bool :=
  match e with HTTPError _ | RequestException => true | _ => false end.

(** [except SQLAlchemyError] *)
Definition is_SQLAlchemyError (e : exn) : bool :=
  match e with IntegrityError | OperationalError => true | _ => false end.

(** [except Exception] *)
Definition is_Exception (e : exn) : bool :=
  match e with NotModelled => false | _ => true end.

Fixpoint assoc {A : Type} (k : string) (kv : list (string * A)) : option A :=
  match kv with
  | [] => None
  | (k', v) :: rest => if String.eqb k k' then Some v else assoc k rest
  end.

(** [bool(v)] *)
Definition truthy (v : pyval) : bool :=
  match v with
  | PNone => false
  | PBool b => b
  | PInt z => negb (Z.eqb z 0)
  | PFloat f => negb (PrimFloat.eqb f 0%float)
  | PStr s => negb (String.eqb s "")
  | PList l => match l with [] => false | _ => true end
  | PDict kv => match kv with [] => false | _ => true end
  end.

(** [v == s] for a [str] s *)
Definition eq_str (v : pyval) (s : string) : bool :=
  match v with PStr s' => String.eqb s' s | _ => false end.

Definition str_of_Z (z : Z) : string := NilZero.string_of_int (Z.to_int z).

Definition is_digit (c : ascii) : bool :=
  let n := N_of_ascii c in (48 <=? n)%N && (n <=? 57)%N.

Fixpoint all_chars (p : ascii -> bool) (s : string) : bool :=
  match s with
  | EmptyString => true
  | String c s' => p c && all_chars p s'
  end.

(** [c] is one of the blanks that [int(s)] and [float(s)] skip at either
    end of [s] *)
Definition is_blank (c : ascii) : bool :=
  let n := N_of_ascii c in
  ((9 <=? n) && (n <=? 13) || (n =? 32) || (n =? 133) || (n =? 160))%N.

Fixpoint drop_leading (p : ascii -> bool) (s : string) : string :=
  match s with
  | EmptyString => EmptyString
  | String c rest => if p c then drop_leading p rest else s
  end.

Fixpoint drop_trailing (p : ascii -> bool) (s : string) : string :=
  match s with
  | EmptyString => EmptyString
  | String c rest =>
      match drop_trailing p rest with
      | EmptyString => if p c then EmptyString else String c EmptyString
      | kept => String c kept
      end
  end.

Definition unblank (s : string) : string :=
  drop_trailing is_blank (drop_leading is_blank s).

Definition digit_value (c : ascii) : Z := Z.of_N (N_of_ascii c) - 48.

Fixpoint digits_value (acc : Z) (s : string) : Z :=
  match s with
  | EmptyString => acc
  | String c rest => digits_value (10 * acc + digit_value c) rest
  end.

(** [s] without its underscores, each of which has to stand between two
    digits *)
Fixpoint ungroup (after_digit : bool) (s : string) : option string :=
  match s with
  | EmptyString => Some EmptyString
  | String c rest =>
      if Ascii.eqb c "_" then
        if after_digit then
          match rest with
          | String d _ => if is_digit d then ungroup false rest else None
          | EmptyString => None
          end
        else None
      else option_map (String c) (ungroup (is_digit c) rest)
  end.

Definition split_sign (s : string) : bool * string :=
  match s with
  | String "-" rest => (true, rest)
  | String "+" rest => (false, rest)
  | _ => (false, s)
  end.

(** [int(s)], [None] where it raises ValueError; the interpreter refuses
    numerals of more than 4300 digits *)
Definition int_of_str (s : string) : option Z :=
  let (negative, body) := split_sign (unblank s) in
  match ungroup false body with
  | Some (String _ _ as digits) =>
      if all_chars is_digit digits && (Z.of_nat (String.length digits) <=? 4300)
      then Some (if negative then - digits_value 0 digits else digits_value 0 digits)
      else None
  | _ => None
  end.

(** rounding to nearest, ties to even, of an integer to binary64 *)
Definition float_of_Z (z : Z) : float := SF2Prim (binary_normalize 53 1024 z 0 false).

Definition decimal_digits (d : Z) : Z := Z.of_nat (String.length (str_of_Z d)).

(** [d * 10^e] rounded to nearest, ties to even, for [d >= 0]: beyond
    [10^309] it is infinite and below [10^-324] zero; a negative power of ten
    is divided out of a numerator with 64 more bits, the last one standing
    for a remainder *)
Definition float_of_decimal (d e : Z) : float :=
  if d =? 0 then 0%float
  else
    let n := decimal_digits d in
    if 309 <=? n - 1 + e then infinity
    else if n + e <=? -324 then 0%float
    else if 0 <=? e then float_of_Z (d * 10 ^ e)
    else
      let den := 10 ^ (- e) in
      let p := 64 + Z.log2 den in
      let num := d * 2 ^ p in
      let sticky := if num mod den =? 0 then 0 else 1 in
      SF2Prim (binary_normalize 53 1024 (2 * (num / den) + sticky) (- p - 1) false).

(** ASCII case folding *)
Definition lower (c : ascii) : ascii :=
  let n := N_of_ascii c in
  if (65 <=? n)%N && (n <=? 90)%N then ascii_of_N (n + 32) else c.

Fixpoint lowered (s : string) : string :=
  match s with
  | EmptyString => EmptyString
  | String c rest => String (lower c) (lowered rest)
  end.

(** the leading digits of [s] and what follows them *)
Fixpoint span_digits (s : string) : string * string :=
  match s with
  | EmptyString => (EmptyString, EmptyString)
  | String c rest =>
      if is_digit c
      then let (digits, after) := span_digits rest in (String c digits, after)
      else (EmptyString, s)
  end.

(** the exponent part of a decimal numeral, which may be absent *)
Definition exponent_of (s : string) : option Z :=
  match s with
  | EmptyString => Some 0
  | String c rest =>
      if Ascii.eqb (lower c) "e" then
        let (negative, digits) := split_sign rest in
        match digits with
        | EmptyString => None
        | _ => if all_chars is_digit digits
               then Some (if negative then - digits_value 0 digits else digits_value 0 digits)
               else None
        end
      else None
  end.

(** digits with an optional point and exponent: the [(d, e)] of [d * 10^e] *)
Definition decimal_of (s : string) : option (Z * Z) :=
  let (whole, rest) := span_digits s in
  let (fraction, rest') :=
    match rest with
    | String "." after => span_digits after
    | _ => (EmptyString, rest)
    end in
  match whole ++ fraction with
  | EmptyString => None
  | digits =>
      match exponent_of rest' with
      | Some e => Some (digits_value 0 digits, e - Z.of_nat (String.length fraction))
      | None => None
      end
  end.

(** [float(s)], [None] where it raises ValueError *)
Definition float_of_str (s : string) : option float :=
  match ungroup false (unblank s) with
  | None => None
  | Some numeral =>
      let (negative, body) := split_sign numeral in
      let signed (x : float) := if negative then (- x)%float else x in
      let name := lowered body in
      if String.eqb name "inf" || String.eqb name "infinity" then Some (signed infinity)
      else if String.eqb name "nan" then Some nan
      else
        match decimal_of body with
        | Some (d, e) => Some (signed (float_of_decimal d e))
        | None => None
        end
  end.

(** [int(x)] for a finite [x]: the integer towards zero *)
Definition truncate (x : float) : option Z :=
  match Prim2SF x with
  | S754_zero _ => Some 0
  | S754_finite s m e =>
      let n := if 0 <=? e then Z.pos m * 2 ^ e else Z.pos m / 2 ^ (- e) in
      Some (if s then - n else n)
  | _ => None
  end.

(** [m * 2^e * 10^j] as a fraction *)
Definition scaled (m : positive) (e j : Z) : Z * Z :=
  (Z.pos m * 2 ^ Z.max e 0 * 10 ^ Z.max j 0, 2 ^ Z.max (- e) 0 * 10 ^ Z.max (- j) 0).

(** the [k] with [10^k <= m * 2^e < 10^(k+1)] *)
Definition floor_log10 (m : positive) (e : Z) : Z :=
  let k := (Z.log2 (Z.pos m) + e) * 30103 / 100000 in
  let (num, den) := scaled m e (- k) in
  if num <? den then k - 1 else if 10 * den <=? num then k + 1 else k.

(** the shortest decimal that [float] reads back as [x = m * 2^e], and of
    those the nearest to [x]: [(c, j)] stands for [c * 10^-j], and [c] has
    [n] digits; seventeen digits always do *)
Fixpoint shortest (fuel : nat) (x : float) (m : positive) (e k n : Z) : Z * Z :=
  let j := n - 1 - k in
  let (num, den) := scaled m e j in
  let lo := num / den in
  let r2 := 2 * (num mod den) in
  let reads_back c := PrimFloat.eqb (float_of_decimal c (- j)) x in
  match fuel with
  | O => (lo, j)
  | S fuel' =>
      if reads_back lo && reads_back (lo + 1) then
        (if r2 <? den then lo else if den <? r2 then lo + 1
         else if Z.even lo then lo else lo + 1, j)
      else if reads_back lo then (lo, j)
      else if reads_back (lo + 1) then (lo + 1, j)
      else shortest fuel' x m e k (n + 1)
  end.

Fixpoint zeros (n : nat) : string :=
  match n with O => EmptyString | S n' => String "0" (zeros n') end.

(** [repr(x)]: the shortest digits, in exponent form when the point would
    stand more than 16 places right or more than 4 places left of them *)
Definition repr_float (x : float) : string :=
  match Prim2SF x with
  | S754_zero s => if s then "-0.0" else "0.0"
  | S754_infinity s => if s then "-inf" else "inf"
  | S754_nan => "nan"
  | S754_finite s m e =>
      let (c, j) := shortest 17 (PrimFloat.abs x) m e (floor_log10 m e) 1 in
      let all_digits := str_of_Z c in
      let digits := drop_trailing (Ascii.eqb "0") all_digits in
      let nd := Z.of_nat (String.length digits) in
      let decpt := Z.of_nat (String.length all_digits) - j in
      (if s then "-" else "") ++
      (if (decpt <=? -4) || (16 <? decpt) then
         let exponent := str_of_Z (Z.abs (decpt - 1)) in
         substring 0 1 digits
         ++ (if nd =? 1 then "" else "." ++ substring 1 (String.length digits - 1) digits)
         ++ "e" ++ (if decpt - 1 <? 0 then "-" else "+")
         ++ (if Z.abs (decpt - 1) <? 10 then "0" else "") ++ exponent
       else if decpt <=? 0 then "0." ++ zeros (Z.to_nat (- decpt)) ++ digits
       else if decpt <? nd then
         substring 0 (Z.to_nat decpt) digits ++ "."
         ++ substring (Z.to_nat decpt) (String.length digits - Z.to_nat decpt) digits
       else digits ++ zeros (Z.to_nat (decpt - nd)) ++ ".0")
  end.

Definition hex_digit (n : N) : ascii :=
  if (n <? 10)%N then ascii_of_N (48 + n) else ascii_of_N (87 + n).

(** [c.isprintable()] *)
Definition is_printable (c : ascii) : bool :=
  let n := N_of_ascii c in
  ((32 <=? n) && (n <? 127) || (161 <=? n) && negb (n =? 173))%N.

Definition escaped (quote c : ascii) : string :=
  if Ascii.eqb c quote || Ascii.eqb c "\" then String "\" (String c EmptyString)
  else if Ascii.eqb c "009" then "\t"
  else if Ascii.eqb c "010" then "\n"
  else if Ascii.eqb c "013" then "\r"
  else if is_printable c then String c EmptyString
  else
    let n := N_of_ascii c in
    String "\" (String "x" (String (hex_digit (n / 16)) (String (hex_digit (n mod 16)) EmptyString))).

Fixpoint has_char (c : ascii) (s : string) : bool :=
  match s with
  | EmptyString => false
  | String c' rest => Ascii.eqb c c' || has_char c rest
  end.

Fixpoint escaped_all (quote : ascii) (s : string) : string :=
  match s with
  | EmptyString => EmptyString
  | String c rest => escaped quote c ++ escaped_all quote rest
  end.

Definition double_quote : ascii := ascii_of_N 34.

(** [repr(s)]: in single quotes, unless [s] has one and no double quote *)
Definition repr_str (s : string) : string :=
  let quote := if has_char "'" s && negb (has_char double_quote s)
               then double_quote else "'"%char in
  String quote (escaped_all quote s) ++ String quote EmptyString.

(** [repr(v)] *)
Fixpoint py_repr (v : pyval) : string :=
  match v with
  | PNone => "None"
  | PBool b => if b then "True" else "False"
  | PInt z => str_of_Z z
  | PFloat x => repr_float x
  | PStr s => repr_str s
  | PList l =>
      "[" ++ (fix items (l : list pyval) : string :=
                match l with
                | [] => ""
                | x :: rest =>
                    py_repr x ++ match rest with [] => "" | _ => ", " ++ items rest end
                end) l ++ "]"
  | PDict kv =>
      "{" ++ (fix items (kv : list (string * pyval)) : string :=
                match kv with
                | [] => ""
                | (k, x) :: rest =>
                    repr_str k ++ ": " ++ py_repr x
                    ++ match rest with [] => "" | _ => ", " ++ items rest end
                end) kv ++ "}"
  end.

(** [m * 2^e * 10] rounded half-even to an integer, for [m >= 0] *)
Definition tenths (m : positive) (e : Z) : Z :=
  let n := 10 * Z.pos m in
  if 0 <=? e then n * 2 ^ e
  else
    let d := 2 ^ (- e) in
    let q := n / d in
    let r2 := 2 * (n mod d) in
    if r2 <? d then q
    else if d <? r2 then q + 1
    else if Z.even q then q else q + 1.

(** [f"{x:.1f}"] *)
Definition format_1f (x : float) : string :=
  match Prim2SF x with
  | S754_zero s => if s then "-0.0" else "0.0"
  | S754_infinity s => if s then "-inf" else "inf"
  | S754_nan => "nan"
  | S754_finite s m e =>
      let t := tenths m e in
      (if s then "-" else "") ++ str_of_Z (t / 10) ++ "." ++ str_of_Z (t mod 10)
  end.

End Py.
Export Py.

(* ------------------------------------------------------------------ *)
(** ** models.py: the relational schema *)

Module Models.

(** String and Text columns that the code compares hold text or NULL; the
    other columns hold the Python value that was bound. *)
Record Source := {
  Source_name : string;                  (* unique, nullable=False *)
  Source_url : string }.

Record Series := {
  Series_canonical_id : option string;   (* unique *)
  Series_title : option string;          (* nullable=False *)
  Series_publisher : pyval;
  Series_start_year : pyval;
  Series_cover_url : pyval }.

Record Issue := {
  Issue_series_id : Z;
  Issue_issue_number : option string;    (* nullable=False *)
  Issue_cover_date : pyval;
  Issue_cover_url : pyval }.

Record SourceXref := {
  SourceXref_source_id : Z;
  SourceXref_entity_type : string;
  SourceXref_entity_id : Z;
  SourceXref_external_id : string }.

Record PriceSnapshot := {
  PriceSnapshot_issue_id : Z;
  PriceSnapshot_source_id : Z;
  PriceSnapshot_payload : pyval }.

Record GradedPrice := {
  GradedPrice_snapshot_id : Z;
  GradedPrice_grade_label : string;
  GradedPrice_fmv_usd : pyval;
  GradedPrice_conservative_value_usd : pyval }.

Record MarketListing := {
  MarketListing_snapshot_id : Z;
  MarketListing_listing_id : pyval;      (* nullable=False *)
  MarketListing_title : pyval;           (* nullable=False *)
  MarketListing_url : pyval;
  MarketListing_price_usd : pyval;
  MarketListing_currency : pyval;
  MarketListing_condition : pyval }.

(** a table: the rows with their autoincrement primary key, oldest first *)
Definition table (A : Type) := list (Z * A).

Record tables := {
  source : table Source;
  series : table Series;
  issue : table Issue;
  source_xref : table SourceXref;
  price_snapshot : table PriceSnapshot;
  graded_price : table GradedPrice;
  market_listing : table MarketListing }.

Definition empty_tables : tables :=
  {| source := []; series := []; issue := []; source_xref := [];
     price_snapshot := []; graded_price := []; market_listing := [] |}.

(** an object handed to [db.add] and not yet inserted *)
Inductive obj : Type :=
| NewSource (x : Source)
| NewSeries (x : Series)
| NewIssue (x : Issue)
| NewSourceXref (x : SourceXref)
| NewPriceSnapshot (x : PriceSnapshot)
| NewGradedPrice (x : GradedPrice)
| NewMarketListing (x : MarketListing).

Definition max_id {A : Type} (t : table A) : Z :=
  fold_right (fun r m => Z.max (fst r) m) 0 t.

Definition next_id {A : Type} (t : table A) : Z := 1 + max_id t.

Definition is_none (v : pyval) : bool :=
  match v with PNone => true | _ => false end.

Definition opt_eqb (a b : option string) : bool :=
  match a, b with
  | Some x, Some y => String.eqb x y
  | _, _ => false
  end.

(** UniqueConstraint('source_id', 'entity_type', 'external_id') *)
Definition same_triple (a b : SourceXref) : bool :=
  Z.eqb (SourceXref_source_id a) (SourceXref_source_id b)
  && String.eqb (SourceXref_entity_type a) (SourceXref_entity_type b)
  && String.eqb (SourceXref_external_id a) (SourceXref_external_id b).

(** UniqueConstraint('series_id', 'issue_number') *)
Definition same_series_issue (a b : Issue) : bool :=
  Z.eqb (Issue_series_id a) (Issue_series_id b)
  && opt_eqb (Issue_issue_number a) (Issue_issue_number b).

(** The INSERT of one object: [None] is a constraint violation, otherwise
    the generated key and the tables with the row appended. *)
Definition insert (o : obj) (t : tables) : option (Z * tables) :=
  match o with
  | NewSource x =>
      if existsb (fun r => String.eqb (Source_name (snd r)) (Source_name x)) (source t)
      then None
      else let i := next_id (source t) in
           Some (i, {| source := (source t ++ [(i, x)])%list; series := series t;
                       issue := issue t; source_xref := source_xref t;
                       price_snapshot := price_snapshot t;
                       graded_price := graded_price t;
                       market_listing := market_listing t |})
  | NewSeries x =>
      match Series_title x with
      | None => None
      | Some _ =>
          if existsb (fun r => opt_eqb (Series_canonical_id (snd r)) (Series_canonical_id x))
                     (series t)
          then None
          else let i := next_id (series t) in
               Some (i, {| source := source t; series := (series t ++ [(i, x)])%list;
                           issue := issue t; source_xref := source_xref t;
                           price_snapshot := price_snapshot t;
                           graded_price := graded_price t;
                           market_listing := market_listing t |})
      end
  | NewIssue x =>
      match Issue_issue_number x with
      | None => None
      | Some _ =>
          if existsb (fun r => same_series_issue (snd r) x) (issue t)
          then None
          else let i := next_id (issue t) in
               Some (i, {| source := source t; series := series t;
                           issue := (issue t ++ [(i, x)])%list; source_xref := source_xref t;
                           price_snapshot := price_snapshot t;
                           graded_price := graded_price t;
                           market_listing := market_listing t |})
      end
  | NewSourceXref x =>
      if existsb (fun r => same_triple (snd r) x) (source_xref t)
      then None
      else let i := next_id (source_xref t) in
           Some (i, {| source := source t; series := series t;
                       issue := issue t; source_xref := (source_xref t ++ [(i, x)])%list;
                       price_snapshot := price_snapshot t;
                       graded_price := graded_price t;
                       market_listing := market_listing t |})
  | NewPriceSnapshot x =>
      let i := next_id (price_snapshot t) in
      Some (i, {| source := source t; series := series t;
                  issue := issue t; source_xref := source_xref t;
                  price_snapshot := (price_snapshot t ++ [(i, x)])%list;
                  graded_price := graded_price t;
                  market_listing := market_listing t |})
  | NewGradedPrice x =>
      let i := next_id (graded_price t) in
      Some (i, {| source := source t; series := series t;
                  issue := issue t; source_xref := source_xref t;
                  price_snapshot := price_snapshot t;
                  graded_price := (graded_price t ++ [(i, x)])%list;
                  market_listing := market_listing t |})
  | NewMarketListing x =>
      if is_none (MarketListing_listing_id x) || is_none (MarketListing_title x)
      then None
      else let i := next_id (market_listing t) in
           Some (i, {| source := source t; series := series t;
                       issue := issue t; source_xref := source_xref t;
                       price_snapshot := price_snapshot t;
                       graded_price := graded_price t;
                       market_listing := (market_listing t ++ [(i, x)])%list |})
  end.

(** *** SQL LIKE *)

Definition ci_eqb (c d : ascii) : bool := Ascii.eqb (lower c) (lower d).

(** [like p s]: the whole of [s] matches the pattern [p], case folded *)
Fixpoint like (p s : string) : bool :=
  match p with
  | EmptyString => match s with EmptyString => true | _ => false end
  | String c p' =>
      if Ascii.eqb c "%"
      then (fix skip (s : string) : bool :=
              like p' s
              || match s with
                 | EmptyString => false
                 | String _ s' => skip s'
                 end) s
      else match s with
           | EmptyString => false
           | String d s' => (Ascii.eqb c "_" || ci_eqb c d) && like p' s'
           end
  end.

(** [column.ilike(pattern)]: NULL matches nothing *)
Definition ilike (column : option string) (pattern : string) : bool :=
  match column with
  | Some s => like pattern s
  | None => false
  end.

Definition find_by_id {A : Type} (i : Z) (t : table A) : option (Z * A) :=
  find (fun r => Z.eqb (fst r) i) t.

End Models.
Export Models.

(* ------------------------------------------------------------------ *)
(** ** The world and the monad of effects *)

Module Effects.

Definition items := list (string * string).

(** what one [requests.get] call meets: a response, with its status and
    the document its body decodes to, or a connection error or timeout *)
Inductive reply : Type :=
| Response (status_code : Z) (json : pyval)
| NoResponse.

Record request := {
  req_url : string;
  req_params : items;
  req_headers : items;
  req_timeout : Z }.

(** keys of [api_cache]: the string built by [_make_api_request], kept as
    its two parts, and the argument tuple built by [@cached] *)
Inductive cache_key : Type :=
| KeyRequest (url : string) (sorted_params : items)
| KeyArgs (args : list string).

Record world := {
  environ : items;
  api_cache : list (cache_key * pyval);
  wire : list reply;
  sent : list request;
  slept : list Z;
  db_faults : list bool;
  durable : tables;
  session : tables;
  pending : list obj }.

Inductive result (A : Type) : Type :=
| Ok (a : A)
| Raise (e : exn).
Arguments Ok {A} a.
Arguments Raise {A} e.

Definition M (A : Type) : Type := world -> result A * world.

Definition ret {A : Type} (a : A) : M A := fun w => (Ok a, w).

Definition raise {A : Type} (e : exn) : M A := fun w => (Raise e, w).

Definition bind {A B : Type} (m : M A) (k : A -> M B) : M B :=
  fun w =>
    match m w with
    | (Ok a, w') => k a w'
    | (Raise e, w') => (Raise e, w')
    end.

(** [try: m  except ...:]; a handler answering [None] does not match *)
Definition try_except {A : Type} (m : M A) (handlers : exn -> option (M A)) : M A :=
  fun w =>
    match m w with
    | (Ok a, w') => (Ok a, w')
    | (Raise e, w') =>
        match handlers e with
        | Some h => h w'
        | None => (Raise e, w')
        end
    end.

Definition gets {A : Type} (f : world -> A) : M A := fun w => (Ok (f w), w).

Definition modify (f : world -> world) : M unit := fun w => (Ok tt, f w).

End Effects.
Export Effects.

Declare Scope py_scope.
Delimit Scope py_scope with py.
Notation "x <- m ;; k" := (bind m (fun x => k))
  (at level 61, m at next level, right associativity) : py_scope.
Notation "m ;; k" := (bind m (fun _ => k))
  (at level 61, right associativity) : py_scope.
Local Open Scope py_scope.

Module Session.

Definition set_faults (fs : list bool) (w : world) : world :=
  {| environ := environ w; api_cache := api_cache w; wire := wire w;
     sent := sent w; slept := slept w; db_faults := fs;
     durable := durable w; session := session w; pending := pending w |}.

Definition set_db (d s : tables) (p : list obj) (w : world) : world :=
  {| environ := environ w; api_cache := api_cache w; wire := wire w;
     sent := sent w; slept := slept w; db_faults := db_faults w;
     durable := d; session := s; pending := p |}.

(** one statement sent to the database; the schedule says whether it fails *)
Definition db_roundtrip : M unit :=
  fun w =>
    (if hd false (db_faults w) then Raise OperationalError else Ok tt,
     set_faults (tl (db_faults w)) w).

(** [db.add(o)] *)
Definition db_add (o : obj) : M unit :=
  modify (fun w => set_db (durable w) (session w) (pending w ++ [o])%list w).

Definition db_insert (o : obj) : M Z :=
  fun w =>
    match insert o (session w) with
    | Some (i, t) => (Ok i, set_db (durable w) t (tl (pending w)) w)
    | None => (Raise IntegrityError, w)
    end.

Fixpoint flush_objs (os : list obj) : M (list Z) :=
  match os with
  | [] => ret []
  | o :: rest =>
      db_roundtrip ;;
      i <- db_insert o ;;
      ids <- flush_objs rest ;;
      ret (i :: ids)
  end.

(** [db.flush()]: the pending objects are inserted in the order they were
    added; the answer lists the keys they received *)
Definition db_flush : M (list Z) :=
  os <- gets pending ;; flush_objs os.

(** [db.commit()] *)
Definition db_commit : M (list Z) :=
  ids <- db_flush ;;
  db_roundtrip ;;
  modify (fun w => set_db (session w) (session w) (pending w) w) ;;
  ret ids.

(** [db.rollback()] *)
Definition db_rollback : M unit :=
  modify (fun w => set_db (durable w) (durable w) [] w).

(** [db.query(...)....first()]: autoflush, then one SELECT *)
Definition db_query {A : Type} (select : tables -> A) : M A :=
  db_flush ;;
  db_roundtrip ;;
  gets (fun w => select (session w)).

(** [db.refresh(o)] *)
Definition db_refresh : M unit := db_roundtrip.

(** the key the object added last received *)
Definition new_id (ids : list Z) : Z := last ids 0.

End Session.
Export Session.

(* ------------------------------------------------------------------ *)
(** ** The Python built-ins and library calls that data_manager.py uses *)

Module Builtins.

(** [d.get(k, default)] *)
Definition py_get (d : pyval) (k : string) (default : pyval) : M pyval :=
  match d with
  | PDict kv => ret (match assoc k kv with Some v => v | None => default end)
  | _ => raise AttributeError
  end.

(** [d[k]] for a [str] k *)
Definition py_getitem (d : pyval) (k : string) : M pyval :=
  match d with
  | PDict kv => match assoc k kv with Some v => ret v | None => raise KeyError end
  | _ => raise TypeError
  end.

(** [v[0]] *)
Definition py_index0 (v : pyval) : M pyval :=
  match v with
  | PList (x :: _) => ret x
  | PList [] => raise IndexError
  | PStr (String c _) => ret (PStr (String c EmptyString))
  | PStr EmptyString => raise IndexError
  | PDict _ => raise KeyError
  | _ => raise TypeError
  end.

Fixpoint chars (s : string) : list pyval :=
  match s with
  | EmptyString => []
  | String c s' => PStr (String c EmptyString) :: chars s'
  end.

(** [iter(v)], run to the end *)
Definition py_iter (v : pyval) : M (list pyval) :=
  match v with
  | PList l => ret l
  | PDict kv => ret (map (fun p => PStr (fst p)) kv)
  | PStr s => ret (chars s)
  | _ => raise TypeError
  end.

(** [str(v)] *)
Definition py_str (v : pyval) : M string :=
  ret (match v with PStr s => s | _ => py_repr v end).

(** [int(s)] for a [str] s *)
Definition py_int_of_str (s : string) : M Z :=
  match int_of_str s with
  | Some z => ret z
  | None => raise ValueError
  end.

(** [int(v)] *)
Definition py_int (v : pyval) : M Z :=
  match v with
  | PInt z => ret z
  | PBool b => ret (if b then 1 else 0)
  | PStr s => py_int_of_str s
  | PFloat x =>
      match truncate x with
      | Some z => ret z
      | None => raise (if PrimFloat.is_nan x then ValueError else OverflowError)
      end
  | _ => raise TypeError
  end.

(** [float(v)] *)
Definition py_float (v : pyval) : M float :=
  match v with
  | PFloat f => ret f
  | PInt z => let f := float_of_Z z in
              if PrimFloat.is_infinity f then raise OverflowError else ret f
  | PBool b => ret (if b then 1%float else 0%float)
  | PStr s =>
      match float_of_str s with
      | Some x => ret x
      | None => raise ValueError
      end
  | _ => raise TypeError
  end.

(** the value bound to a String column that the code compares
    ([Series.title], [Issue.issue_number]): text or null. The object is
    built with whatever the document holds; a value that is neither is one
    the column's type does not hold, and the INSERT of the model refuses it
    as it refuses a null *)
Definition bind_text (v : pyval) : M (option string) :=
  ret (match v with PStr s => Some s | _ => None end).

(** [f"{x}"] of such a column *)
Definition str_of_text (x : option string) : string :=
  match x with Some s => s | None => "None" end.

(** [os.getenv(name)] *)
Definition os_getenv (name : string) : M (option string) :=
  gets (fun w => assoc name (environ w)).

(** [not api_key] *)
Definition unset (api_key : option string) : bool :=
  match api_key with
  | None => true
  | Some s => String.eqb s ""
  end.

(** [time.sleep(secs)] *)
Definition time_sleep (secs : Z) : M unit :=
  modify (fun w =>
    {| environ := environ w; api_cache := api_cache w; wire := wire w;
       sent := sent w; slept := (slept w ++ [secs])%list; db_faults := db_faults w;
       durable := durable w; session := session w; pending := pending w |}).

(** [requests.get(url, params=params, headers=headers, timeout=timeout)]:
    the request is logged and the next reply of the script is consumed *)
Definition requests_get (url : string) (params headers : items) (timeout : Z)
  : M (Z * pyval) :=
  fun w =>
    let w' :=
      {| environ := environ w; api_cache := api_cache w; wire := tl (wire w);
         sent := (sent w ++ [{| req_url := url; req_params := params;
                                req_headers := headers; req_timeout := timeout |}])%list;
         slept := slept w; db_faults := db_faults w;
         durable := durable w; session := session w; pending := pending w |} in
    match wire w with
    | Response status_code json :: _ => (Ok (status_code, json), w')
    | NoResponse :: _ => (Raise RequestException, w')
    | [] => (Raise RequestException, w')
    end.

(** [response.raise_for_status()] *)
Definition raise_for_status (response : Z * pyval) : M unit :=
  if (400 <=? fst response) && (fst response <? 600)
  then raise (HTTPError (fst response)) else ret tt.

Definition pair_leb (a b : string * string) : bool :=
  match String.compare (fst a) (fst b) with
  | Lt => true
  | Gt => false
  | Eq => String.leb (snd a) (snd b)
  end.

Fixpoint insert_sorted (x : string * string) (l : items) : items :=
  match l with
  | [] => [x]
  | y :: rest => if pair_leb x y then x :: l else y :: insert_sorted x rest
  end.

(** [sorted(params.items())] *)
Definition sorted (params : items) : items :=
  fold_right insert_sorted [] params.

Fixpoint list_eqb {A : Type} (eqb : A -> A -> bool) (l l' : list A) : bool :=
  match l, l' with
  | [], [] => true
  | x :: r, y :: r' => eqb x y && list_eqb eqb r r'
  | _, _ => false
  end.

Definition cache_key_eqb (a b : cache_key) : bool :=
  match a, b with
  | KeyRequest u p, KeyRequest u' p' =>
      String.eqb u u'
      && list_eqb (fun x y => String.eqb (fst x) (fst y) && String.eqb (snd x) (snd y)) p p'
  | KeyArgs l, KeyArgs l' => list_eqb String.eqb l l'
  | _, _ => false
  end.

(** [api_cache[key]] when [key in api_cache] *)
Definition cache_lookup (key : cache_key) : M (option pyval) :=
  gets (fun w => option_map snd (find (fun e => cache_key_eqb (fst e) key) (api_cache w))).

(** [api_cache[key] = data] *)
Definition cache_store (key : cache_key) (data : pyval) : M unit :=
  modify (fun w =>
    {| environ := environ w;
       api_cache := (key, data)
                    :: filter (fun e => negb (cache_key_eqb (fst e) key)) (api_cache w);
       wire := wire w; sent := sent w; slept := slept w; db_faults := db_faults w;
       durable := durable w; session := session w; pending := pending w |}).

(** [@cached(cache=api_cache)] on a function called with the arguments [args] *)
Definition cached (args : list string) (body : M pyval) : M pyval :=
  hit <- cache_lookup (KeyArgs args) ;;
  match hit with
  | Some v => ret v
  | None => v <- body ;; cache_store (KeyArgs args) v ;; ret v
  end.

Definition dquote : string := String (ascii_of_nat 34) EmptyString.

End Builtins.
Export Builtins.

(* ------------------------------------------------------------------ *)
(** ** data_manager.py *)

Module DataManager.

Definition API_USER_AGENT : string := "RooComicAgent/1.0".

(** *** Source management *)

Definition source_named (name : string) (t : tables) : option (Z * Source) :=
  find (fun r => String.eqb (Source_name (snd r)) name) (source t).

Definition get_or_create_source (name url : string) : M (Z * Source) :=
  try_except
    (source <- db_query (source_named name) ;;
     match source with
     | Some found => ret found
     | None =>
         let source := {| Source_name := name; Source_url := url |} in
         db_add (NewSource source) ;;
         ids <- db_commit ;;
         db_refresh ;;
         ret (new_id ids, source)
     end)
    (fun e => if is_SQLAlchemyError e then Some (db_rollback ;; raise e) else None).

(** *** API request abstraction with retry logic *)

(** how one turn of the [for] loop ends *)
Inductive flow : Type :=
| Return (data : pyval)
| Break
| Next.

(** the body of [for attempt in range(3)], for the attempts that remain *)
Fixpoint attempts (url : string) (params headers : items) (cache_key : cache_key)
  (remaining : list Z) : M (option pyval) :=
  match remaining with
  | [] => ret None
  | attempt :: rest =>
      turn <- try_except
                (response <- requests_get url params headers 15 ;;
                 raise_for_status response ;;
                 let data := snd response in
                 cache_store cache_key data ;;
                 ret (Return data))
                (fun e =>
                   match e with
                   | HTTPError status_code =>
                       Some (if existsb (Z.eqb status_code) [401; 403; 404]
                             then ret Break else ret Next)
                   | RequestException => Some (ret Next)
                   | _ => None
                   end) ;;
      match turn with
      | Return data => ret (Some data)
      | Break => ret None
      | Next => time_sleep (2 ^ attempt) ;;
                attempts url params headers cache_key rest
      end
  end.

Definition _make_api_request (url : string) (params headers : items) : M pyval :=
  let cache_key := KeyRequest url (sorted params) in
  hit <- cache_lookup cache_key ;;
  match hit with
  | Some data => ret data
  | None =>
      out <- attempts url params headers cache_key [0; 1; 2] ;;
      match out with
      | Some data => ret data
      | None => ret (PDict [])
      end
  end.

(** *** Comic Vine integration *)

Definition search_comicvine_volume (series_title : string) : M pyval :=
  api_key <- os_getenv "COMICVINE_KEY" ;;
  if unset api_key then ret (PList [])
  else
    let params := [("api_key", str_of_text api_key); ("format", "json");
                   ("query", series_title); ("resources", "volume")] in
    data <- _make_api_request "https://comicvine.gamespot.com/api/search/" params
              [("User-Agent", API_USER_AGENT)] ;;
    py_get data "results" (PList []).

Definition get_comicvine_issues_for_volume (volume_id : Z) : M pyval :=
  api_key <- os_getenv "COMICVINE_KEY" ;;
  if unset api_key then ret (PList [])
  else
    let params := [("api_key", str_of_text api_key); ("format", "json");
                   ("filter", "volume:" ++ str_of_Z volume_id);
                   ("sort", "issue_number:asc")] in
    data <- _make_api_request "https://comicvine.gamespot.com/api/issues/" params
              [("User-Agent", API_USER_AGENT)] ;;
    py_get data "results" (PList []).

(** [Series.title.ilike(f"%{series_title}%")] *)
Definition title_matches (series_title : string) (r : Z * Series) : bool :=
  ilike (Series_title (snd r)) ("%" ++ series_title ++ "%").

(** the fast path: [db.query(Issue).join(Series).filter(...).first()] *)
Definition existing_issue (series_title issue_number : string) (t : tables)
  : option (Z * Issue) :=
  find (fun i =>
          existsb (fun s => Z.eqb (fst s) (Issue_series_id (snd i))
                            && title_matches series_title s) (series t)
          && opt_eqb (Issue_issue_number (snd i)) (Some issue_number))
       (issue t).

Definition existing_series (series_title : string) (t : tables) : option (Z * Series) :=
  find (title_matches series_title) (series t).

(** [db.query(SourceXref).filter_by(source_id=..., entity_type=..., entity_id=...).first()] *)
Definition xref_of (source_id : Z) (entity_type : string) (entity_id : Z) (t : tables)
  : option (Z * SourceXref) :=
  find (fun r => Z.eqb (SourceXref_source_id (snd r)) source_id
                 && String.eqb (SourceXref_entity_type (snd r)) entity_type
                 && Z.eqb (SourceXref_entity_id (snd r)) entity_id)
       (source_xref t).

Definition on_db_error {A : Type} (fallback : A) (e : exn) : option (M A) :=
  if is_SQLAlchemyError e then Some (db_rollback ;; ret fallback) else None.

(** [Series(title=cv_volume.get("name", series_title), ...)] *)
Definition series_of (cv_volume : pyval) (series_title : string) : M Series :=
  name <- py_get cv_volume "name" (PStr series_title) ;;
  title <- bind_text name ;;
  publisher <- py_get cv_volume "publisher" (PDict []) ;;
  publisher_name <- py_get publisher "name" PNone ;;
  year <- py_get cv_volume "start_year" PNone ;;
  start_year <- (if truthy year then z <- py_int year ;; ret (PInt z) else ret PNone) ;;
  image <- py_get cv_volume "image" (PDict []) ;;
  cover_url <- py_get image "original_url" PNone ;;
  ret {| Series_canonical_id := None; Series_title := title;
         Series_publisher := publisher_name;
         Series_start_year := start_year;
         Series_cover_url := cover_url |}.

Definition _get_or_create_series_from_comicvine (series_title : string)
  : M (option (Z * Series)) :=
  series <- db_query (existing_series series_title) ;;
  match series with
  | Some found => ret (Some found)
  | None =>
      volumes <- search_comicvine_volume series_title ;;
      if negb (truthy volumes) then ret None
      else
        cv_volume <- py_index0 volumes ;;
        try_except
          (series <- series_of cv_volume series_title ;;
           db_add (NewSeries series) ;;
           ids <- db_flush ;;
           let series_id := new_id ids in
           cv_source <- get_or_create_source "Comic Vine" "https://comicvine.gamespot.com" ;;
           volume_id <- py_getitem cv_volume "id" ;;
           external_id <- py_str volume_id ;;
           db_add (NewSourceXref {| SourceXref_source_id := fst cv_source;
                                    SourceXref_entity_type := "series";
                                    SourceXref_entity_id := series_id;
                                    SourceXref_external_id := external_id |}) ;;
           db_commit ;;
           ret (Some (series_id, series)))
          (on_db_error None)
  end.

(** [next((iss for iss in cv_issues if iss.get("issue_number") == issue_number), None)] *)
Fixpoint next_issue (cv_issues : list pyval) (issue_number : string) : M pyval :=
  match cv_issues with
  | [] => ret PNone
  | iss :: rest =>
      number <- py_get iss "issue_number" PNone ;;
      if eq_str number issue_number then ret iss else next_issue rest issue_number
  end.

(** [Issue(series_id=series.id, issue_number=found_cv_issue.get(...), ...)] *)
Definition issue_of (series_id : Z) (found_cv_issue : pyval) (issue_number : string)
  : M Issue :=
  number <- py_get found_cv_issue "issue_number" (PStr issue_number) ;;
  number <- bind_text number ;;
  cover_date <- py_get found_cv_issue "cover_date" PNone ;;
  image <- py_get found_cv_issue "image" (PDict []) ;;
  cover_url <- py_get image "original_url" PNone ;;
  ret {| Issue_series_id := series_id; Issue_issue_number := number;
         Issue_cover_date := cover_date; Issue_cover_url := cover_url |}.

Definition _get_or_create_issue_for_series (series : Z * Series) (issue_number : string)
  : M (option (Z * Issue)) :=
  cv_source <- get_or_create_source "Comic Vine" "https://comicvine.gamespot.com" ;;
  xref_series <- db_query (xref_of (fst cv_source) "series" (fst series)) ;;
  match xref_series with
  | None => ret None
  | Some xref =>
      volume_id <- py_int_of_str (SourceXref_external_id (snd xref)) ;;
      cv_issues <- get_comicvine_issues_for_volume volume_id ;;
      candidates <- py_iter cv_issues ;;
      found_cv_issue <- next_issue candidates issue_number ;;
      if negb (truthy found_cv_issue) then ret None
      else
        try_except
          (issue <- issue_of (fst series) found_cv_issue issue_number ;;
           db_add (NewIssue issue) ;;
           ids <- db_flush ;;
           let issue_id := new_id ids in
           cv_id <- py_getitem found_cv_issue "id" ;;
           external_id <- py_str cv_id ;;
           db_add (NewSourceXref {| SourceXref_source_id := fst cv_source;
                                    SourceXref_entity_type := "issue";
                                    SourceXref_entity_id := issue_id;
                                    SourceXref_external_id := external_id |}) ;;
           db_commit ;;
           ret (Some (issue_id, issue)))
          (on_db_error None)
  end.

Definition get_or_create_issue_from_comicvine (series_title issue_number : string)
  : M (option (Z * Issue)) :=
  try_except
    (issue <- db_query (existing_issue series_title issue_number) ;;
     match issue with
     | Some found => ret (Some found)
     | None =>
         series <- _get_or_create_series_from_comicvine series_title ;;
         match series with
         | None => ret None
         | Some s => _get_or_create_issue_for_series s issue_number
         end
     end)
    (fun e =>
       if is_SQLAlchemyError e then Some (db_rollback ;; ret None)
       else if is_Exception e then Some (db_rollback ;; ret None)
       else None).

(** *** GoCollect and eBay integration *)

Definition get_gocollect_pricing (comic_id grade : string) : M pyval :=
  cached [comic_id; grade]
    (api_key <- os_getenv "GOCOLLECT_KEY" ;;
     if unset api_key then ret (PDict [])
     else
       let params := [("grade", grade)] in
       let headers := [("Authorization", "Bearer " ++ str_of_text api_key);
                       ("User-Agent", API_USER_AGENT)] in
       _make_api_request ("https://api.gocollect.com/v1/insights/item/" ++ comic_id)
         params headers).

Definition search_ebay_listings (query : string) : M pyval :=
  cached [query]
    (api_key <- os_getenv "EBAY_TOKEN" ;;
     if unset api_key then ret (PList [])
     else
       let params := [("q", query); ("category_ids", "63"); ("limit", "50")] in
       let headers := [("Authorization", "Bearer " ++ str_of_text api_key);
                       ("X-EBAY-C-MARKETPLACE-ID", "EBAY_US")] in
       data <- _make_api_request "https://api.ebay.com/buy/browse/v1/item_summary/search"
                 params headers ;;
       py_get data "itemSummaries" (PList [])).

(** [issue.series.title]: the relationship is resolved in the session *)
Definition issue_series_title (issue : Z * Issue) : M (option string) :=
  s <- gets (fun w => find_by_id (Issue_series_id (snd issue)) (series (session w))) ;;
  match s with
  | Some r => ret (Series_title (snd r))
  | None => raise AttributeError
  end.

Definition on_any_error (e : exn) : option (M unit) :=
  if is_SQLAlchemyError e then Some db_rollback
  else if is_Exception e then Some db_rollback
  else None.

Definition _update_gocollect_pricing (issue : Z * Issue) (grade_str : string) : M unit :=
  gocollect_source <- get_or_create_source "GoCollect" "https://gocollect.com" ;;
  xref <- db_query (xref_of (fst gocollect_source) "issue" (fst issue)) ;;
  match xref with
  | None => issue_series_title issue ;; ret tt
  | Some x =>
      try_except
        (pricing_data <- get_gocollect_pricing (SourceXref_external_id (snd x)) grade_str ;;
         if negb (truthy pricing_data) then ret tt
         else
           fmv <- py_get pricing_data "value" PNone ;;
           if negb (truthy fmv) then issue_series_title issue ;; ret tt
           else
             db_add (NewPriceSnapshot
                       {| PriceSnapshot_issue_id := fst issue;
                          PriceSnapshot_source_id := fst gocollect_source;
                          PriceSnapshot_payload := pricing_data |}) ;;
             ids <- db_flush ;;
             let snapshot_id := new_id ids in
             value <- py_float fmv ;;
             let conservative_value := (value * 0.8)%float in
             db_add (NewGradedPrice
                       {| GradedPrice_snapshot_id := snapshot_id;
                          GradedPrice_grade_label := grade_str;
                          GradedPrice_fmv_usd := fmv;
                          GradedPrice_conservative_value_usd := PFloat conservative_value |}) ;;
             db_commit ;;
             issue_series_title issue ;;
             ret tt)
        on_any_error
  end.

(** the [MarketListing] built from one element of [itemSummaries] *)
Definition listing_of (snapshot_id : Z) (item : pyval) : M MarketListing :=
  price_info <- py_get item "price" (PDict []) ;;
  listing_id <- py_get item "itemId" PNone ;;
  title <- py_get item "title" PNone ;;
  url <- py_get item "itemWebUrl" PNone ;;
  price_usd <- py_get price_info "value" PNone ;;
  currency <- py_get price_info "currency" PNone ;;
  condition <- py_get item "condition" PNone ;;
  ret {| MarketListing_snapshot_id := snapshot_id;
         MarketListing_listing_id := listing_id;
         MarketListing_title := title;
         MarketListing_url := url;
         MarketListing_price_usd := price_usd;
         MarketListing_currency := currency;
         MarketListing_condition := condition |}.

(** [for item in ebay_listings: ... db.add(listing)] *)
Fixpoint add_listings (snapshot_id : Z) (ebay_listings : list pyval) : M unit :=
  match ebay_listings with
  | [] => ret tt
  | item :: rest =>
      listing <- listing_of snapshot_id item ;;
      db_add (NewMarketListing listing) ;;
      add_listings snapshot_id rest
  end.

Definition _update_ebay_listings (issue : Z * Issue) : M unit :=
  try_except
    (title <- issue_series_title issue ;;
     let search_query :=
       dquote ++ str_of_text title ++ dquote ++ " "
       ++ dquote ++ str_of_text (Issue_issue_number (snd issue)) ++ dquote in
     ebay_listings <- search_ebay_listings search_query ;;
     if negb (truthy ebay_listings) then ret tt
     else
       ebay_source <- get_or_create_source "eBay" "https://www.ebay.com" ;;
       db_add (NewPriceSnapshot
                 {| PriceSnapshot_issue_id := fst issue;
                    PriceSnapshot_source_id := fst ebay_source;
                    PriceSnapshot_payload := PDict [("listings", ebay_listings)] |}) ;;
       ids <- db_flush ;;
       let snapshot_id := new_id ids in
       items <- py_iter ebay_listings ;;
       add_listings snapshot_id items ;;
       db_commit ;;
       issue_series_title issue ;;
       ret tt)
    on_any_error.

Definition update_pricing_for_issue (issue : Z * Issue) (grade_guess : float) : M unit :=
  let grade_str := format_1f grade_guess in
  _update_gocollect_pricing issue grade_str ;;
  _update_ebay_listings issue.

End DataManager.
Export DataManager.

(* ------------------------------------------------------------------ *)
(** ** Worlds to run the code in *)

Definition all_keys : items :=
  [("COMICVINE_KEY", "cv"); ("GOCOLLECT_KEY", "gc"); ("EBAY_TOKEN", "eb")].

(** a fresh process: empty cache and database, the given network script and
    fault schedule *)
Definition fresh (replies : list reply) (faults : list bool) : world :=
  {| environ := all_keys; api_cache := []; wire := replies; sent := []; slept := [];
     db_faults := faults; durable := empty_tables; session := empty_tables;
     pending := [] |}.

Definition run {A : Type} (m : M A) (w : world) : result A * world := m w.


(* ------------------------------------------------------------------ *)
(** ** The callers: run_workflow.py and agent.py

    The two drivers share the vision placeholder and the grading rule. A
    dict whose keys are fixed by a literal is a record here, and an entry
    that is absent or None an [option]. Text is a sequence of code points
    below 256, of which [str.strip] removes those that [str.isspace]
    accepts. The deductions are multiples of 0.5, whose sums are exact in
    binary64 for every text that fits in memory, so that the way [sum]
    adds floats does not show. The [while] loop of the agent is run for a
    given number of turns. *)

Module Text.

(** [c.isspace()] *)
Definition is_space (c : ascii) : bool :=
  let n := Z.of_nat (nat_of_ascii c) in
  ((9 <=? n) && (n <=? 13)) || ((28 <=? n) && (n <=? 32)) || (n =? 133) || (n =? 160).

Fixpoint lstrip (s : string) : string :=
  match s with
  | EmptyString => EmptyString
  | String c rest => if is_space c then lstrip rest else s
  end.

Fixpoint rstrip (s : string) : string :=
  match s with
  | EmptyString => EmptyString
  | String c rest =>
      match rstrip rest with
      | EmptyString => if is_space c then EmptyString else String c EmptyString
      | kept => String c kept
      end
  end.

(** [s.strip()] *)
Definition strip (s : string) : string := rstrip (lstrip s).

(** [s.split(sep)] for a separator of one character *)
Fixpoint split (sep : ascii) (s : string) : list string :=
  match s with
  | EmptyString => [EmptyString]
  | String c rest =>
      if Ascii.eqb c sep then EmptyString :: split sep rest
      else match split sep rest with
           | head :: tail => String c head :: tail
           | [] => [String c EmptyString]
           end
  end.

(** [needle in s] for two [str] *)
Fixpoint contains (needle s : string) : bool :=
  String.prefix needle s
  || match s with
     | EmptyString => false
     | String _ rest => contains needle rest
     end.

(** [needle in v] *)
Definition py_contains (needle : string) (v : pyval) : M bool :=
  match v with
  | PStr s => ret (contains needle s)
  | PList l => ret (existsb (fun x => eq_str x needle) l)
  | PDict kv => ret (existsb (fun p => String.eqb (fst p) needle) kv)
  | _ => raise TypeError
  end.

End Text.
Export Text.

Module Grading.

(** [deductions.get(d, 0)] *)
Definition deductions_get (d : string) : pyval :=
  if String.eqb d "spine_tick" then PFloat (-0.5)%float
  else if String.eqb d "rubbing_light" then PFloat (-0.5)%float
  else if String.eqb d "crease_light" then PFloat (-1.0)%float
  else if String.eqb d "corner_blunt" then PFloat (-0.5)%float
  else if String.eqb d "no_defects" then PFloat 0.0%float
  else PInt 0.

(** [a + b] on an int or float and a float, or on two int *)
Definition py_add (a b : pyval) : M pyval :=
  match a, b with
  | PInt x, PInt y => ret (PInt (x + y))
  | PInt x, PFloat g => f <- py_float (PInt x) ;; ret (PFloat (f + g)%float)
  | PFloat f, PInt y => g <- py_float (PInt y) ;; ret (PFloat (f + g)%float)
  | PFloat f, PFloat g => ret (PFloat (f + g)%float)
  | _, _ => raise NotModelled
  end.

(** [sum(...)]: the items are added to the int 0 from left to right *)
Fixpoint py_sum (total : pyval) (items : list pyval) : M pyval :=
  match items with
  | [] => ret total
  | x :: rest => total' <- py_add total x ;; py_sum total' rest
  end.

(** [max(0.0, x)]: the second argument wins only when it is greater *)
Definition max_0 (x : pyval) : M float :=
  match x with
  | PFloat g => ret (if (0.0 <? g)%float then g else 0.0%float)
  | _ => raise NotModelled
  end.

(** the body that [apply_grading_rules] and [tool_calculate_grade] share *)
Definition grade_of (defects : pyval) : M float :=
  match defects with
  | PStr s =>
      let base_grade := PFloat 10.0%float in
      total_deduction <- py_sum (PInt 0)
                           (map (fun d => deductions_get (strip d)) (split ","%char s)) ;;
      grade <- py_add base_grade total_deduction ;;
      max_0 grade
  | _ => raise AttributeError
  end.

End Grading.
Export Grading.

(** what the vision placeholder reports: the keys of its dict *)
Record Details := {
  Details_series_title : string;
  Details_issue_number : string;
  Details_publisher : option string;
  Details_publication_year : option string;
  Details_defects : string;
  Details_condition_confidence : float }.

Module RunWorkflow.

Definition process_comic_image_mock (image_name : pyval) : M Details :=
  let details :=
    {| Details_series_title := "Amazing Spider-Man"; Details_issue_number := "101";
       Details_publisher := Some "Marvel"; Details_publication_year := Some "1971";
       Details_defects := "spine_tick";
       Details_condition_confidence := 0.85%float |} in
  batman <- py_contains "Batman" image_name ;;
  if batman then
    ret {| Details_series_title := "Batman"; Details_issue_number := "555";
           Details_publisher := Details_publisher details;
           Details_publication_year := Details_publication_year details;
           Details_defects := "spine_tick, corner_blunt";
           Details_condition_confidence := Details_condition_confidence details |}
  else
    muse <- py_contains "Muse" image_name ;;
    if muse then
      ret {| Details_series_title := "Muse"; Details_issue_number := "1";
             Details_publisher := Details_publisher details;
             Details_publication_year := Details_publication_year details;
             Details_defects := "crease_light";
             Details_condition_confidence := 0.90%float |}
    else
      soul_saga <- py_contains "Soul_Saga_1" image_name ;;
      if soul_saga then
        ret {| Details_series_title := "Soul Saga"; Details_issue_number := "1";
               Details_publisher := Details_publisher details;
               Details_publication_year := Details_publication_year details;
               Details_defects := "no_defects";
               Details_condition_confidence := 0.98%float |}
      else ret details.

Definition apply_grading_rules (defects : pyval) : M float := grade_of defects.

(** [except Exception as e: ...; db.rollback()] *)
Definition on_unexpected_error (e : exn) : option (M unit) :=
  if is_Exception e then Some db_rollback else None.

Definition process_single_comic (image_file : pyval) : M unit :=
  py_getitem image_file "name" ;;
  try_except
    (image_name <- py_getitem image_file "name" ;;
     vision_data <- process_comic_image_mock image_name ;;
     issue <- get_or_create_issue_from_comicvine
                (Details_series_title vision_data) (Details_issue_number vision_data) ;;
     match issue with
     | None => ret tt
     | Some found =>
         grade_guess <- apply_grading_rules (PStr (Details_defects vision_data)) ;;
         update_pricing_for_issue found grade_guess
     end)
    on_unexpected_error.

(** the loop of [main]: [for file in image_files: process_single_comic(db_session, file)] *)
Fixpoint process_all (image_files : list pyval) : M unit :=
  match image_files with
  | [] => ret tt
  | file :: rest => process_single_comic file ;; process_all rest
  end.

End RunWorkflow.
Export RunWorkflow.

Module Agent.

Definition tool_analyze_image (image_path : pyval) : M Details :=
  let details :=
    {| Details_series_title := "Amazing Spider-Man"; Details_issue_number := "101";
       Details_publisher := None; Details_publication_year := None;
       Details_defects := "spine_tick";
       Details_condition_confidence := 0.85%float |} in
  batman <- py_contains "Batman" image_path ;;
  if batman then
    ret {| Details_series_title := "Batman"; Details_issue_number := "555";
           Details_publisher := None; Details_publication_year := None;
           Details_defects := "spine_tick, corner_blunt";
           Details_condition_confidence := Details_condition_confidence details |}
  else ret details.

Definition tool_calculate_grade (defects : pyval) : M float := grade_of defects.

Module ComicBookAgent.

(** [self.state] *)
Record State := {
  State_image_path : pyval;
  State_goal : string;
  State_series_title : option string;
  State_issue_number : option string;
  State_defects : option string;
  State_issue_id : option Z;
  State_grade : option float;
  State_is_finished : bool;
  State_condition_confidence : option float }.

(** [__init__] *)
Definition init (image_path : pyval) : State :=
  {| State_image_path := image_path;
     State_goal := "To fully identify, grade, and price the comic.";
     State_series_title := None; State_issue_number := None; State_defects := None;
     State_issue_id := None; State_grade := None; State_is_finished := false;
     State_condition_confidence := None |}.

(** [self.state.update(vision_data)] *)
Definition update (state : State) (vision_data : Details) : State :=
  {| State_image_path := State_image_path state;
     State_goal := State_goal state;
     State_series_title := Some (Details_series_title vision_data);
     State_issue_number := Some (Details_issue_number vision_data);
     State_defects := Some (Details_defects vision_data);
     State_issue_id := State_issue_id state;
     State_grade := State_grade state;
     State_is_finished := State_is_finished state;
     State_condition_confidence := Some (Details_condition_confidence vision_data) |}.

(** [self.state["issue_id"] = issue_id] *)
Definition set_issue_id (issue_id : Z) (state : State) : State :=
  {| State_image_path := State_image_path state;
     State_goal := State_goal state;
     State_series_title := State_series_title state;
     State_issue_number := State_issue_number state;
     State_defects := State_defects state;
     State_issue_id := Some issue_id;
     State_grade := State_grade state;
     State_is_finished := State_is_finished state;
     State_condition_confidence := State_condition_confidence state |}.

(** [self.state["grade"] = grade] *)
Definition set_grade (grade : float) (state : State) : State :=
  {| State_image_path := State_image_path state;
     State_goal := State_goal state;
     State_series_title := State_series_title state;
     State_issue_number := State_issue_number state;
     State_defects := State_defects state;
     State_issue_id := State_issue_id state;
     State_grade := Some grade;
     State_is_finished := State_is_finished state;
     State_condition_confidence := State_condition_confidence state |}.

(** [self.state["is_finished"] = True] *)
Definition set_finished (state : State) : State :=
  {| State_image_path := State_image_path state;
     State_goal := State_goal state;
     State_series_title := State_series_title state;
     State_issue_number := State_issue_number state;
     State_defects := State_defects state;
     State_issue_id := State_issue_id state;
     State_grade := State_grade state;
     State_is_finished := true;
     State_condition_confidence := State_condition_confidence state |}.

(** [self.state[key]] handed on as a [str] argument, or as it is *)
Definition text_arg (x : option string) : M string :=
  match x with
  | Some s => ret s
  | None => raise NotModelled
  end.

Definition value_arg (x : option string) : pyval :=
  match x with
  | Some s => PStr s
  | None => PNone
  end.

(** the second branch: identify the comic *)
Definition identify (state : State) : M State :=
  series_title <- text_arg (State_series_title state) ;;
  issue_number <- text_arg (State_issue_number state) ;;
  issue_obj <- get_or_create_issue_from_comicvine series_title issue_number ;;
  match issue_obj with
  | Some found => ret (set_issue_id (fst found) state)
  | None => ret (set_finished state)
  end.

(** the third branch: grade it *)
Definition grade_it (state : State) : M State :=
  grade <- tool_calculate_grade (value_arg (State_defects state)) ;;
  ret (set_grade grade state).

(** the last branch: price it *)
Definition price (issue_id : Z) (grade : float) (state : State) : M State :=
  issue_obj <- db_query (fun t => find_by_id issue_id (issue t)) ;;
  match issue_obj with
  | Some found => update_pricing_for_issue found grade
  | None =>
      (* [issue.id] of None, once the Source has been resolved *)
      get_or_create_source "GoCollect" "https://gocollect.com" ;;
      raise AttributeError
  end ;;
  ret (set_finished state).

Definition reason_and_act (state : State) : M State :=
  if unset (State_series_title state) then
    vision_data <- tool_analyze_image (State_image_path state) ;;
    ret (update state vision_data)
  else
    match State_issue_id state with
    | None => identify state
    | Some issue_id =>
        if negb (truthy (PInt issue_id)) then identify state
        else
          match State_grade state with
          | None => grade_it state
          | Some grade =>
              if negb (truthy (PFloat grade)) then grade_it state
              else price issue_id grade state
          end
    end.

(** [run], for at most [turns] turns of its loop: the final state, or None
    when the loop has not ended by then *)
Fixpoint run (turns : nat) (state : State) : M (option State) :=
  if State_is_finished state then ret (Some state)
  else match turns with
       | O => ret None
       | S n => state' <- reason_and_act state ;; run n state'
       end.

End ComicBookAgent.

End Agent.
Export Agent.

(* ------------------------------------------------------------------ *)
(** ** Vocabulary of the properties *)

(** the reply makes the attempt fail: no response, or a 4xx/5xx status *)
Definition reply_fails (r : reply) : bool :=
  match r with
  | Response status_code _ => (400 <=? status_code) && (status_code <? 600)
  | NoResponse => true
  end.

(** ... and the failure is one that is retried *)
Definition retryable (r : reply) : bool :=
  match r with
  | Response status_code _ =>
      (400 <=? status_code) && (status_code <? 600)
      && negb (existsb (Z.eqb status_code) [401; 403; 404])
  | NoResponse => true
  end.

(** the n-th reply the network holds in store (none left: no response) *)
Definition reply_at (w : world) (n : nat) : reply := nth n (wire w) NoResponse.

Definition uncached (url : string) (params : items) (w : world) : Prop :=
  find (fun e => cache_key_eqb (fst e) (KeyRequest url (sorted params))) (api_cache w) = None.

Definition request_of (url : string) (params headers : items) : request :=
  {| req_url := url; req_params := params; req_headers := headers; req_timeout := 15 |}.

(** the world after one statement has been sent to the database *)
Definition tick (w : world) : world := set_faults (tl (db_faults w)) w.

(** [w'] differs from [w] at most outside the database session *)
Definition same_db (w w' : world) : Prop :=
  db_faults w' = db_faults w /\ durable w' = durable w
  /\ session w' = session w /\ pending w' = pending w.

(** a computation that leaves the database session alone *)
Definition keeps_db {A : Type} (m : M A) : Prop := forall w, same_db w (snd (m w)).

(** a computation that leaves the whole world alone *)
Definition pure {A : Type} (m : M A) : Prop := forall w, snd (m w) = w.

(** a computation that sends nothing over the network *)
Definition offline {A : Type} (m : M A) : Prop := forall w, sent (snd (m w)) = sent w.

(** [w] with the database session replaced *)
Definition with_session (fs : list bool) (d s : tables) (p : list obj) (w : world) : world :=
  {| environ := environ w; api_cache := api_cache w; wire := wire w;
     sent := sent w; slept := slept w; db_faults := fs;
     durable := d; session := s; pending := p |}.

(** no statement of the remaining schedule fails *)
Definition fault_free (w : world) : Prop := db_faults w = [].

(** referential integrity of [issue.series_id] *)
Definition issues_have_series (t : tables) : bool :=
  forallb (fun i => existsb (fun s => Z.eqb (fst s) (Issue_series_id (snd i))) (series t))
          (issue t).

(** the Series that holds issue [i] has a title that the pattern built
    from [series_title] matches *)
Definition held_by_matching_series (series_title : string) (i : Z * Issue) (t : tables)
  : bool :=
  existsb (fun s => Z.eqb (fst s) (Issue_series_id (snd i))
                    && title_matches series_title s) (series t).

(** a catalog in which the search for "Spiderman" is answered with the
    volume "Spider-Man", and that volume has an issue 1 *)
Definition spider_volume : pyval :=
  PDict [("id", PInt 4050); ("name", PStr "Spider-Man")].

Definition spider_issue : pyval :=
  PDict [("id", PInt 77); ("issue_number", PStr "1")].

Definition spider_catalog : list reply :=
  [Response 200 (PDict [("results", PList [spider_volume])]);
   Response 200 (PDict [("results", PList [spider_issue])])].

(** equality of strings up to ASCII case *)
Fixpoint ci_equal (a b : string) : bool :=
  match a, b with
  | EmptyString, EmptyString => true
  | String c a', String d b' => ci_eqb c d && ci_equal a' b'
  | _, _ => false
  end.

(** a title that holds neither wildcard of LIKE *)
Definition literal (series_title : string) : bool :=
  all_chars (fun c => negb (Ascii.eqb c "%" || Ascii.eqb c "_")) series_title.

(** [inner] is a substring of [s], up to ASCII case *)
Definition occurs_in (inner s : string) : Prop :=
  exists before inside after,
    s = before ++ inside ++ after /\ ci_equal inner inside = true.

(** [cv_volume.get("name")], when the volume is an object that has the key *)
Definition name_field (cv_volume : pyval) : option pyval :=
  match cv_volume with
  | PDict kv => assoc "name" kv
  | _ => None
  end.

(** the number of rows that hold the triple of the unique constraint *)
Definition rows_with_triple (source_id : Z) (entity_type external_id : string)
  (t : tables) : nat :=
  List.length
    (filter (fun r => Z.eqb (SourceXref_source_id (snd r)) source_id
                      && String.eqb (SourceXref_entity_type (snd r)) entity_type
                      && String.eqb (SourceXref_external_id (snd r)) external_id)
            (source_xref t)).

(** a second title that the catalog resolves to the same volume *)
Definition spider_searches : list reply :=
  [Response 200 (PDict [("results", PList [spider_volume])]);
   Response 200 (PDict [("results", PList [spider_volume])])].

(** the computation yields [a] in every world, which it leaves alone *)
Definition value_of {A : Type} (m : M A) (a : A) : Prop := forall w, m w = (Ok a, w).

(** a schedule whose n-th statement, counted from 1, fails *)
Definition fails_at (n : nat) : list bool := (repeat false (n - 1) ++ [true])%list.

(** the catalog answers with a volume that has no [id] *)
Definition anonymous_catalog : list reply :=
  [Response 200 (PDict [("results", PList [PDict [("name", PStr "Spider-Man")]])])].

Definition comicvine_url : string := "https://comicvine.gamespot.com".

Definition spider_series : Z * Series :=
  (1, {| Series_canonical_id := None; Series_title := Some "Spider-Man";
         Series_publisher := PNone; Series_start_year := PNone;
         Series_cover_url := PNone |}).

Definition spider_issue_row : Z * Issue :=
  (1, {| Issue_series_id := 1; Issue_issue_number := Some "1";
         Issue_cover_date := PNone; Issue_cover_url := PNone |}).

(** two listings; the second lacks the URL, the price and the condition *)
Definition listing_full : pyval :=
  PDict [("itemId", PStr "v1|110"); ("title", PStr "Spider-Man #1 CGC 8.0");
         ("itemWebUrl", PStr "https://www.ebay.com/itm/110");
         ("price", PDict [("value", PStr "120.00"); ("currency", PStr "USD")]);
         ("condition", PStr "Used")].

Definition listing_bare : pyval :=
  PDict [("itemId", PStr "v1|111"); ("title", PStr "Spider-Man 1 reader copy")].

(** a listing without a title *)
Definition listing_untitled : pyval :=
  PDict [("itemId", PStr "v1|112");
         ("price", PDict [("value", PStr "15.00"); ("currency", PStr "USD")])].

(** a listing whose price is null *)
Definition listing_unpriced : pyval :=
  PDict [("itemId", PStr "v1|3"); ("title", PStr "Spider-Man #1 VF"); ("price", PNone)].

Definition ebay_reply (listings : list pyval) : reply :=
  Response 200 (PDict [("itemSummaries", PList listings)]).

(** the world after "Spider" issue 1 has been reconciled, with the given
    replies and faults still to come *)
Definition reconciled (replies : list reply) (faults : list bool) : world :=
  let w := snd (get_or_create_issue_from_comicvine "Spider" "1"
                  (fresh (spider_catalog ++ replies) [])) in
  set_faults faults w.

(** *** The listing rows, as the listings sub-flow is meant to write them *)

(** [item.get(k)], null for a missing key *)
Definition field (item : pyval) (k : string) : pyval :=
  match item with
  | PDict kv => match assoc k kv with Some v => v | None => PNone end
  | _ => PNone
  end.

(** [item.get("price", {})] *)
Definition price_info (item : pyval) : pyval :=
  match item with
  | PDict kv => match assoc "price" kv with Some p => p | None => PDict [] end
  | _ => PDict []
  end.

(** the item is an object, and so is its price when it has one *)
Definition is_record (item : pyval) : bool :=
  match item with
  | PDict kv => match assoc "price" kv with
                | None => true
                | Some (PDict _) => true
                | Some _ => false
                end
  | _ => false
  end.

(** the item has an id and a title, neither of them null *)
Definition identified (item : pyval) : bool :=
  negb (is_none (field item "itemId")) && negb (is_none (field item "title")).

Definition listing_row (snapshot_id : Z) (item : pyval) : MarketListing :=
  {| MarketListing_snapshot_id := snapshot_id;
     MarketListing_listing_id := field item "itemId";
     MarketListing_title := field item "title";
     MarketListing_url := field item "itemWebUrl";
     MarketListing_price_usd := field (price_info item) "value";
     MarketListing_currency := field (price_info item) "currency";
     MarketListing_condition := field item "condition" |}.

(** rows keyed from [n] upwards *)
Fixpoint numbered {A : Type} (n : Z) (rows : list A) : table A :=
  match rows with
  | [] => []
  | x :: rest => (n, x) :: numbered (n + 1) rest
  end.

(** the tables with listing rows appended *)
Definition with_listings (t : tables) (rows : list MarketListing) : tables :=
  {| source := source t; series := series t; issue := issue t;
     source_xref := source_xref t; price_snapshot := price_snapshot t;
     graded_price := graded_price t;
     market_listing :=
       (market_listing t ++ numbered (next_id (market_listing t)) rows)%list |}.

(** the query of the listings sub-flow: title and number, both quoted *)
Definition search_query_of (title : option string) (issue : Z * Issue) : string :=
  dquote ++ str_of_text title ++ dquote ++ " "
  ++ dquote ++ str_of_text (Issue_issue_number (snd issue)) ++ dquote.

(* ------------------------------------------------------------------ *)
(** ** Vocabulary of the further properties *)

(** no transaction is open: nothing flushed but uncommitted, nothing pending *)
Definition clean (w : world) : Prop := session w = durable w /\ pending w = [].

(** [hoare P m Q]: started in a world where [P] holds, [m] ends with an
    outcome and a world that [Q] relates *)
Definition hoare {A : Type} (P : world -> Prop) (m : M A)
  (Q : result A -> world -> Prop) : Prop :=
  forall w, P w -> Q (fst (m w)) (snd (m w)).

(** [I] is kept by [m], whatever its outcome *)
Definition keeps {A : Type} (I : world -> Prop) (m : M A) : Prop :=
  hoare I m (fun _ => I).

(** the outcome is a value and the transaction is closed, or an exception *)
Definition closed_if_ok {A : Type} (r : result A) (w : world) : Prop :=
  match r with Ok _ => clean w | Raise _ => True end.

(** a property of the tables that every INSERT keeps *)
Definition kept_by_insert (J : tables -> Prop) : Prop :=
  forall o t i t', J t -> insert o t = Some (i, t') -> J t'.

(** [J] holds of what the session sees and of what is durable *)
Definition in_both (J : tables -> Prop) (w : world) : Prop :=
  J (session w) /\ J (durable w).

(** [l'] is [l] with rows appended *)
Definition grown {A : Type} (l l' : list A) : Prop := exists more, l' = (l ++ more)%list.

(** every table of [t'] is the table of [t] with rows appended *)
Definition grown_from (t t' : tables) : Prop :=
  grown (source t) (source t') /\ grown (series t) (series t')
  /\ grown (issue t) (issue t') /\ grown (source_xref t) (source_xref t')
  /\ grown (price_snapshot t) (price_snapshot t')
  /\ grown (graded_price t) (graded_price t')
  /\ grown (market_listing t) (market_listing t').

(** started with no open transaction, [m] returns with none open *)
Definition settles {A : Type} (m : M A) : Prop := hoare clean m closed_if_ok.

(** wherever it starts, [m] returns with no open transaction *)
Definition commits {A : Type} (m : M A) : Prop := hoare (fun _ => True) m closed_if_ok.

(** the columns of UniqueConstraint('source_id', 'entity_type', 'external_id') *)
Definition triple (x : SourceXref) : Z * string * string :=
  (SourceXref_source_id x, SourceXref_entity_type x, SourceXref_external_id x).

(** the UNIQUE constraints that models.py declares on the columns the code
    writes: Source.name, the SourceXref triple, Issue (series_id, issue_number) *)
Definition unique_rows (t : tables) : Prop :=
  NoDup (map (fun r => Source_name (snd r)) (source t))
  /\ NoDup (map (fun r => triple (snd r)) (source_xref t))
  /\ NoDup (map (fun r => (Issue_series_id (snd r), Issue_issue_number (snd r))) (issue t)).

(** every exception that [m] raises satisfies [allowed] *)
Definition throws {A : Type} (allowed : exn -> Prop) (m : M A) : Prop :=
  forall w e, fst (m w) = Raise e -> allowed e.

(** [except SQLAlchemyError] would catch it *)
Definition database_error (e : exn) : Prop := is_SQLAlchemyError e = true.

(** an exception that an [except Exception] clause catches *)
Definition catchable (e : exn) : Prop := is_Exception e = true.

(** no exception leaves [m] *)
Definition never_raises {A : Type} (m : M A) : Prop := throws (fun _ => False) m.

(** the kinds of rows that the parts of the code write *)
Definition source_write (o : obj) : bool :=
  match o with NewSource _ => true | _ => false end.

Definition catalog_write (o : obj) : bool :=
  match o with
  | NewSource _ | NewSeries _ | NewIssue _ | NewSourceXref _ => true
  | _ => false
  end.

Definition listing_write (o : obj) : bool :=
  match o with
  | NewSource _ | NewPriceSnapshot _ | NewMarketListing _ => true
  | _ => false
  end.

Definition pricing_write (o : obj) : bool :=
  match o with
  | NewSource _ | NewPriceSnapshot _ | NewGradedPrice _ | NewMarketListing _ => true
  | _ => false
  end.

(** [J] holds of the session and of the durable tables, and only objects
    of the [allowed] kinds wait to be flushed *)
Definition guarded (allowed : obj -> bool) (J : tables -> Prop) (w : world) : Prop :=
  J (session w) /\ J (durable w) /\ forallb allowed (pending w) = true.

(** the catalog tables are those of [t0] *)
Definition same_catalog (t0 t : tables) : Prop :=
  series t = series t0 /\ issue t = issue t0 /\ source_xref t = source_xref t0.

(** the pricing tables are those of [t0] *)
Definition same_pricing (t0 t : tables) : Prop :=
  price_snapshot t = price_snapshot t0 /\ graded_price t = graded_price t0
  /\ market_listing t = market_listing t0.

(** the valuation tables are those of [t0] *)
Definition same_valuation (t0 t : tables) : Prop :=
  price_snapshot t = price_snapshot t0 /\ graded_price t = graded_price t0.

(** the cross-reference to an entity under the Source called [name], or
    under the key that Source is about to receive when it does not exist yet *)
Definition xref_under (name entity_type : string) (entity_id : Z) (t : tables)
  : option (Z * SourceXref) :=
  match source_named name t with
  | Some s => xref_of (fst s) entity_type entity_id t
  | None => xref_of (next_id (source t)) entity_type entity_id t
  end.

(** the cross-reference that the valuation sub-flow will read for [issue] *)
Definition valuation_xref (issue : Z * Issue) (t : tables) : option (Z * SourceXref) :=
  xref_under "GoCollect" "issue" (fst issue) t.

(** the graded prices are those of [t0] *)
Definition same_graded (t0 t : tables) : Prop := graded_price t = graded_price t0.

(** what a call of the fetch layer does to the world: [n] requests, all
    the same, answered by the next [n] replies of the network, and the
    first [k] waits of the backoff schedule; nothing else moves *)
Definition fetched (url : string) (params headers : items) (n k : nat) (w w' : world)
  : Prop :=
  sent w' = (sent w ++ repeat (request_of url params headers) n)%list
  /\ wire w' = skipn n (wire w)
  /\ slept w' = (slept w ++ firstn k [1; 2; 4])%list
  /\ environ w' = environ w
  /\ same_db w w'.

(** the cache has no entry for the call of an [@cached] function with [args] *)
Definition unmemoized (args : list string) (w : world) : Prop :=
  find (fun e => cache_key_eqb (fst e) (KeyArgs args)) (api_cache w) = None.

(** [w] after the process environment has been changed to [e] *)
Definition with_environ (e : items) (w : world) : world :=
  {| environ := e; api_cache := api_cache w; wire := wire w;
     sent := sent w; slept := slept w; db_faults := db_faults w;
     durable := durable w; session := session w; pending := pending w |}.

(** [i] is a row of [t], and so is the Series that [i] refers to *)
Definition stored_issue (i : Z * Issue) (t : tables) : Prop :=
  In i (issue t) /\ exists s, In s (series t) /\ fst s = Issue_series_id (snd i).

(** [t] holds a cross-reference from the "Comic Vine" Source to the entity
    [entity_id] of kind [entity_type] *)
Definition linked (entity_type : string) (entity_id : Z) (t : tables) : Prop :=
  exists src x,
    source_named "Comic Vine" t = Some src
    /\ In x (source_xref t)
    /\ SourceXref_source_id (snd x) = fst src
    /\ SourceXref_entity_type (snd x) = entity_type
    /\ SourceXref_entity_id (snd x) = entity_id.

(** the title matches a Series that has no Comic Vine cross-reference, and
    no issue of that number is held by a matching Series *)
Definition orphaned (series_title issue_number : string) (t : tables) : Prop :=
  existing_issue series_title issue_number t = None
  /\ exists s, existing_series series_title t = Some s
               /\ xref_under "Comic Vine" "series" (fst s) t = None.

(** the one row that [get_or_create_source] writes for [name] *)
Definition source_row (name : string) (o : obj) : bool :=
  match o with
  | NewSource x => String.eqb (Source_name x) name
  | _ => false
  end.

(** the keys of the issue table are positive, as generated keys are *)
Definition positive_ids (t : tables) : Prop := forall r, In r (issue t) -> 0 < fst r.

(** [image_file] is a dict with a "name" entry *)
Definition has_name (image_file : pyval) : bool :=
  match image_file with
  | PDict kv => match assoc "name" kv with Some _ => true | None => false end
  | _ => false
  end.

(** how a run of the agent's loop has ended: finished, or with an exception;
    not by running out of turns *)
Definition halted (r : result (option ComicBookAgent.State)) : Prop :=
  match r with
  | Ok (Some final) => ComicBookAgent.State_is_finished final = true
  | Ok None => False
  | Raise _ => True
  end.

(** the int 0 that an unknown defect deducts, or a float *)
Definition zero_or_float (v : pyval) : Prop := v = PInt 0 \/ exists f, v = PFloat f.

(** the rows that the valuation sub-flow is meant to write *)
Definition valuation_snapshot (issue : Z * Issue) (src : Z * Source) (pricing_data : pyval)
  : PriceSnapshot :=
  {| PriceSnapshot_issue_id := fst issue;
     PriceSnapshot_source_id := fst src;
     PriceSnapshot_payload := pricing_data |}.

Definition valuation_row (snapshot_id : Z) (grade_str : string) (fmv : pyval)
  (value : float) : GradedPrice :=
  {| GradedPrice_snapshot_id := snapshot_id;
     GradedPrice_grade_label := grade_str;
     GradedPrice_fmv_usd := fmv;
     GradedPrice_conservative_value_usd := PFloat (value * 0.8)%float |}.

(** *** Amounts in cents *)

(** [k * m * 2^e] as a fraction, for [m > 0] *)
Definition times (k : Z) (m : positive) (e : Z) : Z * Z :=
  (k * Z.pos m * 2 ^ Z.max e 0, 2 ^ Z.max (- e) 0).

(** [num / den] rounded to the nearest integer, a tie to the even one *)
Definition half_even (num den : Z) : Z :=
  let q := num / den in
  let r2 := 2 * (num mod den) in
  if r2 <? den then q
  else if den <? r2 then q + 1
  else if Z.even q then q else q + 1.

(** [round(x, 2)] counted in cents: [100 * x] rounded half-even; a NaN
    and the infinities are no amount *)
Definition cents (x : float) : option Z :=
  match Prim2SF x with
  | S754_zero _ => Some 0
  | S754_finite s m e =>
      let (num, den) := times 100 m e in
      Some (if s then - half_even num den else half_even num den)
  | _ => None
  end.

(** [c] cents are within half a cent of [x]: [|100 * x - c| <= 1/2] *)
Definition within_half_cent (c : Z) (x : float) : Prop :=
  match Prim2SF x with
  | S754_zero _ => c = 0
  | S754_finite s m e =>
      let (num, den) := times 100 m e in
      2 * Z.abs ((if s then - num else num) - c * den) <= den
  | _ => False
  end.

(** [x] is a number: neither a NaN nor an infinity *)
Definition is_amount (x : float) : bool :=
  match Prim2SF x with
  | S754_zero _ | S754_finite _ _ _ => true
  | _ => false
  end.

(** the whole numbers from [0] to [n] *)
Definition up_to (n : Z) : list Z := map Z.of_nat (seq 0 (S (Z.to_nat n))).

(** what the valuation sub-flow may have made of the graded prices [rows]:
    nothing, or one more row, which holds a truthy fair market value as
    received and the product of its float by 0.8 *)
Definition valued (grade_str : string) (rows rows' : table GradedPrice) : Prop :=
  rows' = rows
  \/ exists snapshot_id fmv value,
       rows' = (rows ++ [(next_id rows, valuation_row snapshot_id grade_str fmv value)])%list
       /\ truthy fmv = true
       /\ value_of (py_float fmv) value.

(** the reconciled world in which issue 1 has also been cross-referenced
    under the "GoCollect" Source, with the given replies still to come *)
Definition cross_referenced (replies : list reply) : world :=
  let w0 := reconciled replies [] in
  let gocollect := snd (get_or_create_source "GoCollect" "https://gocollect.com" w0) in
  snd (bind (db_add (NewSourceXref
                       {| SourceXref_source_id := 2; SourceXref_entity_type := "issue";
                          SourceXref_entity_id := 1; SourceXref_external_id := "93358" |}))
         (fun _ => db_commit) gocollect).

(** the [try] of [process_single_comic], which follows the first lookup of
    the name *)
Definition guarded_steps (image_file : pyval) : M unit :=
  try_except
    (image_name <- py_getitem image_file "name" ;;
     vision_data <- process_comic_image_mock image_name ;;
     issue <- get_or_create_issue_from_comicvine
                (Details_series_title vision_data) (Details_issue_number vision_data) ;;
     match issue with
     | None => ret tt
     | Some found =>
         grade_guess <- apply_grading_rules (PStr (Details_defects vision_data)) ;;
         update_pricing_for_issue found grade_guess
     end)
    on_unexpected_error.


(* ------------------------------------------------------------------ *)
(** ** The fetch layer *)

Section Fetch.

Variables (url : string) (params headers : items).

Let key := KeyRequest url (sorted params).

(** One turn of the loop, by the reply it meets. *)
Lemma attempts_step (attempt : Z) (rest : list Z) (w : world) :
  attempts url params headers key (attempt :: rest) w =
  let w1 := snd (requests_get url params headers 15 w) in
  match reply_at w 0 with
  | Response status_code json =>
      if (400 <=? status_code) && (status_code <? 600)
      then if existsb (Z.eqb status_code) [401; 403; 404]
           then (Ok None, w1)
           else attempts url params headers key rest (snd (time_sleep (2 ^ attempt) w1))
      else (Ok (Some json), snd (cache_store key json w1))
  | NoResponse =>
      attempts url params headers key rest (snd (time_sleep (2 ^ attempt) w1))
  end.
Proof.
  unfold reply_at.
  cbn [attempts]. unfold bind at 1. unfold try_except, bind at 1, requests_get.
  destruct (wire w) as [|[status_code json|] tail]; cbn [nth fst snd]; try reflexivity.
  unfold bind, raise_for_status. cbn [fst snd].
  destruct ((400 <=? status_code) && (status_code <? 600)); cbn.
  - destruct (_ || _); reflexivity.
  - reflexivity.
Qed.

Lemma attempts_never_raise (remaining : list Z) :
  forall w, exists out, fst (attempts url params headers key remaining w) = Ok out.
Proof.
  induction remaining as [|attempt rest IH]; intro w.
  - exists None. reflexivity.
  - rewrite attempts_step. cbv zeta.
    destruct (reply_at w 0) as [status_code json|].
    + destruct ((400 <=? status_code) && (status_code <? 600)).
      * destruct (existsb (Z.eqb status_code) [401; 403; 404]).
        -- exists None. reflexivity.
        -- apply IH.
      * exists (Some json). reflexivity.
    + apply IH.
Qed.

Lemma wire_after_get (w : world) :
  wire (snd (requests_get url params headers 15 w)) = tl (wire w).
Proof. unfold requests_get. destruct (wire w) as [|[|] ?]; reflexivity. Qed.

Lemma reply_at_after_turn (w : world) (secs : Z) (n : nat) :
  reply_at (snd (time_sleep secs (snd (requests_get url params headers 15 w)))) n
  = reply_at w (S n).
Proof.
  unfold reply_at. cbn [time_sleep modify snd wire].
  rewrite wire_after_get. destruct (wire w); [destruct n|]; reflexivity.
Qed.

Lemma attempts_exhausted (remaining : list Z) :
  forall w,
    (forall n, (n < List.length remaining)%nat -> reply_fails (reply_at w n) = true) ->
    fst (attempts url params headers key remaining w) = Ok None.
Proof.
  induction remaining as [|attempt rest IH]; intros w Hfail.
  - reflexivity.
  - rewrite attempts_step. cbv zeta.
    assert (H0 := Hfail 0%nat ltac:(cbn; lia)).
    assert (Hrest : forall secs n, (n < List.length rest)%nat ->
              reply_fails (reply_at (snd (time_sleep secs
                 (snd (requests_get url params headers 15 w)))) n) = true).
    { intros secs n Hn. rewrite reply_at_after_turn. apply Hfail. cbn. lia. }
    destruct (reply_at w 0) as [status_code json|]; cbn in H0.
    + rewrite H0. destruct (existsb (Z.eqb status_code) [401; 403; 404]).
      * reflexivity.
      * apply IH, Hrest.
    + apply IH, Hrest.
Qed.

(** C8. [_make_api_request] absorbs every transport and HTTP failure: on
    every input and in every world it returns a value, never an exception;
    and when the cache misses and every attempt fails, that value is the
    empty object. *)
Theorem make_api_request_never_raises (w : world) :
  (exists data, fst (_make_api_request url params headers w) = Ok data)
  /\ (uncached url params w ->
      (forall n, (n < 3)%nat -> reply_fails (reply_at w n) = true) ->
      fst (_make_api_request url params headers w) = Ok (PDict [])).
Proof.
  unfold _make_api_request, uncached. fold key.
  unfold bind at 1. unfold bind at 2. unfold cache_lookup, gets.
  split.
  - destruct (find _ (api_cache w)) as [[k data]|]; cbn [option_map snd].
    + exists data. reflexivity.
    + unfold bind.
      destruct (attempts_never_raise [0; 1; 2] w) as [out Hout].
      destruct (attempts url params headers key [0; 1; 2] w) as [r w'].
      cbn in Hout. subst r. destruct out as [data|]; eexists; reflexivity.
  - intros Hmiss Hfail. rewrite Hmiss. cbn [option_map].
    unfold bind.
    assert (H := attempts_exhausted [0; 1; 2] w Hfail).
    destruct (attempts url params headers key [0; 1; 2] w) as [r w'].
    cbn in H. subst r. reflexivity.
Qed.

Lemma retryable_fails (r : reply) : retryable r = true -> reply_fails r = true.
Proof.
  destruct r as [status_code json|]; cbn; [|reflexivity].
  intro H. apply andb_true_iff in H. tauto.
Qed.

(** A run of retryable failures: one request and one sleep of [2 ^ attempt]
    seconds for every attempt, the last one included. *)
Lemma attempts_retryable (remaining : list Z) :
  forall w,
    (forall n, (n < List.length remaining)%nat -> retryable (reply_at w n) = true) ->
    let r := attempts url params headers key remaining w in
    fst r = Ok None
    /\ slept (snd r) = (slept w ++ map (Z.pow 2) remaining)%list
    /\ sent (snd r)
       = (sent w ++ repeat (request_of url params headers) (List.length remaining))%list
    /\ api_cache (snd r) = api_cache w.
Proof.
  induction remaining as [|attempt rest IH]; intros w Hretry; cbv zeta.
  - cbn. rewrite !app_nil_r. auto.
  - rewrite attempts_step. cbv zeta.
    assert (H0 := Hretry 0%nat ltac:(cbn; lia)).
    set (w1 := snd (time_sleep (2 ^ attempt) (snd (requests_get url params headers 15 w)))).
    assert (Hrest : forall n, (n < List.length rest)%nat -> retryable (reply_at w1 n) = true).
    { intros n Hn. unfold w1. rewrite reply_at_after_turn. apply Hretry. cbn. lia. }
    assert (Hw1 : slept w1 = (slept w ++ [2 ^ attempt])%list
                  /\ sent w1 = (sent w ++ [request_of url params headers])%list
                  /\ api_cache w1 = api_cache w).
    { unfold w1, requests_get. destruct (wire w) as [|[|] ?]; cbn; auto. }
    destruct Hw1 as (Hs & Hq & Hc).
    specialize (IH w1 Hrest). cbv zeta in IH. destruct IH as (IH1 & IH2 & IH3 & IH4).
    assert (Hgoal :
      fst (attempts url params headers key rest w1) = Ok None
      /\ slept (snd (attempts url params headers key rest w1))
         = (slept w ++ map (Z.pow 2) (attempt :: rest))%list
      /\ sent (snd (attempts url params headers key rest w1))
         = (sent w ++ repeat (request_of url params headers)
                             (List.length (attempt :: rest)))%list
      /\ api_cache (snd (attempts url params headers key rest w1)) = api_cache w).
    { rewrite IH2, IH3, IH4, Hs, Hq, Hc, <- !app_assoc. cbn. auto. }
    destruct (reply_at w 0) as [status_code json|]; unfold retryable in H0.
    + apply andb_true_iff in H0. destruct H0 as [Hrange Hnot].
      rewrite Hrange. apply negb_true_iff in Hnot. rewrite Hnot. exact Hgoal.
    + exact Hgoal.
Qed.

Lemma make_api_request_miss (w : world) :
  uncached url params w ->
  _make_api_request url params headers w =
  let r := attempts url params headers key [0; 1; 2] w in
  (match fst r with
   | Ok (Some data) => Ok data
   | Ok None => Ok (PDict [])
   | Raise e => Raise e
   end, snd r).
Proof.
  unfold uncached, _make_api_request. fold key. intro Hmiss.
  unfold bind at 1. unfold cache_lookup, gets. rewrite Hmiss. cbn [option_map].
  unfold bind. cbv zeta.
  destruct (attempts url params headers key [0; 1; 2] w) as [[[data|]|e] w']; reflexivity.
Qed.

(** C7. When the cache misses and the first attempt is answered with 401,
    403 or 404, the loop is left at once: one request has been sent and no
    more of the script consumed, nothing has been slept, nothing is cached,
    and the call returns the empty object that exhaustion returns. *)
Theorem non_retryable_status_aborts (w : world)
  (status_code : Z) (json : pyval) (rest : list reply) :
  uncached url params w ->
  wire w = Response status_code json :: rest ->
  In status_code [401; 403; 404] ->
  let r := _make_api_request url params headers w in
  fst r = Ok (PDict [])
  /\ sent (snd r) = (sent w ++ [request_of url params headers])%list
  /\ wire (snd r) = rest
  /\ slept (snd r) = slept w
  /\ api_cache (snd r) = api_cache w.
Proof.
  intros Hmiss Hwire Hstatus. cbv zeta.
  rewrite (make_api_request_miss w Hmiss). cbv zeta.
  rewrite attempts_step. cbv zeta. unfold reply_at. rewrite Hwire. cbn [nth].
  assert (Hcode : (400 <=? status_code) && (status_code <? 600) = true
                  /\ existsb (Z.eqb status_code) [401; 403; 404] = true).
  { cbn in Hstatus. destruct Hstatus as [<-|[<-|[<-|[]]]]; split; reflexivity. }
  destruct Hcode as [-> ->].
  unfold requests_get. rewrite Hwire. cbn. auto.
Qed.

(** The backoff scenario: two retryable failures, then a success. The
    payload of the third reply is returned (and cached) after sleeps of 1
    and 2 seconds. *)
Lemma backoff_then_success (w : world) (status_code : Z) (json : pyval) :
  uncached url params w ->
  retryable (reply_at w 0) = true ->
  retryable (reply_at w 1) = true ->
  reply_at w 2 = Response status_code json ->
  (400 <=? status_code) && (status_code <? 600) = false ->
  let r := _make_api_request url params headers w in
  fst r = Ok json
  /\ slept (snd r) = (slept w ++ [1; 2])%list
  /\ List.length (sent (snd r)) = (List.length (sent w) + 3)%nat.
Proof.
  intros Hmiss H0 H1 H2 Hok. cbv zeta.
  rewrite (make_api_request_miss w Hmiss). cbv zeta.
  assert (Hturn : forall v attempt rest,
            retryable (reply_at v 0) = true ->
            attempts url params headers key (attempt :: rest) v
            = attempts url params headers key rest
                (snd (time_sleep (2 ^ attempt) (snd (requests_get url params headers 15 v))))).
  { intros v attempt rest Hv. rewrite attempts_step. cbv zeta.
    destruct (reply_at v 0) as [st js|]; unfold retryable in Hv; [|reflexivity].
    apply andb_true_iff in Hv. destruct Hv as [-> Hv].
    apply negb_true_iff in Hv. rewrite Hv. reflexivity. }
  rewrite Hturn by assumption.
  rewrite Hturn by (rewrite reply_at_after_turn; assumption).
  rewrite attempts_step. cbv zeta.
  rewrite !reply_at_after_turn, H2, Hok.
  unfold requests_get.
  destruct (wire w) as [|[|] ?]; cbn;
    repeat match goal with |- context [match ?l with [] => _ | _ :: _ => _ end] =>
             destruct l as [|[|] ?]; cbn end;
    rewrite ?length_app, <- ?app_assoc; cbn; repeat split; lia.
Qed.

(** C6, what the code does. When the cache misses and the three attempts
    all meet retryable failures, the call sleeps three times, 1, 2 and then
    4 seconds, the last sleep after the final attempt, before it returns
    the empty object: it blocks for 7 seconds, not for 1 + 2. *)
Theorem three_failures_sleep_three_times (w : world) :
  uncached url params w ->
  (forall n, (n < 3)%nat -> retryable (reply_at w n) = true) ->
  let r := _make_api_request url params headers w in
  fst r = Ok (PDict [])
  /\ slept (snd r) = (slept w ++ [1; 2; 4])%list
  /\ sent (snd r) = (sent w ++ repeat (request_of url params headers) 3)%list.
Proof.
  intros Hmiss Hretry. cbv zeta.
  rewrite (make_api_request_miss w Hmiss). cbv zeta.
  destruct (attempts_retryable [0; 1; 2] w Hretry) as (Hr & Hs & Hq & _).
  cbn [fst snd]. rewrite Hr, Hs, Hq. auto.
Qed.

End Fetch.

Example non_retryable_status_aborts_witness :
  let w := fresh [Response 404 PNone; Response 200 (PDict [("results", PList [])])] [] in
  let r := _make_api_request "https://comicvine.gamespot.com/api/search/"
             [("query", "Batman")] [] w in
  fst r = Ok (PDict [])
  /\ sent (snd r) = (sent w ++ [request_of "https://comicvine.gamespot.com/api/search/"
                                  [("query", "Batman")] []])%list
  /\ wire (snd r) = [Response 200 (PDict [("results", PList [])])]
  /\ slept (snd r) = slept w
  /\ api_cache (snd r) = api_cache w.
Proof.
  apply (non_retryable_status_aborts _ _ _ _ 404 PNone
           [Response 200 (PDict [("results", PList [])])]).
  - reflexivity.
  - reflexivity.
  - cbn. auto.
Defined.

Example three_failures_sleep_three_times_witness :
  let w := fresh [Response 500 PNone; Response 500 PNone; Response 500 PNone] [] in
  let r := _make_api_request "https://api.gocollect.com/v1/insights/item/93358"
             [("grade", "8.0")] [] w in
  fst r = Ok (PDict [])
  /\ slept (snd r) = (slept w ++ [1; 2; 4])%list
  /\ sent (snd r) = (sent w ++ repeat (request_of
                        "https://api.gocollect.com/v1/insights/item/93358"
                        [("grade", "8.0")] []) 3)%list.
Proof.
  apply three_failures_sleep_three_times.
  - reflexivity.
  - intros [|[|[|n]]] Hn; try reflexivity; lia.
Defined.

Example make_api_request_never_raises_witness :
  let w := fresh [NoResponse; Response 503 PNone] [] in
  (exists data, fst (_make_api_request "https://api.ebay.com/buy/browse/v1/item_summary/search"
                       [("q", "Batman")] [] w) = Ok data)
  /\ fst (_make_api_request "https://api.ebay.com/buy/browse/v1/item_summary/search"
            [("q", "Batman")] [] w) = Ok (PDict []).
Proof.
  destruct (make_api_request_never_raises
              "https://api.ebay.com/buy/browse/v1/item_summary/search"
              [("q", "Batman")] [] (fresh [NoResponse; Response 503 PNone] []))
    as [Hval Hempty].
  split.
  - exact Hval.
  - apply Hempty.
    + reflexivity.
    + intros [|[|[|n]]] Hn; reflexivity.
Defined.

(* ------------------------------------------------------------------ *)
(** ** Reasoning about runs *)

Section Runs.

Context {A B : Type}.

Lemma bind_ok (m : M A) (k : A -> M B) (w w' : world) (b : B) :
  bind m k w = (Ok b, w') ->
  exists a w1, m w = (Ok a, w1) /\ k a w1 = (Ok b, w').
Proof.
  unfold bind. destruct (m w) as [[a|e] w1]; intro H.
  - exists a, w1. auto.
  - discriminate.
Qed.

Lemma bind_run (m : M A) (k : A -> M B) (w w1 : world) (a : A) :
  m w = (Ok a, w1) -> bind m k w = k a w1.
Proof. unfold bind. intros ->. reflexivity. Qed.

Lemma bind_raise (m : M A) (k : A -> M B) (w w1 : world) (e : exn) :
  m w = (Raise e, w1) -> bind m k w = (Raise e, w1).
Proof. unfold bind. intros ->. reflexivity. Qed.

Lemma try_except_ok (m : M A) (handlers : exn -> option (M A)) (w w' : world) (a : A) :
  try_except m handlers w = (Ok a, w') ->
  m w = (Ok a, w')
  \/ exists e w1 h, m w = (Raise e, w1) /\ handlers e = Some h /\ h w1 = (Ok a, w').
Proof.
  unfold try_except. destruct (m w) as [[a'|e] w1]; intro H.
  - left. exact H.
  - right. destruct (handlers e) as [h|] eqn:Hh; [|discriminate].
    exists e, w1, h. auto.
Qed.

Lemma try_except_run (m : M A) (handlers : exn -> option (M A)) (w w1 : world) (a : A) :
  m w = (Ok a, w1) -> try_except m handlers w = (Ok a, w1).
Proof. unfold try_except. intros ->. reflexivity. Qed.

End Runs.

Lemma same_db_refl (w : world) : same_db w w.
Proof. repeat split. Qed.

Lemma same_db_trans (w1 w2 w3 : world) : same_db w1 w2 -> same_db w2 w3 -> same_db w1 w3.
Proof.
  unfold same_db. intros (a & b & c & d) (a' & b' & c' & d').
  repeat split; congruence.
Qed.

Section Frames.

Context {A B : Type}.

Lemma keeps_db_ret (a : A) : keeps_db (ret a).
Proof. intro w. apply same_db_refl. Qed.

Lemma keeps_db_raise (e : exn) : keeps_db (@raise A e).
Proof. intro w. apply same_db_refl. Qed.

Lemma keeps_db_gets (f : world -> A) : keeps_db (gets f).
Proof. intro w. apply same_db_refl. Qed.

Lemma keeps_db_bind (m : M A) (k : A -> M B) :
  keeps_db m -> (forall a, keeps_db (k a)) -> keeps_db (bind m k).
Proof.
  intros Hm Hk w. unfold bind. specialize (Hm w).
  destruct (m w) as [[a|e] w1]; cbn [snd] in Hm.
  - eapply same_db_trans; [exact Hm|apply Hk].
  - exact Hm.
Qed.

Lemma keeps_db_try_except (m : M A) (handlers : exn -> option (M A)) :
  keeps_db m -> (forall e h, handlers e = Some h -> keeps_db h) ->
  keeps_db (try_except m handlers).
Proof.
  intros Hm Hh w. unfold try_except. specialize (Hm w).
  destruct (m w) as [[a|e] w1]; cbn [snd] in Hm.
  - exact Hm.
  - destruct (handlers e) as [h|] eqn:E; [|exact Hm].
    eapply same_db_trans; [exact Hm|apply (Hh e h E)].
Qed.

Lemma pure_ret (a : A) : pure (ret a).
Proof. intro w. reflexivity. Qed.

Lemma pure_raise (e : exn) : pure (@raise A e).
Proof. intro w. reflexivity. Qed.

Lemma pure_gets (f : world -> A) : pure (gets f).
Proof. intro w. reflexivity. Qed.

Lemma pure_bind (m : M A) (k : A -> M B) :
  pure m -> (forall a, pure (k a)) -> pure (bind m k).
Proof.
  intros Hm Hk w. unfold bind. specialize (Hm w).
  destruct (m w) as [[a|e] w1]; cbn [snd] in Hm; subst w1.
  - apply Hk.
  - reflexivity.
Qed.

Lemma offline_ret (a : A) : offline (ret a).
Proof. intro w. reflexivity. Qed.

Lemma offline_raise (e : exn) : offline (@raise A e).
Proof. intro w. reflexivity. Qed.

Lemma offline_gets (f : world -> A) : offline (gets f).
Proof. intro w. reflexivity. Qed.

Lemma offline_bind (m : M A) (k : A -> M B) :
  offline m -> (forall a, offline (k a)) -> offline (bind m k).
Proof.
  intros Hm Hk w. unfold bind. specialize (Hm w).
  destruct (m w) as [[a|e] w1]; cbn [snd] in Hm.
  - rewrite <- Hm. apply Hk.
  - exact Hm.
Qed.

Lemma offline_try_except (m : M A) (handlers : exn -> option (M A)) :
  offline m -> (forall e h, handlers e = Some h -> offline h) ->
  offline (try_except m handlers).
Proof.
  intros Hm Hh w. unfold try_except. specialize (Hm w).
  destruct (m w) as [[a|e] w1]; cbn [snd] in Hm.
  - exact Hm.
  - destruct (handlers e) as [h|] eqn:E; [|exact Hm].
    rewrite <- Hm. apply (Hh e h E).
Qed.

End Frames.

Lemma pure_run {A : Type} (m : M A) (w w' : world) (r : result A) :
  pure m -> m w = (r, w') -> w' = w.
Proof. intros Hm H. specialize (Hm w). rewrite H in Hm. exact Hm. Qed.

Create HintDb frames.
#[local] Hint Resolve keeps_db_ret keeps_db_raise keeps_db_gets
  pure_ret pure_raise pure_gets offline_ret offline_raise offline_gets : frames.

(** Walks down a computation: binds, handlers, and the branches in between. *)
Ltac frame :=
  repeat first
    [ progress intros
    | apply keeps_db_bind | apply pure_bind | apply offline_bind
    | apply keeps_db_try_except | apply offline_try_except
    | solve [auto with frames]
    | match goal with
      | |- keeps_db (match ?x with _ => _ end) => destruct x
      | |- pure (match ?x with _ => _ end) => destruct x
      | |- offline (match ?x with _ => _ end) => destruct x
      | H : (if ?c then _ else _) = Some _ |- _ => destruct c; inversion H; subst; clear H
      | H : None = Some _ |- _ => discriminate H
      | H : Some _ = Some _ |- _ => inversion H; subst; clear H
      | H : match ?e with _ => _ end = Some _ |- _ => destruct e
      end ].

(** *** The built-ins are pure *)

Lemma pure_py_get d k v : pure (py_get d k v).
Proof. unfold py_get. frame. Qed.

Lemma pure_py_getitem d k : pure (py_getitem d k).
Proof. unfold py_getitem. frame. Qed.

Lemma pure_py_index0 v : pure (py_index0 v).
Proof. unfold py_index0. frame. Qed.

Lemma pure_py_iter v : pure (py_iter v).
Proof. unfold py_iter. frame. Qed.

Lemma pure_py_str v : pure (py_str v).
Proof. unfold py_str. frame. Qed.

Lemma pure_py_int_of_str s : pure (py_int_of_str s).
Proof. unfold py_int_of_str. frame. Qed.

Lemma pure_py_int v : pure (py_int v).
Proof.
  unfold py_int. destruct v; auto with frames; [|apply pure_py_int_of_str].
  destruct (truncate f); auto with frames.
Qed.

Lemma pure_py_float v : pure (py_float v).
Proof. unfold py_float. frame. Qed.

Lemma pure_bind_text v : pure (bind_text v).
Proof. unfold bind_text. frame. Qed.

#[local] Hint Resolve pure_py_get pure_py_getitem pure_py_index0 pure_py_iter pure_py_str
  pure_py_int_of_str pure_py_int pure_py_float pure_bind_text : frames.

Lemma pure_series_of v t : pure (series_of v t).
Proof. unfold series_of. frame. Qed.

Lemma pure_issue_of i v n : pure (issue_of i v n).
Proof. unfold issue_of. frame. Qed.

Lemma pure_next_issue l n : pure (next_issue l n).
Proof. induction l as [|iss rest IH]; cbn [next_issue]; frame. Qed.

Lemma pure_listing_of i v : pure (listing_of i v).
Proof. unfold listing_of. frame. Qed.

#[local] Hint Resolve pure_series_of pure_issue_of pure_next_issue pure_listing_of : frames.

(** *** The network side leaves the session alone *)

Lemma keeps_db_pure {A : Type} (m : M A) : pure m -> keeps_db m.
Proof. intros Hm w. rewrite Hm. apply same_db_refl. Qed.

Lemma keeps_db_os_getenv n : keeps_db (os_getenv n).
Proof. unfold os_getenv. frame. Qed.

Lemma keeps_db_time_sleep secs : keeps_db (time_sleep secs).
Proof. intro w. repeat split. Qed.

Lemma keeps_db_requests_get u p h t : keeps_db (requests_get u p h t).
Proof. intro w. unfold requests_get. destruct (wire w) as [|[|] ?]; repeat split. Qed.

Lemma keeps_db_cache_lookup k : keeps_db (cache_lookup k).
Proof. unfold cache_lookup. frame. Qed.

Lemma keeps_db_cache_store k v : keeps_db (cache_store k v).
Proof. intro w. repeat split. Qed.

Lemma keeps_db_raise_for_status r : keeps_db (raise_for_status r).
Proof. unfold raise_for_status. frame. Qed.

#[local] Hint Resolve keeps_db_os_getenv keeps_db_time_sleep keeps_db_requests_get
  keeps_db_cache_lookup keeps_db_cache_store keeps_db_raise_for_status : frames.

Lemma keeps_db_attempts u p h k l : keeps_db (attempts u p h k l).
Proof. induction l as [|attempt rest IH]; cbn [attempts]; frame. Qed.

#[local] Hint Resolve keeps_db_attempts : frames.

Lemma keeps_db_make_api_request u p h : keeps_db (_make_api_request u p h).
Proof. unfold _make_api_request. frame. Qed.

#[local] Hint Resolve keeps_db_make_api_request : frames.

Lemma keeps_db_py_get d k v : keeps_db (py_get d k v).
Proof. apply keeps_db_pure. auto with frames. Qed.

#[local] Hint Resolve keeps_db_py_get : frames.

Lemma keeps_db_search_comicvine_volume t : keeps_db (search_comicvine_volume t).
Proof. unfold search_comicvine_volume. frame. Qed.

Lemma keeps_db_get_comicvine_issues_for_volume v :
  keeps_db (get_comicvine_issues_for_volume v).
Proof. unfold get_comicvine_issues_for_volume. frame. Qed.

Lemma keeps_db_cached args body : keeps_db body -> keeps_db (cached args body).
Proof. intro Hb. unfold cached. frame. Qed.

Lemma keeps_db_search_ebay_listings q : keeps_db (search_ebay_listings q).
Proof. unfold search_ebay_listings. apply keeps_db_cached. frame. Qed.

Lemma keeps_db_get_gocollect_pricing c g : keeps_db (get_gocollect_pricing c g).
Proof. unfold get_gocollect_pricing. apply keeps_db_cached. frame. Qed.

(** *** The session primitives *)

Lemma db_roundtrip_run (w : world) :
  db_roundtrip w =
  (if hd false (db_faults w) then Raise OperationalError else Ok tt, tick w).
Proof. reflexivity. Qed.

Lemma db_flush_nil (w : world) : pending w = [] -> db_flush w = (Ok [], w).
Proof. intro Hp. unfold db_flush, bind, gets. rewrite Hp. reflexivity. Qed.

Lemma db_query_run {A : Type} (select : tables -> A) (w : world) :
  pending w = [] ->
  db_query select w =
  (if hd false (db_faults w) then Raise OperationalError else Ok (select (session w)),
   tick w).
Proof.
  intro Hp. unfold db_query. rewrite (bind_run _ _ _ _ _ (db_flush_nil w Hp)).
  unfold bind. rewrite db_roundtrip_run. destruct (hd false (db_faults w)); reflexivity.
Qed.

Lemma db_query_ok {A : Type} (select : tables -> A) (w w' : world) (a : A) :
  pending w = [] ->
  db_query select w = (Ok a, w') ->
  a = select (session w) /\ w' = tick w /\ hd false (db_faults w) = false.
Proof.
  intros Hp H. rewrite (db_query_run select w Hp) in H.
  destruct (hd false (db_faults w)); inversion H; auto.
Qed.

Lemma db_flush_one (o : obj) (w : world) :
  pending w = [o] ->
  db_flush w =
  if hd false (db_faults w) then (Raise OperationalError, tick w)
  else match insert o (session w) with
       | Some (i, t) => (Ok [i], with_session (tl (db_faults w)) (durable w) t [] w)
       | None => (Raise IntegrityError, tick w)
       end.
Proof.
  intro Hp. unfold db_flush, bind at 1, gets. rewrite Hp. cbn [flush_objs].
  unfold bind at 1. rewrite db_roundtrip_run.
  destruct (hd false (db_faults w)); [reflexivity|].
  unfold bind, db_insert. cbn [session tick set_faults].
  destruct (insert o (session w)) as [[i t]|]; [|reflexivity].
  cbn. rewrite Hp. reflexivity.
Qed.

Lemma db_flush_one_ok (o : obj) (w w' : world) (ids : list Z) :
  pending w = [o] ->
  db_flush w = (Ok ids, w') ->
  exists i t, insert o (session w) = Some (i, t) /\ ids = [i]
              /\ hd false (db_faults w) = false
              /\ w' = with_session (tl (db_faults w)) (durable w) t [] w.
Proof.
  intros Hp H. rewrite (db_flush_one o w Hp) in H.
  destruct (hd false (db_faults w)); [discriminate|].
  destruct (insert o (session w)) as [[i t]|]; [|discriminate].
  inversion H; subst. exists i, t. auto.
Qed.

Lemma db_commit_one (o : obj) (w : world) :
  pending w = [o] ->
  db_commit w =
  if hd false (db_faults w) then (Raise OperationalError, tick w)
  else match insert o (session w) with
       | Some (i, t) =>
           if hd false (tl (db_faults w))
           then (Raise OperationalError,
                 with_session (tl (tl (db_faults w))) (durable w) t [] w)
           else (Ok [i], with_session (tl (tl (db_faults w))) t t [] w)
       | None => (Raise IntegrityError, tick w)
       end.
Proof.
  intro Hp. unfold db_commit. unfold bind at 1. rewrite (db_flush_one o w Hp).
  destruct (hd false (db_faults w)); [reflexivity|].
  destruct (insert o (session w)) as [[i t]|]; [|reflexivity].
  unfold bind. rewrite db_roundtrip_run. cbn [db_faults with_session].
  destruct (hd false (tl (db_faults w))); reflexivity.
Qed.

Lemma db_commit_one_ok (o : obj) (w w' : world) (ids : list Z) :
  pending w = [o] ->
  db_commit w = (Ok ids, w') ->
  exists i t, insert o (session w) = Some (i, t) /\ ids = [i]
              /\ hd false (db_faults w) = false
              /\ hd false (tl (db_faults w)) = false
              /\ w' = with_session (tl (tl (db_faults w))) t t [] w.
Proof.
  intros Hp H. rewrite (db_commit_one o w Hp) in H.
  destruct (hd false (db_faults w)); [discriminate|].
  destruct (insert o (session w)) as [[i t]|]; [|discriminate].
  destruct (hd false (tl (db_faults w))); [discriminate|].
  inversion H; subst. exists i, t. auto.
Qed.

Lemma db_add_run (o : obj) (w : world) :
  db_add o w
  = (Ok tt, with_session (db_faults w) (durable w) (session w) (pending w ++ [o])%list w).
Proof. reflexivity. Qed.

Lemma db_rollback_run (w : world) :
  db_rollback w = (Ok tt, with_session (db_faults w) (durable w) (durable w) [] w).
Proof. reflexivity. Qed.

(** *** What an INSERT changes *)

Lemma insert_source (x : Source) (t t' : tables) (i : Z) :
  insert (NewSource x) t = Some (i, t') ->
  source t' = (source t ++ [(i, x)])%list /\ i = next_id (source t)
  /\ series t' = series t /\ issue t' = issue t /\ source_xref t' = source_xref t
  /\ price_snapshot t' = price_snapshot t /\ graded_price t' = graded_price t
  /\ market_listing t' = market_listing t.
Proof.
  cbn [insert]. destruct (existsb _ _); [discriminate|].
  intro H. inversion H; subst. cbn. repeat split.
Qed.

Lemma insert_series (x : Series) (t t' : tables) (i : Z) :
  insert (NewSeries x) t = Some (i, t') ->
  series t' = (series t ++ [(i, x)])%list /\ i = next_id (series t)
  /\ Series_title x <> None
  /\ source t' = source t /\ issue t' = issue t /\ source_xref t' = source_xref t
  /\ price_snapshot t' = price_snapshot t /\ graded_price t' = graded_price t
  /\ market_listing t' = market_listing t.
Proof.
  cbn [insert]. destruct (Series_title x) eqn:E; [|discriminate].
  destruct (existsb _ _); [discriminate|].
  intro H. inversion H; subst. cbn. repeat split. discriminate.
Qed.

Lemma insert_issue (x : Issue) (t t' : tables) (i : Z) :
  insert (NewIssue x) t = Some (i, t') ->
  issue t' = (issue t ++ [(i, x)])%list /\ i = next_id (issue t)
  /\ source t' = source t /\ series t' = series t /\ source_xref t' = source_xref t
  /\ price_snapshot t' = price_snapshot t /\ graded_price t' = graded_price t
  /\ market_listing t' = market_listing t.
Proof.
  cbn [insert]. destruct (Issue_issue_number x); [|discriminate].
  destruct (existsb _ _); [discriminate|].
  intro H. inversion H; subst. cbn. repeat split.
Qed.

Lemma insert_source_xref (x : SourceXref) (t t' : tables) (i : Z) :
  insert (NewSourceXref x) t = Some (i, t') ->
  source_xref t' = (source_xref t ++ [(i, x)])%list /\ i = next_id (source_xref t)
  /\ existsb (fun r => same_triple (snd r) x) (source_xref t) = false
  /\ source t' = source t /\ series t' = series t /\ issue t' = issue t
  /\ price_snapshot t' = price_snapshot t /\ graded_price t' = graded_price t
  /\ market_listing t' = market_listing t.
Proof.
  cbn [insert]. destruct (existsb _ _) eqn:E; [discriminate|].
  intro H. inversion H; subst. cbn. repeat split.
Qed.

Lemma insert_price_snapshot (x : PriceSnapshot) (t : tables) :
  exists t', insert (NewPriceSnapshot x) t = Some (next_id (price_snapshot t), t')
  /\ price_snapshot t' = (price_snapshot t ++ [(next_id (price_snapshot t), x)])%list
  /\ source t' = source t /\ series t' = series t /\ issue t' = issue t
  /\ source_xref t' = source_xref t /\ graded_price t' = graded_price t
  /\ market_listing t' = market_listing t.
Proof. eexists. cbn [insert]. split; [reflexivity|]. cbn. repeat split. Qed.

(* ------------------------------------------------------------------ *)
(** ** Reconciliation *)

Lemma tick_fault_free (w : world) : fault_free w -> tick w = w.
Proof. unfold fault_free, tick, set_faults. destruct w; cbn. intros ->. reflexivity. Qed.

(** Projections of an updated world. *)
Ltac simpl_world :=
  cbn [environ api_cache wire sent slept db_faults durable session pending
       with_session tick set_faults set_db fst snd] in *.

(** Splits a successful run of [x <- m ;; k] found in hypothesis [H]. *)
Ltac step H a w1 Ha :=
  apply bind_ok in H; destruct H as (a & w1 & Ha & H).

Lemma get_or_create_source_ok (name url : string) (w w' : world) (s : Z * Source) :
  pending w = [] ->
  get_or_create_source name url w = (Ok s, w') ->
  (source_named name (session w) = Some s /\ w' = tick w)
  \/ (source_named name (session w) = None
      /\ snd s = {| Source_name := name; Source_url := url |}
      /\ exists t,
           insert (NewSource {| Source_name := name; Source_url := url |}) (session w)
           = Some (fst s, t)
           /\ w' = with_session (tl (tl (tl (tl (db_faults w))))) t t [] w).
Proof.
  intros Hp H. unfold get_or_create_source in H.
  apply try_except_ok in H. destruct H as [H|(e & w1 & h & _ & Hh & H)].
  - step H found w1 Hq. apply (db_query_ok _ _ _ _ Hp) in Hq.
    destruct Hq as (-> & -> & Hf0).
    destruct (source_named name (session w)) as [s0|] eqn:Hs.
    + left. inversion H; subst. auto.
    + right. step H u1 w2 Hadd. rewrite db_add_run in Hadd. inversion Hadd; subst w2.
      step H ids w3 Hc. eapply db_commit_one_ok in Hc; [|cbn; rewrite Hp; reflexivity].
      destruct Hc as (i & t & Hi & -> & Hf1 & Hf2 & ->).
      step H u2 w4 Hr. rewrite db_roundtrip_run in Hr. simpl_world.
      destruct (hd false (tl (tl (tl (db_faults w))))); inversion Hr; subst w4.
      inversion H; subst. simpl_world. split; [reflexivity|]. split; [reflexivity|].
      exists t. split; [exact Hi|reflexivity].
  - destruct (is_SQLAlchemyError e); inversion Hh; subst h.
    unfold bind, raise in H. rewrite db_rollback_run in H. discriminate.
Qed.

Lemma get_or_create_source_pending (name url : string) (w w' : world) (s : Z * Source) :
  pending w = [] -> get_or_create_source name url w = (Ok s, w') -> pending w' = [].
Proof.
  intros Hp H. destruct (get_or_create_source_ok _ _ _ _ _ Hp H)
    as [(_ & ->)|(_ & _ & t & _ & ->)]; cbn; auto.
Qed.

(** the tables that reconciliation reads and writes besides [source] *)
Lemma get_or_create_source_tables (name url : string) (w w' : world) (s : Z * Source) :
  pending w = [] -> get_or_create_source name url w = (Ok s, w') ->
  series (session w') = series (session w)
  /\ issue (session w') = issue (session w)
  /\ source_xref (session w') = source_xref (session w)
  /\ price_snapshot (session w') = price_snapshot (session w)
  /\ market_listing (session w') = market_listing (session w)
  /\ sent w' = sent w.
Proof.
  intros Hp H. destruct (get_or_create_source_ok _ _ _ _ _ Hp H)
    as [(_ & ->)|(_ & _ & t & Hi & ->)]; cbn.
  - repeat split.
  - apply insert_source in Hi. intuition congruence.
Qed.

(** Splits a successful run of a pure [x <- m ;; k]: the world stays. *)
Ltac step_pure H a Ha :=
  let w1 := fresh "w" in
  apply bind_ok in H; destruct H as (a & w1 & Ha & H);
  match type of Ha with
  | ?m ?w = _ =>
      let E := fresh in
      assert (E : w1 = w) by (eapply pure_run; [|exact Ha]; frame);
      subst w1
  end.

(** What a successful series step did: either the local lookup found the
    series, or one row was appended to [series], built from the first
    candidate of the catalog search. *)
Lemma series_step_ok (series_title : string) (w w' : world) (s : Z * Series) :
  pending w = [] ->
  _get_or_create_series_from_comicvine series_title w = (Ok (Some s), w') ->
  pending w' = []
  /\ issue (session w') = issue (session w)
  /\ ((existing_series series_title (session w) = Some s
       /\ series (session w') = series (session w))
      \/ (existing_series series_title (session w) = None
          /\ series (session w') = (series (session w) ++ [s])%list
          /\ fst s = next_id (series (session w))
          /\ Series_title (snd s) <> None
          /\ durable w' = session w'
          /\ exists volumes wv cv_volume,
               search_comicvine_volume series_title (tick w) = (Ok volumes, wv)
               /\ truthy volumes = true
               /\ py_index0 volumes wv = (Ok cv_volume, wv)
               /\ series_of cv_volume series_title wv = (Ok (snd s), wv))).
Proof.
  intros Hp H. unfold _get_or_create_series_from_comicvine in H.
  step H found w1 Hq. apply (db_query_ok _ _ _ _ Hp) in Hq. destruct Hq as (-> & -> & _).
  destruct (existing_series series_title (session w)) as [s0|] eqn:Hs.
  { inversion H; subst. simpl_world. auto. }
  step H volumes wv Hsearch.
  assert (Hdb : same_db (tick w) wv).
  { pose proof (keeps_db_search_comicvine_volume series_title (tick w)) as K.
    rewrite Hsearch in K. exact K. }
  destruct Hdb as (Hf & Hd & Hss & Hpp). simpl_world.
  destruct (truthy volumes) eqn:Htruthy; cbn [negb] in H; [|discriminate].
  step_pure H cv_volume Hidx.
  apply try_except_ok in H. destruct H as [H|(e & w2 & h & _ & Hh & H)].
  2:{ unfold on_db_error in Hh. destruct (is_SQLAlchemyError e); inversion Hh; subst h.
      unfold bind, ret in H. rewrite db_rollback_run in H. discriminate. }
  step_pure H x Hx.
  step H u1 w2 Hadd. rewrite db_add_run in Hadd. inversion Hadd; subst w2. clear Hadd.
  step H ids w3 Hfl. eapply db_flush_one_ok in Hfl; [|simpl_world; rewrite Hpp, Hp; reflexivity].
  destruct Hfl as (i & t & Hi & -> & _ & ->). simpl_world.
  apply insert_series in Hi. destruct Hi as (Hi1 & Hi2 & Hi3 & _ & Hi4 & _).
  step H cv_source w4 Hsrc.
  match type of Hsrc with
  | get_or_create_source _ _ ?w3 = _ =>
      pose proof (get_or_create_source_pending _ _ w3 _ _ eq_refl Hsrc) as Hp4;
      pose proof (get_or_create_source_tables _ _ w3 _ _ eq_refl Hsrc) as (T1 & T2 & _)
  end.
  simpl_world.
  step_pure H volume_id Hvid. step_pure H external_id Hext.
  step H u2 w5 Hadd. rewrite db_add_run in Hadd. inversion Hadd; subst w5. clear Hadd.
  step H ids' w6 Hc. eapply db_commit_one_ok in Hc; [|simpl_world; rewrite Hp4; reflexivity].
  destruct Hc as (j & t' & Hj & -> & _ & _ & ->). simpl_world.
  apply insert_source_xref in Hj. destruct Hj as (_ & _ & _ & _ & J1 & J2 & _).
  inversion H; subst. simpl_world. clear H.
  split; [reflexivity|].
  split; [congruence|].
  right. split; [reflexivity|].
  split; [cbn [new_id last]; congruence|].
  split; [cbn [new_id last]; congruence|].
  split; [exact Hi3|].
  split; [reflexivity|].
  exists volumes, wv, cv_volume. auto.
Qed.

Lemma eq_str_true (v : pyval) (s : string) : eq_str v s = true -> v = PStr s.
Proof.
  destruct v; cbn; try discriminate.
  intro H. apply String.eqb_eq in H. congruence.
Qed.

(** the candidate that [next] selects carries the issue number asked for *)
Lemma next_issue_found (issue_number : string) (candidates : list pyval) :
  forall w w' found,
    next_issue candidates issue_number w = (Ok found, w') ->
    found = PNone
    \/ exists kv, found = PDict kv /\ assoc "issue_number" kv = Some (PStr issue_number).
Proof.
  induction candidates as [|iss rest IH]; intros w w' found H; cbn [next_issue] in H.
  - inversion H. auto.
  - step_pure H number Hn.
    destruct (eq_str number issue_number) eqn:E.
    + inversion H; subst. right. apply eq_str_true in E. subst number.
      destruct found; try discriminate Hn. cbn in Hn.
      exists kv. split; [reflexivity|].
      destruct (assoc "issue_number" kv); inversion Hn; reflexivity.
    + eapply IH; eassumption.
Qed.

Lemma issue_of_found (series_id : Z) (kv : list (string * pyval))
  (issue_number : string) (w w' : world) (x : Issue) :
  assoc "issue_number" kv = Some (PStr issue_number) ->
  issue_of series_id (PDict kv) issue_number w = (Ok x, w') ->
  Issue_series_id x = series_id /\ Issue_issue_number x = Some issue_number.
Proof.
  intros Hkv H. unfold issue_of in H.
  step_pure H n Hn. cbn [py_get] in Hn. rewrite Hkv in Hn. inversion Hn; subst n.
  step_pure H tx Ht. inversion Ht; subst tx.
  step_pure H a Ha. step_pure H b Hb. step_pure H c Hc.
  inversion H; subst. auto.
Qed.

(** What a successful issue step did: one row appended to [issue], in the
    series it was given and with the number asked for. *)
Lemma issue_step_ok (s : Z * Series) (issue_number : string) (w w' : world)
  (i : Z * Issue) :
  pending w = [] ->
  _get_or_create_issue_for_series s issue_number w = (Ok (Some i), w') ->
  pending w' = []
  /\ series (session w') = series (session w)
  /\ issue (session w') = (issue (session w) ++ [i])%list
  /\ Issue_series_id (snd i) = fst s
  /\ Issue_issue_number (snd i) = Some issue_number.
Proof.
  intros Hp H. unfold _get_or_create_issue_for_series in H.
  step H cv_source w1 Hsrc.
  pose proof (get_or_create_source_pending _ _ _ _ _ Hp Hsrc) as Hp1.
  pose proof (get_or_create_source_tables _ _ _ _ _ Hp Hsrc) as (S1 & S2 & _).
  step H xref_series w2 Hq. apply (db_query_ok _ _ _ _ Hp1) in Hq.
  destruct Hq as (-> & -> & _).
  destruct (xref_of _ _ _ _) as [xref|]; [|discriminate].
  step_pure H volume_id Hv.
  step H cv_issues wv Hfetch.
  assert (Hdb : same_db (tick w1) wv).
  { pose proof (keeps_db_get_comicvine_issues_for_volume volume_id (tick w1)) as K.
    rewrite Hfetch in K. exact K. }
  destruct Hdb as (Hf & Hd & Hss & Hpp). simpl_world.
  step_pure H candidates Hc. step_pure H found Hfound.
  destruct (truthy found) eqn:Htruthy; cbn [negb] in H; [|discriminate].
  apply next_issue_found in Hfound.
  destruct Hfound as [->|(kv & -> & Hkv)]; [discriminate|].
  apply try_except_ok in H. destruct H as [H|(e & w2 & h & _ & Hh & H)].
  2:{ unfold on_db_error in Hh. destruct (is_SQLAlchemyError e); inversion Hh; subst h.
      unfold bind, ret in H. rewrite db_rollback_run in H. discriminate. }
  step_pure H x Hx. apply (issue_of_found _ _ _ _ _ _ Hkv) in Hx. destruct Hx as (X1 & X2).
  step H u1 w2 Hadd. rewrite db_add_run in Hadd. inversion Hadd; subst w2. clear Hadd.
  step H ids w3 Hfl.
  eapply db_flush_one_ok in Hfl; [|simpl_world; rewrite Hpp, Hp1; reflexivity].
  destruct Hfl as (n & t & Hi & -> & _ & ->). simpl_world.
  apply insert_issue in Hi. destruct Hi as (Hi1 & _ & _ & Hi3 & _).
  step_pure H cv_id Hid. step_pure H external_id Hext.
  step H u2 w5 Hadd. rewrite db_add_run in Hadd. inversion Hadd; subst w5. clear Hadd.
  step H ids' w6 Hcm. eapply db_commit_one_ok in Hcm; [|reflexivity].
  destruct Hcm as (j & t' & Hj & -> & _ & _ & ->). simpl_world.
  apply insert_source_xref in Hj. destruct Hj as (_ & _ & _ & _ & J1 & J2 & _).
  inversion H; subst. simpl_world. clear H.
  cbn [new_id last].
  repeat split; congruence.
Qed.

Lemma max_id_bound {A : Type} (t : table A) (r : Z * A) : In r t -> fst r <= max_id t.
Proof.
  unfold max_id. induction t as [|x t IH]; cbn [In fold_right]; [tauto|].
  intros [->|H]; [lia|]. specialize (IH H). lia.
Qed.

Lemma next_id_fresh {A : Type} (t : table A) (r : Z * A) :
  In r t -> Z.eqb (next_id t) (fst r) = false.
Proof.
  intro H. apply max_id_bound in H. unfold next_id. apply Z.eqb_neq. lia.
Qed.

Lemma find_app_last {A : Type} (p : A -> bool) (l : list A) (y : A) :
  find p l = None -> p y = true -> find p (l ++ [y])%list = Some y.
Proof.
  induction l as [|x l IH]; cbn; intros Hl Hy.
  - rewrite Hy. reflexivity.
  - destruct (p x); [discriminate|]. auto.
Qed.

Lemma find_none_ext {A : Type} (p q : A -> bool) (l : list A) :
  (forall x, In x l -> p x = false -> q x = false) ->
  find p l = None -> find q l = None.
Proof.
  induction l as [|x l IH]; cbn; intros Hpq Hl; [reflexivity|].
  destruct (p x) eqn:E; [discriminate|].
  rewrite (Hpq x (or_introl eq_refl) E). apply IH; auto.
Qed.

Lemma existing_issue_run (series_title issue_number : string) (w : world)
  (i : Z * Issue) :
  pending w = [] ->
  hd false (db_faults w) = false ->
  existing_issue series_title issue_number (session w) = Some i ->
  get_or_create_issue_from_comicvine series_title issue_number w
  = (Ok (Some i), tick w).
Proof.
  intros Hp Hf Hi. unfold get_or_create_issue_from_comicvine.
  apply try_except_run. unfold bind.
  rewrite (db_query_run _ w Hp), Hf, Hi. reflexivity.
Qed.

(** When the second call does take the fast path. Once a call has
    succeeded, a second call with the same title and number whose lookup
    meets no persistence fault returns the same Issue from the local lookup
    alone, changing nothing and sending nothing, provided the pattern built
    from the title matches the title stored for the Series that holds the
    issue. *)
Theorem second_call_is_fast_path (series_title issue_number : string)
  (w0 w1 : world) (i : Z * Issue) :
  pending w0 = [] ->
  issues_have_series (session w0) = true ->
  get_or_create_issue_from_comicvine series_title issue_number w0 = (Ok (Some i), w1) ->
  held_by_matching_series series_title i (session w1) = true ->
  hd false (db_faults w1) = false ->
  get_or_create_issue_from_comicvine series_title issue_number w1
  = (Ok (Some i), tick w1)
  /\ sent (tick w1) = sent w1
  /\ session (tick w1) = session w1
  /\ durable (tick w1) = durable w1.
Proof.
  intros Hp Hwf H Hheld Hf.
  split; [|repeat split].
  unfold get_or_create_issue_from_comicvine in H.
  apply try_except_ok in H. destruct H as [H|(e & w2 & h & _ & Hh & H)].
  2:{ destruct (is_SQLAlchemyError e); [|destruct (is_Exception e)];
        inversion Hh; subst h; unfold bind, ret in H; rewrite db_rollback_run in H;
        discriminate. }
  step H found wq Hq. apply (db_query_ok _ _ _ _ Hp) in Hq. destruct Hq as (-> & -> & _).
  destruct (existing_issue series_title issue_number (session w0)) as [i0|] eqn:Hold.
  { inversion H; subst. apply existing_issue_run; auto. }
  step H s ws Hs. destruct s as [s|]; [|discriminate].
  apply series_step_ok in Hs; [|exact Hp]. simpl_world.
  destruct Hs as (Hps & Hiss & Hser).
  apply issue_step_ok in H; [|exact Hps].
  destruct H as (Hp1 & Hser1 & Hiss1 & Hsid & Hnum).
  apply existing_issue_run; auto.
  unfold existing_issue. rewrite Hiss1, Hiss.
  apply find_app_last.
  - unfold existing_issue in Hold. revert Hold. apply find_none_ext.
    intros x Hx Hfalse.
    destruct (opt_eqb (Issue_issue_number (snd x)) (Some issue_number));
      [|apply andb_false_r].
    rewrite andb_true_r in *. rewrite Hser1.
    destruct Hser as [(_ & ->)|(_ & -> & Hfresh & _)]; [exact Hfalse|].
    rewrite existsb_app, Hfalse. cbn [existsb]. rewrite orb_false_r, Hfresh.
    unfold issues_have_series in Hwf. rewrite forallb_forall in Hwf.
    specialize (Hwf x Hx). apply existsb_exists in Hwf. destruct Hwf as (r & Hr & Heq).
    apply Z.eqb_eq in Heq. rewrite <- Heq, (next_id_fresh _ r Hr). reflexivity.
  - unfold held_by_matching_series in Hheld. rewrite Hheld, Hnum. cbn.
    apply String.eqb_refl.
Qed.

Example second_call_is_fast_path_witness :
  let w0 := fresh spider_catalog [] in
  let r := get_or_create_issue_from_comicvine "Spider" "1" w0 in
  let i := (1, {| Issue_series_id := 1; Issue_issue_number := Some "1";
                  Issue_cover_date := PNone; Issue_cover_url := PNone |}) in
  get_or_create_issue_from_comicvine "Spider" "1" (snd r) = (Ok (Some i), tick (snd r))
  /\ sent (tick (snd r)) = sent (snd r)
  /\ session (tick (snd r)) = session (snd r)
  /\ durable (tick (snd r)) = durable (snd r).
Proof.
  cbv zeta.
  apply (second_call_is_fast_path "Spider" "1" (fresh spider_catalog []));
    vm_compute; reflexivity.
Defined.

(** C1, where the code departs from it. The catalog answers the search
    for "Spiderman" with the volume "Spider-Man"; the first call creates the
    Series under that name and returns issue 1. The pattern of the second,
    identical call does not match the stored title: the call leaves the fast
    path, goes back to the catalog data, flushes a second Series, runs into
    the cross-reference it wrote before and returns nothing instead of the
    Issue. *)
Example second_call_misses_fast_path :
  let w0 := fresh spider_catalog [] in
  let first := get_or_create_issue_from_comicvine "Spiderman" "1" w0 in
  let second := get_or_create_issue_from_comicvine "Spiderman" "1" (snd first) in
  fst first = Ok (Some (1, {| Issue_series_id := 1; Issue_issue_number := Some "1";
                              Issue_cover_date := PNone; Issue_cover_url := PNone |}))
  /\ existing_issue "Spiderman" "1" (session (snd first)) = None
  /\ existing_series "Spiderman" (session (snd first)) = None
  /\ fst second = Ok None
  /\ session (snd second) = session (snd first).
Proof. vm_compute. repeat split. Qed.

(** *** The pattern of the local lookups *)

Lemma like_percent (p : string) (d : ascii) (s : string) :
  like (String "%" p) (String d s) = like p (String d s) || like (String "%" p) s.
Proof. reflexivity. Qed.

Lemma like_percent_all (s : string) : like "%" s = true.
Proof. induction s as [|d s IH]; [reflexivity|]. rewrite like_percent, IH. apply orb_true_r. Qed.

Lemma like_percent_here (p s : string) : like p s = true -> like (String "%" p) s = true.
Proof.
  intro H. destruct s as [|d s].
  - cbn. rewrite H. reflexivity.
  - rewrite like_percent, H. reflexivity.
Qed.

Lemma like_percent_skip (p pre s : string) :
  like p s = true -> like (String "%" p) (pre ++ s) = true.
Proof.
  intro H. induction pre as [|d pre IH]; cbn [append].
  - apply like_percent_here, H.
  - rewrite like_percent, IH. apply orb_true_r.
Qed.

Lemma like_literal (t t' p s : string) :
  ci_equal t t' = true -> like p s = true -> like (t ++ p) (t' ++ s) = true.
Proof.
  revert t'. induction t as [|c t IH]; intros [|d t'] Heq Hp; try discriminate.
  - exact Hp.
  - cbn [ci_equal] in Heq. apply andb_true_iff in Heq. destruct Heq as [Hc Ht].
    cbn [append]. specialize (IH t' Ht Hp).
    destruct (Ascii.eqb c "%") eqn:Epct.
    + apply Ascii.eqb_eq in Epct. subst c.
      rewrite like_percent. apply orb_true_iff. right. apply like_percent_here, IH.
    + cbn [like]. rewrite Epct, Hc, IH, orb_true_r. reflexivity.
Qed.

(** a stored title that contains the caller's title, up to case, is matched *)
Lemma title_matches_substring (series_title before inside after : string)
  (r : Z * Series) :
  Series_title (snd r) = Some (before ++ inside ++ after) ->
  ci_equal series_title inside = true ->
  title_matches series_title r = true.
Proof.
  intros Hr Heq. unfold title_matches. rewrite Hr. cbn [ilike].
  change ("%" ++ series_title ++ "%") with (String "%" (series_title ++ "%")).
  apply like_percent_skip, like_literal; [exact Heq|apply like_percent_all].
Qed.

Lemma series_of_title (cv_volume : pyval) (series_title : string) (w w' : world)
  (x : Series) :
  series_of cv_volume series_title w = (Ok x, w') ->
  Series_title x <> None ->
  (exists name, name_field cv_volume = Some (PStr name) /\ Series_title x = Some name)
  \/ (name_field cv_volume = None /\ Series_title x = Some series_title).
Proof.
  intros H Hnn. unfold series_of in H.
  step_pure H name Hname. step_pure H title Ht.
  step_pure H a Ha. step_pure H b Hb. step_pure H c Hc. step_pure H d Hd.
  step_pure H e He. step_pure H f Hf. inversion H; subst x. cbn in *. clear H.
  destruct cv_volume; try discriminate Hname. cbn in Hname. cbn [name_field].
  destruct (assoc "name" kv) as [v|]; inversion Hname; subst name.
  - destruct v; inversion Ht; subst title; try congruence. left. eauto.
  - right. inversion Ht. auto.
Qed.

Lemma like_percent_split (p s : string) :
  like (String "%" p) s = true ->
  exists before rest, s = before ++ rest /\ like p rest = true.
Proof.
  induction s as [|d s IH].
  - cbn. rewrite orb_false_r. intro H. exists "", "". auto.
  - rewrite like_percent. intro H. apply orb_true_iff in H. destruct H as [H|H].
    + exists "", (String d s). auto.
    + destruct (IH H) as (before & rest & -> & Hrest).
      exists (String d before), rest. auto.
Qed.

Lemma like_literal_split (t : string) :
  literal t = true ->
  forall s, like (t ++ "%") s = true ->
            exists inside after, s = inside ++ after /\ ci_equal t inside = true.
Proof.
  unfold literal. induction t as [|c t IH]; intros Hlit s H.
  - exists "", s. auto.
  - cbn [all_chars] in Hlit. apply andb_true_iff in Hlit. destruct Hlit as [Hc Hlit].
    apply negb_true_iff, orb_false_iff in Hc. destruct Hc as [Hpct Hund].
    cbn [append like] in H. rewrite Hpct, Hund in H.
    destruct s as [|d s]; [discriminate H|].
    cbn [orb] in H. apply andb_true_iff in H. destruct H as [Hcd H].
    destruct (IH Hlit s H) as (inside & after & -> & Heq).
    exists (String d inside), after. split; [reflexivity|].
    cbn [ci_equal]. rewrite Hcd, Heq. reflexivity.
Qed.

(** for a title without wildcards the pattern of the lookup is a test for
    a substring, up to case *)
Lemma title_matches_literal (series_title : string) (r : Z * Series) :
  literal series_title = true ->
  title_matches series_title r = true
  <-> exists stored, Series_title (snd r) = Some stored /\ occurs_in series_title stored.
Proof.
  intro Hlit. split.
  - unfold title_matches, ilike. destruct (Series_title (snd r)) as [stored|]; [|discriminate].
    change ("%" ++ series_title ++ "%") with (String "%" (series_title ++ "%")).
    intro H. apply like_percent_split in H. destruct H as (before & rest & -> & H).
    apply (like_literal_split _ Hlit) in H. destruct H as (inside & after & -> & Heq).
    exists (before ++ inside ++ after). split; [reflexivity|].
    exists before, inside, after. auto.
  - intros (stored & Hs & before & inside & after & -> & Heq).
    eapply title_matches_substring; eassumption.
Qed.

Lemma find_last {A : Type} (f : A -> bool) (l : list A) (x : A) :
  find f l = None -> find f (l ++ [x]) = if f x then Some x else None.
Proof.
  induction l as [|y l IH]; cbn [find app]; [reflexivity|].
  destruct (f y); [discriminate|exact IH].
Qed.




(** *** A cross-reference that already exists *)

Lemma get_or_create_source_found (name url : string) (w : world) (s : Z * Source) :
  pending w = [] ->
  hd false (db_faults w) = false ->
  source_named name (session w) = Some s ->
  get_or_create_source name url w = (Ok s, tick w).
Proof.
  intros Hp Hf Hs. unfold get_or_create_source. apply try_except_run.
  unfold bind. rewrite (db_query_run _ w Hp), Hf, Hs. reflexivity.
Qed.

Lemma rows_with_triple_exists (source_id : Z) (entity_type external_id : string)
  (entity_id : Z) (t : tables) :
  rows_with_triple source_id entity_type external_id t <> 0%nat ->
  existsb (fun r => same_triple (snd r)
                      {| SourceXref_source_id := source_id;
                         SourceXref_entity_type := entity_type;
                         SourceXref_entity_id := entity_id;
                         SourceXref_external_id := external_id |})
          (source_xref t) = true.
Proof.
  unfold rows_with_triple, same_triple. cbn [SourceXref_source_id
    SourceXref_entity_type SourceXref_external_id].
  induction (source_xref t) as [|r l IH]; cbn [filter existsb List.length].
  - congruence.
  - destruct (_ && _); cbn; auto.
Qed.

Lemma rollback_after (e : exn) (w : world) :
  is_SQLAlchemyError e = true ->
  exists h, on_db_error (@None (Z * Series)) e = Some h
            /\ h w = (Ok None, with_session (db_faults w) (durable w) (durable w) [] w).
Proof.
  intro He. unfold on_db_error. rewrite He. eexists. split; [reflexivity|]. reflexivity.
Qed.

(** C4, as the code has it. When the series step is about to link a new
    Series to a catalog volume whose triple (source, 'series', external id)
    is already taken, the insert of the cross-reference is refused; the step
    catches the error, rolls back the Series row it had flushed and returns
    nothing. The tables are what they were, so exactly one row holds the
    triple; the existing row is not read again and the reconciliation is
    given up. *)
Theorem conflicting_series_link_is_abandoned (series_title : string) (w wv : world)
  (volumes cv_volume volume_id : pyval) (x : Series) (external_id : string)
  (cv_source : Z * Source) :
  pending w = [] ->
  fault_free w ->
  session w = durable w ->
  existing_series series_title (session w) = None ->
  search_comicvine_volume series_title w = (Ok volumes, wv) ->
  truthy volumes = true ->
  value_of (py_index0 volumes) cv_volume ->
  value_of (series_of cv_volume series_title) x ->
  value_of (py_getitem cv_volume "id") volume_id ->
  value_of (py_str volume_id) external_id ->
  source_named "Comic Vine" (session w) = Some cv_source ->
  rows_with_triple (fst cv_source) "series" external_id (durable w) = 1%nat ->
  let r := _get_or_create_series_from_comicvine series_title w in
  fst r = Ok None
  /\ durable (snd r) = durable w
  /\ session (snd r) = durable w
  /\ pending (snd r) = []
  /\ rows_with_triple (fst cv_source) "series" external_id (durable (snd r)) = 1%nat.
Proof.
  intros Hp Hff Hsd Hnone Hsearch Htruthy Hidx Hx Hvid Hext Hsrc Hrows. cbv zeta.
  assert (Hdb : same_db w wv).
  { pose proof (keeps_db_search_comicvine_volume series_title w) as K.
    rewrite Hsearch in K. exact K. }
  destruct Hdb as (Hf & Hd & Hss & Hpp). unfold fault_free in Hff.
  assert (Hrun : exists w',
             _get_or_create_series_from_comicvine series_title w = (Ok None, w')
             /\ durable w' = durable w /\ session w' = durable w /\ pending w' = []).
  { unfold _get_or_create_series_from_comicvine.
    unfold bind at 1. rewrite (db_query_run _ w Hp), Hff. cbn [hd].
    rewrite Hnone, (tick_fault_free w Hff).
    rewrite (bind_run _ _ _ _ _ Hsearch), Htruthy. cbn [negb].
    rewrite (bind_run _ _ _ _ _ (Hidx wv)).
    unfold try_except.
    rewrite (bind_run _ _ _ _ _ (Hx wv)).
    rewrite (bind_run _ _ _ _ _ (db_add_run _ wv)).
    unfold bind at 1. rewrite (db_flush_one (NewSeries x));
      [|simpl_world; rewrite Hpp, Hp; reflexivity].
    simpl_world. rewrite Hf, Hff. cbn [hd tl].
    destruct (insert (NewSeries x) (session wv)) as [[i t]|] eqn:Hins.
    2:{ destruct (rollback_after IntegrityError
                    (tick (with_session [] (durable wv) (session wv)
                             (pending wv ++ [NewSeries x])%list wv)) eq_refl)
          as (h & -> & ->).
        eexists. split; [reflexivity|]. simpl_world. auto. }
    apply insert_series in Hins. destruct Hins as (_ & _ & _ & I1 & _ & I2 & _).
    unfold bind at 1.
    rewrite (get_or_create_source_found _ _ _ cv_source);
      [|reflexivity|reflexivity|simpl_world; unfold source_named in *; congruence].
    rewrite (bind_run _ _ _ _ _ (Hvid _)).
    rewrite (bind_run _ _ _ _ _ (Hext _)).
    rewrite (bind_run _ _ _ _ _ (db_add_run _ _)).
    unfold bind at 1. rewrite (db_commit_one (NewSourceXref
        {| SourceXref_source_id := fst cv_source; SourceXref_entity_type := "series";
           SourceXref_entity_id := new_id [i]; SourceXref_external_id := external_id |}));
      [|reflexivity].
    simpl_world. cbn [insert].
    rewrite I2, Hss, Hsd, rows_with_triple_exists by (rewrite Hrows; discriminate).
    cbn [hd tl].
    eexists. split; [reflexivity|]. simpl_world. auto. }
  destruct Hrun as (w' & -> & D & S & P). cbn [fst snd].
  rewrite D. auto.
Qed.

Example conflicting_series_link_is_abandoned_witness :
  let w1 := snd (_get_or_create_series_from_comicvine "Spiderman" (fresh spider_searches [])) in
  let r := _get_or_create_series_from_comicvine "Spidey" w1 in
  fst r = Ok None
  /\ durable (snd r) = durable w1
  /\ session (snd r) = durable w1
  /\ pending (snd r) = []
  /\ rows_with_triple 1 "series" "4050" (durable (snd r)) = 1%nat.
Proof.
  cbv zeta.
  eapply (conflicting_series_link_is_abandoned "Spidey" _ _
            (PList [spider_volume]) spider_volume (PInt 4050) _ "4050"
            (1, {| Source_name := "Comic Vine";
                   Source_url := "https://comicvine.gamespot.com" |}));
    try (intro w; reflexivity); vm_compute; reflexivity.
Defined.

(** C4, as the claim has it, fails: a first reconciliation links the Series
    it creates to volume 4050; a second one, for a title that the local
    lookup does not match and the catalog resolves to the same volume, meets
    the conflict and returns nothing, although the linked Series is there to
    be read. One row holds the triple, before and after. *)
Example conflicting_link_not_recovered :
  let w1 := snd (_get_or_create_series_from_comicvine "Spiderman" (fresh spider_searches [])) in
  let r := _get_or_create_series_from_comicvine "Spidey" w1 in
  rows_with_triple 1 "series" "4050" (durable w1) = 1%nat
  /\ xref_of 1 "series" 1 (durable w1) <> None
  /\ find_by_id 1 (series (durable w1)) = Some spider_series
  /\ fst r = Ok None
  /\ ~ (exists s, fst r = Ok (Some s))
  /\ rows_with_triple 1 "series" "4050" (durable (snd r)) = 1%nat.
Proof.
  vm_compute. repeat split; try discriminate.
  intros (s & H). discriminate H.
Qed.

(** *** Series, Issue and their cross-references *)

(** C2, where the code departs from it. On a database that has no
    "Comic Vine" Source row yet, [get_or_create_source] commits in the middle
    of the series sub-step, and with it the Series row that was only flushed.
    When the insert of the cross-reference then fails (here the 8th
    statement), the rollback has nothing left to undo: the Series stays,
    without a SourceXref. The same happens without any fault when the
    candidate has no [id]. With the Source row in place beforehand the same
    fault rolls the Series back, and the issue sub-step, which resolves the
    Source before it writes, rolls back as a whole. *)
Theorem series_outlives_failed_link :
  (let r := get_or_create_issue_from_comicvine "Spiderman" "1"
              (fresh spider_catalog (fails_at 8)) in
   fst r = Ok None
   /\ series (durable (snd r)) = [spider_series]
   /\ source_xref (durable (snd r)) = [])
  /\ (let r := get_or_create_issue_from_comicvine "Spiderman" "1"
                 (fresh anonymous_catalog []) in
      fst r = Ok None
      /\ series (durable (snd r)) = [spider_series]
      /\ source_xref (durable (snd r)) = [])
  /\ (let w := snd (get_or_create_source "Comic Vine" comicvine_url
                      (fresh spider_catalog (fails_at 9))) in
      let r := get_or_create_issue_from_comicvine "Spiderman" "1" w in
      source_named "Comic Vine" (durable w) <> None
      /\ fst r = Ok None
      /\ series (durable (snd r)) = []
      /\ source_xref (durable (snd r)) = [])
  /\ (let r := get_or_create_issue_from_comicvine "Spiderman" "1"
                 (fresh spider_catalog (fails_at 13)) in
      fst r = Ok None
      /\ issue (durable (snd r)) = []
      /\ List.length (source_xref (durable (snd r))) = 1%nat).
Proof. vm_compute. repeat split. discriminate. Qed.

(* ------------------------------------------------------------------ *)
(** ** Pricing ingestion *)

(** C3, where the code departs from it. The valuation sub-flow resolves
    its Source and looks up the cross-reference before its [try] begins.
    Here the insert of the "GoCollect" Source row fails (the 2nd statement):
    [get_or_create_source] rolls back and raises again, nothing catches the
    error, [update_pricing_for_issue] raises it, and the listings sub-flow
    never runs, although listings were there to fetch. The listings
    sub-flow resolves its Source inside its [try]: the same fault there
    (the 7th statement) is contained. *)
Theorem valuation_source_error_escapes :
  (let w := reconciled [ebay_reply [listing_full; listing_bare]] (fails_at 2) in
   let r := update_pricing_for_issue spider_issue_row 8.0%float w in
   fst r = Raise OperationalError
   /\ sent (snd r) = sent w
   /\ wire (snd r) = [ebay_reply [listing_full; listing_bare]]
   /\ market_listing (durable (snd r)) = [])
  /\ (let w := reconciled [ebay_reply [listing_full; listing_bare]] (fails_at 7) in
      let r := update_pricing_for_issue spider_issue_row 8.0%float w in
      fst r = Ok tt
      /\ wire (snd r) = []
      /\ market_listing (durable (snd r)) = []).
Proof. vm_compute. repeat split. Qed.

(** *** The listings sub-flow *)

Lemma world_eta (w : world) :
  with_session (db_faults w) (durable w) (session w) (pending w) w = w.
Proof. destruct w. reflexivity. Qed.

Lemma listing_of_run (snapshot_id : Z) (item : pyval) (w : world) :
  is_record item = true ->
  listing_of snapshot_id item w = (Ok (listing_row snapshot_id item), w).
Proof.
  unfold is_record, listing_of, listing_row, field, price_info.
  destruct item as [| | | | |l|kv]; try discriminate.
  cbn [py_get]. destruct (assoc "price" kv) as [[| | | | |l|pkv]|]; try discriminate;
    intros _; reflexivity.
Qed.

Lemma add_listings_run (snapshot_id : Z) (items : list pyval) :
  forallb is_record items = true ->
  forall w,
    add_listings snapshot_id items w
    = (Ok tt,
       with_session (db_faults w) (durable w) (session w)
         (pending w ++ map (fun item => NewMarketListing (listing_row snapshot_id item)) items)%list
         w).
Proof.
  induction items as [|item rest IH]; intros Hrec w.
  - cbn [add_listings map]. rewrite app_nil_r, world_eta. reflexivity.
  - cbn [forallb] in Hrec. apply andb_true_iff in Hrec. destruct Hrec as [Hitem Hrest].
    cbn [add_listings].
    rewrite (bind_run _ _ _ _ _ (listing_of_run snapshot_id item w Hitem)).
    rewrite (bind_run _ _ _ _ _ (db_add_run _ w)).
    rewrite (IH Hrest). simpl_world. cbn [map]. rewrite <- app_assoc. reflexivity.
Qed.

Lemma max_id_nonneg {A : Type} (t : table A) : 0 <= max_id t.
Proof. unfold max_id. induction t as [|r t IH]; cbn [fold_right]; lia. Qed.

Lemma max_id_app {A : Type} (a b : table A) :
  max_id (a ++ b)%list = Z.max (max_id a) (max_id b).
Proof.
  unfold max_id. induction a as [|r a IH]; cbn [app fold_right].
  - pose proof (max_id_nonneg b) as H. unfold max_id in H. lia.
  - rewrite IH. lia.
Qed.

Lemma next_id_snoc {A : Type} (t : table A) (x : A) :
  next_id (t ++ [(next_id t, x)])%list = next_id t + 1.
Proof.
  unfold next_id. rewrite max_id_app. unfold max_id at 2. cbn [fold_right fst].
  pose proof (max_id_nonneg t). lia.
Qed.

Lemma insert_market_listing (x : MarketListing) (t : tables) :
  is_none (MarketListing_listing_id x) || is_none (MarketListing_title x) = false ->
  insert (NewMarketListing x) t
  = Some (next_id (market_listing t), with_listings t [x]).
Proof. intro H. cbn [insert]. rewrite H. reflexivity. Qed.

Lemma with_listings_nil (t : tables) : with_listings t [] = t.
Proof. unfold with_listings. cbn [numbered]. rewrite app_nil_r. destruct t. reflexivity. Qed.

Lemma with_listings_cons (t : tables) (x : MarketListing) (rest : list MarketListing) :
  with_listings (with_listings t [x]) rest = with_listings t (x :: rest).
Proof.
  unfold with_listings. cbn [market_listing source series issue source_xref
    price_snapshot graded_price numbered].
  rewrite next_id_snoc, <- app_assoc. reflexivity.
Qed.

(** flushing a queue of listing rows that all have an id and a title *)
Lemma flush_listings (rows : list MarketListing) :
  forallb (fun x => negb (is_none (MarketListing_listing_id x)
                          || is_none (MarketListing_title x))) rows = true ->
  forall w,
    fault_free w ->
    pending w = map NewMarketListing rows ->
    exists ids,
      flush_objs (map NewMarketListing rows) w
      = (Ok ids, with_session [] (durable w) (with_listings (session w) rows) [] w).
Proof.
  induction rows as [|x rest IH]; intros Hrows w Hff Hp.
  - exists []. cbn [map flush_objs]. unfold ret.
    rewrite with_listings_nil. rewrite <- Hff. cbn [map] in Hp. rewrite <- Hp.
    rewrite world_eta. reflexivity.
  - cbn [forallb] in Hrows. apply andb_true_iff in Hrows. destruct Hrows as [Hx Hrest].
    apply negb_true_iff in Hx. unfold fault_free in Hff.
    cbn [map flush_objs]. unfold bind at 1. rewrite db_roundtrip_run, Hff. cbn [hd tl].
    unfold bind at 1. unfold db_insert. simpl_world.
    rewrite (insert_market_listing x (session w) Hx), Hp. cbn [map tl].
    set (w1 := set_db (durable w) (with_listings (session w) [x])
                 (map NewMarketListing rest) (tick w)).
    assert (Hff1 : fault_free w1).
    { unfold fault_free, w1. simpl_world. rewrite Hff. reflexivity. }
    destruct (IH Hrest w1 Hff1 eq_refl) as (ids & Hids).
    unfold bind. rewrite Hids. unfold w1. simpl_world. rewrite with_listings_cons.
    eexists. reflexivity.
Qed.

Lemma source_named_none (name : string) (t : tables) :
  source_named name t = None ->
  existsb (fun r => String.eqb (Source_name (snd r)) name) (source t) = false.
Proof.
  unfold source_named. induction (source t) as [|r l IH]; cbn [find existsb]; [reflexivity|].
  destruct (String.eqb (Source_name (snd r)) name); [discriminate|exact IH].
Qed.

(** without faults the Source is always resolved *)
Lemma get_or_create_source_run (name url : string) (w : world) :
  pending w = [] ->
  fault_free w ->
  exists s w', get_or_create_source name url w = (Ok s, w')
               /\ fault_free w' /\ pending w' = [].
Proof.
  intros Hp Hff. unfold fault_free in Hff.
  assert (Hf0 : hd false (db_faults w) = false) by (rewrite Hff; reflexivity).
  destruct (source_named name (session w)) as [s|] eqn:Hs.
  - exists s, (tick w). split; [apply get_or_create_source_found; assumption|].
    unfold fault_free. simpl_world. rewrite Hff, Hp. auto.
  - pose proof (source_named_none _ _ Hs) as Hex.
    eexists. eexists. split.
    + unfold get_or_create_source. apply try_except_run.
      unfold bind at 1. rewrite (db_query_run _ w Hp), Hf0, Hs.
      rewrite (bind_run _ _ _ _ _ (db_add_run _ _)).
      unfold bind at 1.
      rewrite (db_commit_one (NewSource {| Source_name := name; Source_url := url |}))
        by (simpl_world; rewrite Hp; reflexivity).
      simpl_world. rewrite Hff. cbn [hd tl insert Source_name]. rewrite Hex.
      unfold bind, db_refresh. rewrite db_roundtrip_run. simpl_world. reflexivity.
    + unfold fault_free. simpl_world. auto.
Qed.

Lemma identified_rows (snapshot_id : Z) (items : list pyval) :
  forallb identified items = true ->
  forallb (fun x => negb (is_none (MarketListing_listing_id x)
                          || is_none (MarketListing_title x)))
          (map (listing_row snapshot_id) items) = true.
Proof.
  induction items as [|item rest IH]; cbn [forallb map]; [reflexivity|].
  intro H. apply andb_true_iff in H. destruct H as [Hitem Hrest].
  rewrite (IH Hrest), andb_true_r.
  unfold identified in Hitem. cbn [listing_row MarketListing_listing_id MarketListing_title].
  rewrite negb_orb. exact Hitem.
Qed.




(** A listing whose price is null stops the whole write as well. When one
    item of the listings result carries ["price": null], reading the price
    fields raises an AttributeError after the snapshot has been flushed; the
    sub-flow catches it and rolls back, so that neither the snapshot nor any
    listing row is stored, not even the rows of the complete items before
    it, and the call returns normally. *)
Example unpriced_listing_is_not_stored :
  let w := reconciled [ebay_reply [listing_full; listing_unpriced]] [] in
  let r := _update_ebay_listings spider_issue_row w in
  is_record listing_unpriced = false
  /\ identified listing_unpriced = true
  /\ fst (listing_of 1 listing_unpriced w) = Raise AttributeError
  /\ fst r = Ok tt
  /\ wire (snd r) = []
  /\ price_snapshot (durable (snd r)) = price_snapshot (durable w)
  /\ market_listing (durable (snd r)) = market_listing (durable w)
  /\ clean (snd r).
Proof. vm_compute. repeat split. Qed.

(** *** The valuation sub-flow *)

(** One run, for a fair market value of 150 at grade 8.0: the GradedPrice
    row holds the value as received and the binary64 product of its float
    by 0.8; the rounding to two decimals is the column type's. *)
Example valuation_of_150 :
  let w0 := reconciled [Response 200 (PDict [("value", PInt 150)])] [] in
  let gocollect := snd (get_or_create_source "GoCollect" "https://gocollect.com" w0) in
  let linked := snd (bind (db_add (NewSourceXref
                        {| SourceXref_source_id := 2; SourceXref_entity_type := "issue";
                           SourceXref_entity_id := 1; SourceXref_external_id := "93358" |}))
                      (fun _ => db_commit) gocollect) in
  let r := _update_gocollect_pricing spider_issue_row (format_1f 8.0%float) linked in
  fst r = Ok tt
  /\ graded_price (durable (snd r))
     = [(1, {| GradedPrice_snapshot_id := 1; GradedPrice_grade_label := "8.0";
               GradedPrice_fmv_usd := PInt 150;
               GradedPrice_conservative_value_usd := PFloat 120%float |})].
Proof. vm_compute. repeat split. Qed.

(* ------------------------------------------------------------------ *)
(** ** A program logic for the runs *)

Section Hoare.

Context {A B : Type}.

Lemma hoare_conseq (P P' : world -> Prop) (m : M A) (Q Q' : result A -> world -> Prop) :
  hoare P' m Q' -> (forall w, P w -> P' w) -> (forall r w, Q' r w -> Q r w) ->
  hoare P m Q.
Proof. intros H HP HQ w Hw. apply HQ, H, HP, Hw. Qed.

Lemma hoare_ret (P : world -> Prop) (a : A) (Q : result A -> world -> Prop) :
  (forall w, P w -> Q (Ok a) w) -> hoare P (ret a) Q.
Proof. intros H w Hw. apply H, Hw. Qed.

Lemma hoare_raise (P : world -> Prop) (e : exn) (Q : result A -> world -> Prop) :
  (forall w, P w -> Q (Raise e) w) -> hoare P (raise e) Q.
Proof. intros H w Hw. apply H, Hw. Qed.

Lemma hoare_bind (P : world -> Prop) (R : A -> world -> Prop) (m : M A) (k : A -> M B)
  (Q : result B -> world -> Prop) :
  hoare P m (fun r w => match r with Ok a => R a w | Raise e => Q (Raise e) w end) ->
  (forall a, hoare (R a) (k a) Q) ->
  hoare P (bind m k) Q.
Proof.
  intros Hm Hk w Hw. specialize (Hm w Hw). unfold bind.
  destruct (m w) as [[a|e] w1]; cbn [fst snd] in Hm.
  - apply Hk, Hm.
  - exact Hm.
Qed.

Lemma hoare_try_except (P : world -> Prop) (R : exn -> world -> Prop) (m : M A)
  (handlers : exn -> option (M A)) (Q : result A -> world -> Prop) :
  hoare P m (fun r w => match r with
                        | Ok a => Q (Ok a) w
                        | Raise e => match handlers e with
                                     | Some _ => R e w
                                     | None => Q (Raise e) w
                                     end
                        end) ->
  (forall e h, handlers e = Some h -> hoare (R e) h Q) ->
  hoare P (try_except m handlers) Q.
Proof.
  intros Hm Hh w Hw. specialize (Hm w Hw). unfold try_except.
  destruct (m w) as [[a|e] w1]; cbn [fst snd] in Hm.
  - exact Hm.
  - destruct (handlers e) as [h|] eqn:E.
    + apply (Hh e h E), Hm.
    + exact Hm.
Qed.

End Hoare.

(** *** Invariants of the session *)

Section Keeps.

Context {A B : Type} (I : world -> Prop).

Lemma keeps_ret (a : A) : keeps I (ret a).
Proof. intros w Hw. exact Hw. Qed.

Lemma keeps_raise (e : exn) : keeps I (@raise A e).
Proof. intros w Hw. exact Hw. Qed.

Lemma keeps_gets (f : world -> A) : keeps I (gets f).
Proof. intros w Hw. exact Hw. Qed.

Lemma keeps_bind (m : M A) (k : A -> M B) :
  keeps I m -> (forall a, keeps I (k a)) -> keeps I (bind m k).
Proof.
  intros Hm Hk. unfold keeps in *. apply (hoare_bind I (fun _ => I)); [|exact Hk].
  intros w Hw. specialize (Hm w Hw). destruct (fst (m w)); exact Hm.
Qed.

Lemma keeps_try_except (m : M A) (handlers : exn -> option (M A)) :
  keeps I m -> (forall e h, handlers e = Some h -> keeps I h) ->
  keeps I (try_except m handlers).
Proof.
  intros Hm Hh. unfold keeps in *. apply (hoare_try_except I (fun _ => I)); [|exact Hh].
  intros w Hw. specialize (Hm w Hw).
  destruct (fst (m w)) as [a|e]; [exact Hm|]. destruct (handlers e); exact Hm.
Qed.

End Keeps.

Lemma keeps_of_keeps_db {A : Type} (J : tables -> Prop) (m : M A) :
  keeps_db m -> keeps (in_both J) m.
Proof.
  intros Hm w [Hs Hd]. destruct (Hm w) as (_ & Ed & Es & _).
  unfold in_both. rewrite Es, Ed. auto.
Qed.

Lemma keeps_of_pure {A : Type} (I : world -> Prop) (m : M A) : pure m -> keeps I m.
Proof. intros Hm w Hw. rewrite Hm. exact Hw. Qed.

(** Walks down a computation for an invariant. *)
Ltac stable :=
  repeat first
    [ progress intros
    | solve [auto with stable]
    | apply keeps_ret | apply keeps_raise | apply keeps_gets
    | solve [apply keeps_of_pure; frame]
    | apply keeps_bind | apply keeps_try_except
    | match goal with
      | |- keeps _ (match ?x with _ => _ end) => destruct x
      | H : (if ?c then _ else _) = Some _ |- _ => destruct c; inversion H; subst; clear H
      | H : None = Some _ |- _ => discriminate H
      | H : Some _ = Some _ |- _ => inversion H; subst; clear H
      | H : match ?e with _ => _ end = Some _ |- _ => destruct e
      | H : on_db_error _ _ = Some _ |- _ => unfold on_db_error in H
      | H : on_any_error _ = Some _ |- _ => unfold on_any_error in H
      end ].

Create HintDb stable.

Section Invariants.

Variable J : tables -> Prop.
Hypothesis J_insert : kept_by_insert J.

Lemma keeps_db_roundtrip : keeps (in_both J) db_roundtrip.
Proof. intros w Hw. exact Hw. Qed.

Lemma keeps_db_add o : keeps (in_both J) (db_add o).
Proof. intros w Hw. exact Hw. Qed.

Lemma keeps_db_insert o : keeps (in_both J) (db_insert o).
Proof.
  intros w [Hs Hd]. unfold db_insert.
  destruct (insert o (session w)) as [[i t]|] eqn:E; cbn [fst snd].
  - split; [exact (J_insert _ _ _ _ Hs E)|exact Hd].
  - split; assumption.
Qed.

#[local] Hint Resolve keeps_db_roundtrip keeps_db_add keeps_db_insert : stable.

Lemma keeps_flush_objs os : keeps (in_both J) (flush_objs os).
Proof. induction os as [|o rest IH]; cbn [flush_objs]; stable. Qed.

#[local] Hint Resolve keeps_flush_objs : stable.

Lemma keeps_db_flush : keeps (in_both J) db_flush.
Proof. unfold db_flush. stable. Qed.

#[local] Hint Resolve keeps_db_flush : stable.

Lemma keeps_db_commit : keeps (in_both J) db_commit.
Proof.
  unfold db_commit. stable.
  intros w [Hs Hd]. split; exact Hs.
Qed.

Lemma keeps_db_rollback : keeps (in_both J) db_rollback.
Proof. intros w [Hs Hd]. split; exact Hd. Qed.

Lemma keeps_db_query {A : Type} (select : tables -> A) : keeps (in_both J) (db_query select).
Proof. unfold db_query. stable. Qed.

Lemma keeps_db_refresh : keeps (in_both J) db_refresh.
Proof. exact keeps_db_roundtrip. Qed.

#[local] Hint Resolve keeps_db_commit keeps_db_rollback keeps_db_query keeps_db_refresh
  : stable.

Lemma keeps_get_or_create_source n u : keeps (in_both J) (get_or_create_source n u).
Proof. unfold get_or_create_source. stable. Qed.

Lemma keeps_search_comicvine_volume t : keeps (in_both J) (search_comicvine_volume t).
Proof. apply keeps_of_keeps_db, keeps_db_search_comicvine_volume. Qed.

Lemma keeps_get_comicvine_issues_for_volume v :
  keeps (in_both J) (get_comicvine_issues_for_volume v).
Proof. apply keeps_of_keeps_db, keeps_db_get_comicvine_issues_for_volume. Qed.

Lemma keeps_search_ebay_listings q : keeps (in_both J) (search_ebay_listings q).
Proof. apply keeps_of_keeps_db, keeps_db_search_ebay_listings. Qed.

Lemma keeps_get_gocollect_pricing c g : keeps (in_both J) (get_gocollect_pricing c g).
Proof. apply keeps_of_keeps_db, keeps_db_get_gocollect_pricing. Qed.

#[local] Hint Resolve keeps_get_or_create_source keeps_search_comicvine_volume
  keeps_get_comicvine_issues_for_volume keeps_search_ebay_listings
  keeps_get_gocollect_pricing : stable.

Lemma keeps_series_step t : keeps (in_both J) (_get_or_create_series_from_comicvine t).
Proof. unfold _get_or_create_series_from_comicvine. stable. Qed.

Lemma keeps_issue_step s n : keeps (in_both J) (_get_or_create_issue_for_series s n).
Proof. unfold _get_or_create_issue_for_series. stable. Qed.

#[local] Hint Resolve keeps_series_step keeps_issue_step : stable.

Lemma keeps_reconcile t n : keeps (in_both J) (get_or_create_issue_from_comicvine t n).
Proof. unfold get_or_create_issue_from_comicvine. stable. Qed.

Lemma keeps_issue_series_title i : keeps (in_both J) (issue_series_title i).
Proof. unfold issue_series_title. stable. Qed.

#[local] Hint Resolve keeps_issue_series_title : stable.

Lemma keeps_update_gocollect_pricing i g : keeps (in_both J) (_update_gocollect_pricing i g).
Proof. unfold _update_gocollect_pricing. stable. Qed.

Lemma keeps_add_listings sid items : keeps (in_both J) (add_listings sid items).
Proof. induction items as [|item rest IH]; cbn [add_listings]; stable. Qed.

#[local] Hint Resolve keeps_add_listings : stable.

Lemma keeps_update_ebay_listings i : keeps (in_both J) (_update_ebay_listings i).
Proof. unfold _update_ebay_listings. stable. Qed.

#[local] Hint Resolve keeps_update_gocollect_pricing keeps_update_ebay_listings : stable.

Lemma keeps_update_pricing i g : keeps (in_both J) (update_pricing_for_issue i g).
Proof. unfold update_pricing_for_issue. stable. Qed.

End Invariants.

(** *** Transactions that are closed on return *)

Section Settles.

Context {A B : Type}.

Lemma settles_of_commits (m : M A) : commits m -> settles m.
Proof. intros H w _. apply H. exact Logic.I. Qed.

Lemma settles_ret (a : A) : settles (ret a).
Proof. intros w Hw. exact Hw. Qed.

Lemma settles_raise (e : exn) : settles (@raise A e).
Proof. intros w Hw. exact Logic.I. Qed.

Lemma commits_raise (e : exn) : commits (@raise A e).
Proof. intros w Hw. exact Logic.I. Qed.

Lemma settles_of_keeps_db (m : M A) : keeps_db m -> settles m.
Proof.
  intros Hm w [Hs Hp]. destruct (Hm w) as (_ & Ed & Es & Ep).
  destruct (fst (m w)); [|exact Logic.I]. split; congruence.
Qed.

Lemma settles_of_pure (m : M A) : pure m -> settles m.
Proof. intro Hm. apply settles_of_keeps_db, keeps_db_pure, Hm. Qed.

Lemma settles_bind (m : M A) (k : A -> M B) :
  settles m -> (forall a, settles (k a)) -> settles (bind m k).
Proof.
  intros Hm Hk. apply (hoare_bind clean (fun _ => clean)); [|exact Hk].
  intros w Hw. specialize (Hm w Hw). destruct (fst (m w)); exact Hm.
Qed.

Lemma commits_bind_skip (m : M A) (k : A -> M B) :
  (forall a, commits (k a)) -> commits (bind m k).
Proof.
  intros Hk. apply (hoare_bind (fun _ => True) (fun _ _ => True)); [|exact Hk].
  intros w _. destruct (fst (m w)); exact Logic.I.
Qed.

Lemma commits_bind_then (m : M A) (k : A -> M B) :
  commits m -> (forall a, settles (k a)) -> commits (bind m k).
Proof.
  intros Hm Hk. apply (hoare_bind (fun _ => True) (fun _ => clean)); [|exact Hk].
  intros w Hw. specialize (Hm w Hw). destruct (fst (m w)); exact Hm.
Qed.

Lemma settles_try_except (m : M A) (handlers : exn -> option (M A)) :
  settles m -> (forall e h, handlers e = Some h -> commits h) ->
  settles (try_except m handlers).
Proof.
  intros Hm Hh. apply (hoare_try_except clean (fun _ _ => True)); [|exact Hh].
  intros w Hw. specialize (Hm w Hw).
  destruct (fst (m w)) as [a|e]; [exact Hm|]. destruct (handlers e); exact Logic.I.
Qed.

Lemma commits_try_except (m : M A) (handlers : exn -> option (M A)) :
  commits m -> (forall e h, handlers e = Some h -> commits h) ->
  commits (try_except m handlers).
Proof.
  intros Hm Hh. apply (hoare_try_except (fun _ => True) (fun _ _ => True)); [|exact Hh].
  intros w Hw. specialize (Hm w Hw).
  destruct (fst (m w)) as [a|e]; [exact Hm|]. destruct (handlers e); exact Logic.I.
Qed.

End Settles.

Lemma flush_objs_pending (os : list obj) :
  forall w ids w', pending w = os -> flush_objs os w = (Ok ids, w') -> pending w' = [].
Proof.
  induction os as [|o rest IH]; intros w ids w' Hp H; cbn [flush_objs] in H.
  - inversion H; subst. exact Hp.
  - step H u w1 Hr. rewrite db_roundtrip_run in Hr.
    destruct (hd false (db_faults w)); inversion Hr; subst w1. clear Hr.
    step H i w2 Hi. unfold db_insert in Hi. simpl_world.
    destruct (insert o (session w)) as [[j t]|]; inversion Hi; subst w2. clear Hi.
    step H ids' w3 Hf. inversion H; subst.
    eapply IH; [|exact Hf]. simpl_world. rewrite Hp. reflexivity.
Qed.

Lemma commits_db_commit : commits db_commit.
Proof.
  intros w _. unfold closed_if_ok.
  destruct (db_commit w) as [[ids|e] w'] eqn:H; cbn [fst snd]; [|exact Logic.I].
  unfold db_commit in H. step H ids' w1 Hf. unfold db_flush in H.
  unfold db_flush in Hf. step Hf os w0 Hg. inversion Hg; subst. clear Hg.
  apply (flush_objs_pending _ _ _ _ eq_refl) in Hf.
  step H u w2 Hr. rewrite db_roundtrip_run in Hr.
  destruct (hd false (db_faults w1)); inversion Hr; subst w2. clear Hr.
  step H u' w3 Hm. inversion Hm; subst w3. inversion H; subst.
  split; simpl_world; [reflexivity|exact Hf].
Qed.

Lemma commits_db_rollback : commits db_rollback.
Proof. intros w _. split; reflexivity. Qed.

Lemma settles_db_roundtrip : settles db_roundtrip.
Proof.
  intros w Hw. rewrite db_roundtrip_run. cbn [fst snd].
  destruct (hd false (db_faults w)); [exact Logic.I|exact Hw].
Qed.

Lemma settles_db_query {A : Type} (select : tables -> A) : settles (db_query select).
Proof.
  intros w [Hs Hp]. rewrite (db_query_run select w Hp). cbn [fst snd].
  destruct (hd false (db_faults w)); [exact Logic.I|]. split; assumption.
Qed.

Create HintDb settle.
Create HintDb commit.
#[local] Hint Resolve commits_db_commit commits_db_rollback : commit.
#[local] Hint Resolve settles_db_roundtrip settles_db_query : settle.

(** Walks down a computation that must close its transaction: [settle]
    from a closed one, [commit] from any. *)
Ltac handler_cases :=
  match goal with
  | H : (if ?c then _ else _) = Some _ |- _ => destruct c; inversion H; subst; clear H
  | H : None = Some _ |- _ => discriminate H
  | H : Some _ = Some _ |- _ => inversion H; subst; clear H
  | H : match ?e with _ => _ end = Some _ |- _ => destruct e
  | H : on_db_error _ _ = Some _ |- _ => unfold on_db_error in H
  | H : on_any_error _ = Some _ |- _ => unfold on_any_error in H
  end.

Ltac commit :=
  repeat first
    [ progress intros
    | handler_cases
    | solve [auto with commit]
    | apply commits_raise
    | match goal with
      | |- commits (match ?x with _ => _ end) => destruct x
      end
    | apply commits_try_except
    | (apply commits_bind_then;
       [solve [auto with commit]
       |intros; solve [repeat first
           [ progress intros
           | solve [auto with settle]
           | apply settles_ret | apply settles_raise
           | solve [apply settles_of_pure; frame]
           | match goal with
             | |- settles (match ?x with _ => _ end) => destruct x
             end
           | apply settles_bind ]]])
    | apply commits_bind_skip ].

Ltac settle :=
  repeat first
    [ progress intros
    | handler_cases
    | solve [auto with settle]
    | apply settles_ret | apply settles_raise
    | solve [apply settles_of_pure; frame]
    | solve [apply settles_of_keeps_db; auto with frames]
    | match goal with
      | |- settles (match ?x with _ => _ end) => destruct x
      end
    | (apply settles_try_except; [|solve [commit]])
    | (apply settles_bind;
       [first [ solve [auto with settle]
              | solve [apply settles_of_pure; frame]
              | solve [apply settles_of_keeps_db; auto with frames] ]|])
    | solve [apply settles_of_commits; commit] ].

Lemma settles_get_or_create_source n u : settles (get_or_create_source n u).
Proof. unfold get_or_create_source. settle. Qed.

#[local] Hint Resolve settles_get_or_create_source : settle.

#[local] Hint Resolve keeps_db_search_comicvine_volume
  keeps_db_get_comicvine_issues_for_volume keeps_db_search_ebay_listings
  keeps_db_get_gocollect_pricing : frames.

Lemma settles_series_step t : settles (_get_or_create_series_from_comicvine t).
Proof. unfold _get_or_create_series_from_comicvine. settle. Qed.

Lemma settles_issue_step s n : settles (_get_or_create_issue_for_series s n).
Proof. unfold _get_or_create_issue_for_series. settle. Qed.

#[local] Hint Resolve settles_series_step settles_issue_step : settle.

Lemma settles_issue_series_title i : settles (issue_series_title i).
Proof. apply settles_of_pure. unfold issue_series_title. frame. Qed.

#[local] Hint Resolve settles_issue_series_title : settle.

Lemma settles_update_ebay_listings i : settles (_update_ebay_listings i).
Proof. unfold _update_ebay_listings. settle. Qed.

Lemma settles_update_gocollect_pricing i g : settles (_update_gocollect_pricing i g).
Proof. unfold _update_gocollect_pricing. settle. Qed.

(** *** Invariants that only some kinds of rows keep *)

Section Writes.

Variable allowed : obj -> bool.
Variable J : tables -> Prop.
Hypothesis J_insert :
  forall o t i t', allowed o = true -> J t -> insert o t = Some (i, t') -> J t'.

Lemma guarded_db_roundtrip : keeps (guarded allowed J) db_roundtrip.
Proof. intros w Hw. exact Hw. Qed.

Lemma guarded_db_add o : allowed o = true -> keeps (guarded allowed J) (db_add o).
Proof.
  intros Ho w (Hs & Hd & Hp). repeat split; try assumption.
  cbn. rewrite forallb_app, Hp. cbn. rewrite Ho. reflexivity.
Qed.

Lemma guarded_db_insert o : allowed o = true -> keeps (guarded allowed J) (db_insert o).
Proof.
  intros Ho w (Hs & Hd & Hp). unfold db_insert.
  destruct (insert o (session w)) as [[i t]|] eqn:E; cbn [fst snd].
  - repeat split; cbn; [exact (J_insert _ _ _ _ Ho Hs E)|exact Hd|].
    destruct (pending w) as [|x rest]; [reflexivity|].
    cbn in Hp. apply andb_true_iff in Hp. tauto.
  - repeat split; assumption.
Qed.

Lemma guarded_flush_objs os :
  forallb allowed os = true -> keeps (guarded allowed J) (flush_objs os).
Proof.
  induction os as [|o rest IH]; cbn [flush_objs forallb]; intro Hos.
  - apply keeps_ret.
  - apply andb_true_iff in Hos. destruct Hos as [Ho Hrest].
    apply keeps_bind; [apply guarded_db_roundtrip|intros _].
    apply keeps_bind; [apply guarded_db_insert, Ho|intros i].
    apply keeps_bind; [apply IH, Hrest|intros ids]. apply keeps_ret.
Qed.

Lemma guarded_db_flush : keeps (guarded allowed J) db_flush.
Proof.
  intros w Hw. unfold db_flush, bind, gets.
  apply guarded_flush_objs; [|exact Hw]. apply Hw.
Qed.

Lemma guarded_db_commit : keeps (guarded allowed J) db_commit.
Proof.
  unfold db_commit. apply keeps_bind; [apply guarded_db_flush|intros ids].
  apply keeps_bind; [apply guarded_db_roundtrip|intros _].
  apply keeps_bind; [|intros _; apply keeps_ret].
  intros w (Hs & Hd & Hp). repeat split; assumption.
Qed.

Lemma guarded_db_rollback : keeps (guarded allowed J) db_rollback.
Proof. intros w (Hs & Hd & Hp). repeat split; assumption. Qed.

Lemma guarded_db_query {A : Type} (select : tables -> A) :
  keeps (guarded allowed J) (db_query select).
Proof.
  unfold db_query. apply keeps_bind; [apply guarded_db_flush|intros ids].
  apply keeps_bind; [apply guarded_db_roundtrip|intros _]. apply keeps_gets.
Qed.

Lemma guarded_of_keeps_db {A : Type} (m : M A) : keeps_db m -> keeps (guarded allowed J) m.
Proof.
  intros Hm w (Hs & Hd & Hp). destruct (Hm w) as (_ & Ed & Es & Ep).
  unfold guarded. rewrite Es, Ed, Ep. auto.
Qed.

#[local] Hint Resolve guarded_db_roundtrip guarded_db_flush guarded_db_commit
  guarded_db_rollback guarded_db_query : stable.
#[local] Hint Extern 1 (keeps _ (db_add _)) =>
  apply guarded_db_add; auto : stable.
#[local] Hint Extern 1 (keeps _ db_refresh) => apply guarded_db_roundtrip : stable.
#[local] Hint Extern 2 (keeps _ _) =>
  apply guarded_of_keeps_db; solve [auto with frames] : stable.

Lemma guarded_get_or_create_source n u :
  (forall o, source_write o = true -> allowed o = true) ->
  keeps (guarded allowed J) (get_or_create_source n u).
Proof. intro Hsrc. unfold get_or_create_source. stable. Qed.

#[local] Hint Resolve guarded_get_or_create_source : stable.

Lemma guarded_reconcile t n :
  (forall o, catalog_write o = true -> allowed o = true) ->
  keeps (guarded allowed J) (get_or_create_issue_from_comicvine t n).
Proof.
  intro Hcat.
  assert (Hsrc : forall o, source_write o = true -> allowed o = true).
  { intros [] Ho; try discriminate. apply Hcat. reflexivity. }
  unfold get_or_create_issue_from_comicvine, _get_or_create_series_from_comicvine,
    _get_or_create_issue_for_series. stable.
Qed.

Lemma guarded_issue_series_title i : keeps (guarded allowed J) (issue_series_title i).
Proof. apply keeps_of_pure. unfold issue_series_title. frame. Qed.

#[local] Hint Resolve guarded_issue_series_title : stable.

Lemma guarded_add_listings sid items :
  (forall o, listing_write o = true -> allowed o = true) ->
  keeps (guarded allowed J) (add_listings sid items).
Proof.
  intro Hl. induction items as [|item rest IH]; cbn [add_listings]; stable.
Qed.

#[local] Hint Resolve guarded_add_listings : stable.

Lemma guarded_update_ebay_listings i :
  (forall o, listing_write o = true -> allowed o = true) ->
  keeps (guarded allowed J) (_update_ebay_listings i).
Proof.
  intro Hl.
  assert (Hsrc : forall o, source_write o = true -> allowed o = true).
  { intros [] Ho; try discriminate. apply Hl. reflexivity. }
  unfold _update_ebay_listings. stable.
Qed.

Lemma guarded_update_gocollect_pricing i g :
  (forall o, pricing_write o = true -> allowed o = true) ->
  keeps (guarded allowed J) (_update_gocollect_pricing i g).
Proof.
  intro Hpr.
  assert (Hsrc : forall o, source_write o = true -> allowed o = true).
  { intros [] Ho; try discriminate. apply Hpr. reflexivity. }
  unfold _update_gocollect_pricing. stable.
Qed.

Lemma guarded_update_pricing i g :
  (forall o, pricing_write o = true -> allowed o = true) ->
  keeps (guarded allowed J) (update_pricing_for_issue i g).
Proof.
  intro Hpr. unfold update_pricing_for_issue.
  apply keeps_bind; [apply guarded_update_gocollect_pricing, Hpr|intros _].
  apply guarded_update_ebay_listings.
  intros [] Ho; try discriminate; apply Hpr; reflexivity.
Qed.

End Writes.

(** *** The session primitives send nothing *)

Lemma offline_db_roundtrip : offline db_roundtrip.
Proof. intro w. reflexivity. Qed.

Lemma offline_db_add o : offline (db_add o).
Proof. intro w. reflexivity. Qed.

Lemma offline_db_insert o : offline (db_insert o).
Proof. intro w. unfold db_insert. destruct (insert o (session w)) as [[i t]|]; reflexivity. Qed.

#[local] Hint Resolve offline_db_roundtrip offline_db_add offline_db_insert : frames.

Lemma offline_flush_objs os : offline (flush_objs os).
Proof. induction os as [|o rest IH]; cbn [flush_objs]; frame. Qed.

#[local] Hint Resolve offline_flush_objs : frames.

Lemma offline_db_flush : offline db_flush.
Proof. unfold db_flush. frame. Qed.

#[local] Hint Resolve offline_db_flush : frames.

Lemma offline_db_commit : offline db_commit.
Proof. unfold db_commit. frame; intro w; reflexivity. Qed.

Lemma offline_db_rollback : offline db_rollback.
Proof. intro w. reflexivity. Qed.

Lemma offline_db_query {A : Type} (select : tables -> A) : offline (db_query select).
Proof. unfold db_query. frame. Qed.

#[local] Hint Resolve offline_db_commit offline_db_rollback offline_db_query : frames.

Lemma offline_get_or_create_source n u : offline (get_or_create_source n u).
Proof. unfold get_or_create_source. frame; apply offline_db_roundtrip. Qed.

(* ------------------------------------------------------------------ *)
(** ** The fetch layer: requests, waits and the cache *)

Lemma list_eqb_refl {A : Type} (eqb : A -> A -> bool) (l : list A) :
  (forall x, eqb x x = true) -> list_eqb eqb l l = true.
Proof.
  intro Hrefl. induction l as [|x l IH]; [reflexivity|].
  cbn. rewrite Hrefl, IH. reflexivity.
Qed.

Lemma cache_key_eqb_refl (k : cache_key) : cache_key_eqb k k = true.
Proof.
  destruct k as [u p|args]; cbn.
  - rewrite String.eqb_refl. cbn. apply list_eqb_refl.
    intro x. rewrite !String.eqb_refl. reflexivity.
  - apply list_eqb_refl, String.eqb_refl.
Qed.

Lemma lookup_after_store (key : cache_key) (data : pyval) (rest : list (cache_key * pyval)) :
  find (fun e => cache_key_eqb (fst e) key) ((key, data) :: rest) = Some (key, data).
Proof. cbn. rewrite cache_key_eqb_refl. reflexivity. Qed.

Section FetchTrace.

Variables (url : string) (params : items).

Let key := KeyRequest url (sorted params).

(** the world after a failed turn of the loop and its wait *)
Lemma turn_world (headers : items) (secs : Z) (w : world) :
  snd (time_sleep secs (snd (requests_get url params headers 15 w))) =
  {| environ := environ w; api_cache := api_cache w; wire := tl (wire w);
     sent := (sent w ++ [request_of url params headers])%list;
     slept := (slept w ++ [secs])%list; db_faults := db_faults w;
     durable := durable w; session := session w; pending := pending w |}.
Proof. unfold requests_get. destruct (wire w) as [|[|] ?]; reflexivity. Qed.

Lemma get_world (headers : items) (w : world) :
  snd (requests_get url params headers 15 w) =
  {| environ := environ w; api_cache := api_cache w; wire := tl (wire w);
     sent := (sent w ++ [request_of url params headers])%list;
     slept := slept w; db_faults := db_faults w;
     durable := durable w; session := session w; pending := pending w |}.
Proof. unfold requests_get. destruct (wire w) as [|[|] ?]; reflexivity. Qed.

Lemma skipn_tl {A : Type} (n : nat) (l : list A) : skipn n (tl l) = skipn (S n) l.
Proof. destruct l; [apply skipn_nil|reflexivity]. Qed.

(** What the loop does to the world, for the attempts that remain. *)
Lemma attempts_trace (headers : items) (remaining : list Z) :
  forall w,
    let r := attempts url params headers key remaining w in
    exists n k,
      (k <= n)%nat /\ (n <= S k)%nat /\ (n <= List.length remaining)%nat
      /\ (remaining <> [] -> (0 < n)%nat)
      /\ sent (snd r) = (sent w ++ repeat (request_of url params headers) n)%list
      /\ wire (snd r) = skipn n (wire w)
      /\ slept (snd r) = (slept w ++ firstn k (map (Z.pow 2) remaining))%list
      /\ environ (snd r) = environ w
      /\ same_db w (snd r)
      /\ match fst r with
         | Ok (Some data) =>
             api_cache (snd r)
             = (key, data)
               :: filter (fun e => negb (cache_key_eqb (fst e) key)) (api_cache w)
         | Ok None => api_cache (snd r) = api_cache w
         | Raise _ => False
         end.
Proof.
  induction remaining as [|attempt rest IH]; intro w; cbv zeta.
  - exists 0%nat, 0%nat. cbn. rewrite !app_nil_r. unfold same_db.
    repeat split; auto; try lia. congruence.
  - assert (Hnext : forall w2,
      w2 = snd (time_sleep (2 ^ attempt) (snd (requests_get url params headers 15 w))) ->
      let r := attempts url params headers key rest w2 in
      exists n k,
        (k <= n)%nat /\ (n <= S k)%nat /\ (n <= List.length (attempt :: rest))%nat
        /\ (attempt :: rest <> [] -> (0 < n)%nat)
        /\ sent (snd r) = (sent w ++ repeat (request_of url params headers) n)%list
        /\ wire (snd r) = skipn n (wire w)
        /\ slept (snd r)
           = (slept w ++ firstn k (map (Z.pow 2) (attempt :: rest)))%list
        /\ environ (snd r) = environ w
        /\ same_db w (snd r)
        /\ match fst r with
           | Ok (Some data) =>
               api_cache (snd r)
               = (key, data)
                 :: filter (fun e => negb (cache_key_eqb (fst e) key)) (api_cache w)
           | Ok None => api_cache (snd r) = api_cache w
           | Raise _ => False
           end).
    { intros w2 Hw2. rewrite turn_world in Hw2. cbv zeta.
      destruct (IH w2) as (n & k & Hkn & Hnk & Hn & _ & Hsent & Hwire & Hslept & Henv
                           & Hdb & Hcache).
      exists (S n), (S k). subst w2. cbn [sent wire slept environ api_cache] in *.
      unfold same_db in *. cbn [db_faults durable session pending] in *.
      repeat split; try lia; try tauto.
      - cbn [List.length]. lia.
      - rewrite Hsent, <- app_assoc. reflexivity.
      - rewrite Hwire. apply skipn_tl.
      - rewrite Hslept, <- app_assoc. reflexivity. }
    rewrite attempts_step. cbv zeta.
    assert (Hone : forall out,
      exists n k,
        (k <= n)%nat /\ (n <= S k)%nat /\ (n <= List.length (attempt :: rest))%nat
        /\ (attempt :: rest <> [] -> (0 < n)%nat)
        /\ sent (snd (requests_get url params headers 15 w))
           = (sent w ++ repeat (request_of url params headers) n)%list
        /\ wire (snd (requests_get url params headers 15 w)) = skipn n (wire w)
        /\ slept (snd (requests_get url params headers 15 w))
           = (slept w ++ firstn k (map (Z.pow 2) (attempt :: rest)))%list
        /\ environ (snd (requests_get url params headers 15 w)) = environ w
        /\ same_db w (snd (requests_get url params headers 15 w))
        /\ (out = true ->
            api_cache (snd (requests_get url params headers 15 w)) = api_cache w)).
    { intro out. exists 1%nat, 0%nat. rewrite get_world. cbn. rewrite app_nil_r.
      unfold same_db. cbn. repeat split; auto; lia. }
    destruct (reply_at w 0) as [status_code json|].
    + destruct ((400 <=? status_code) && (status_code <? 600)).
      * destruct (existsb (Z.eqb status_code) [401; 403; 404]).
        -- destruct (Hone true) as (n & k & H). exists n, k. cbn [fst snd].
           intuition.
        -- apply Hnext. reflexivity.
      * destruct (Hone true) as (n & k & H1 & H2 & H3 & H4 & H5 & H6 & H7 & H8 & H9 & H10).
        exists n, k. cbn [fst snd cache_store modify sent wire slept environ api_cache].
        unfold same_db in *. cbn [db_faults durable session pending].
        rewrite (H10 eq_refl). repeat split; auto; tauto.
    + apply Hnext. reflexivity.
Qed.

Lemma make_api_request_hit (headers : items) (w : world) (e : cache_key * pyval) :
  find (fun e => cache_key_eqb (fst e) key) (api_cache w) = Some e ->
  _make_api_request url params headers w = (Ok (snd e), w).
Proof.
  intro Hfind. unfold _make_api_request, bind, cache_lookup, gets. fold key.
  rewrite Hfind. reflexivity.
Qed.

(** X1: the request budget. Whatever the network answers, a call of
    [_make_api_request] sends at most three requests, all with the url,
    parameters and headers it was given and a timeout of 15 s; it consumes
    exactly as many replies, waits a prefix of 1 s, 2 s, 4 s (one wait per
    request, or one less), and touches neither the environment nor the
    database session. *)
Theorem make_api_request_budget (headers : items) (w : world) :
  exists n k,
    (k <= n)%nat /\ (n <= S k)%nat /\ (n <= 3)%nat
    /\ fetched url params headers n k w (snd (_make_api_request url params headers w)).
Proof.
  unfold _make_api_request, bind, cache_lookup, gets. fold key.
  destruct (find _ (api_cache w)) as [[k0 data]|]; cbn [option_map snd].
  - exists 0%nat, 0%nat. unfold fetched, same_db. cbn. rewrite !app_nil_r.
    repeat split; auto.
  - destruct (attempts_trace headers [0; 1; 2] w)
      as (n & k & Hkn & Hnk & Hn & _ & Hsent & Hwire & Hslept & Henv & Hdb & _).
    exists n, k. cbv zeta in *.
    change (map (Z.pow 2) [0; 1; 2]) with [1; 2; 4] in Hslept.
    destruct (attempts url params headers key [0; 1; 2] w) as [[[data|]|e] w1];
      cbn [fst snd List.length] in *; unfold fetched; repeat split; auto; apply Hdb.
Qed.

(** X2: an answer is served again. A non-empty answer of
    [_make_api_request] is in the cache once the call returns: the same
    url and parameters then give the same answer without any request, also
    under other headers (the cache key does not hold them). *)
Theorem answer_is_served_again (headers headers' : items) (w : world) (data : pyval) :
  fst (_make_api_request url params headers w) = Ok data ->
  data <> PDict [] ->
  let w' := snd (_make_api_request url params headers w) in
  _make_api_request url params headers' w' = (Ok data, w').
Proof.
  intros Hdata Hfull. cbv zeta.
  destruct (find (fun e => cache_key_eqb (fst e) key) (api_cache w)) as [e|] eqn:Hfind.
  - rewrite (make_api_request_hit headers w e Hfind) in *. cbn [fst snd] in *.
    rewrite (make_api_request_hit headers' w e Hfind). congruence.
  - rewrite (make_api_request_miss url params headers w Hfind) in *. fold key in Hdata |- *.
    cbv zeta in *.
    destruct (attempts_trace headers [0; 1; 2] w)
      as (n & k & _ & _ & _ & _ & _ & _ & _ & _ & _ & Hcache).
    cbv zeta in Hcache.
    destruct (attempts url params headers key [0; 1; 2] w) as [[[d|]|e] w1];
      cbn [fst snd] in *; inversion Hdata; subst; try contradiction.
    apply (make_api_request_hit headers' w1 (key, data)).
    rewrite Hcache. apply lookup_after_store.
Qed.

(** X3: a failed fetch is not cached. When the cache misses and all
    three attempts fail, the empty object is returned but the cache is left
    as it was, so the next call for the same url and parameters goes to
    the network again. *)
Theorem failed_fetch_is_not_cached (headers headers' : items) (w : world) :
  uncached url params w ->
  (forall n, (n < 3)%nat -> reply_fails (reply_at w n) = true) ->
  let w' := snd (_make_api_request url params headers w) in
  api_cache w' = api_cache w
  /\ exists more,
       sent (snd (_make_api_request url params headers' w'))
       = (sent w' ++ request_of url params headers' :: more)%list.
Proof.
  intros Hmiss Hfail. cbv zeta.
  assert (Hcache : api_cache (snd (_make_api_request url params headers w)) = api_cache w).
  { rewrite (make_api_request_miss url params headers w Hmiss). fold key. cbv zeta.
    pose proof (attempts_exhausted url params headers [0; 1; 2] w Hfail) as Hout.
    fold key in Hout.
    destruct (attempts_trace headers [0; 1; 2] w)
      as (n & k & _ & _ & _ & _ & _ & _ & _ & _ & _ & Hc).
    cbv zeta in Hc. rewrite Hout in Hc. exact Hc. }
  split; [exact Hcache|].
  set (w' := snd (_make_api_request url params headers w)) in *.
  assert (Hmiss' : uncached url params w').
  { unfold uncached in *. rewrite Hcache. exact Hmiss. }
  rewrite (make_api_request_miss url params headers' w' Hmiss'). fold key. cbv zeta.
  destruct (attempts_trace headers' [0; 1; 2] w')
    as (n & k & _ & _ & _ & Hpos & Hsent & _).
  cbv zeta in Hsent. specialize (Hpos ltac:(discriminate)).
  destruct n as [|n]; [lia|]. exists (repeat (request_of url params headers') n).
  exact Hsent.
Qed.

End FetchTrace.

Lemma make_api_request_returns (url : string) (params headers : items) (w : world) :
  exists data, fst (_make_api_request url params headers w) = Ok data.
Proof.
  unfold _make_api_request, bind, cache_lookup, gets.
  destruct (find _ (api_cache w)) as [[k data]|]; cbn [option_map snd].
  - exists data. reflexivity.
  - destruct (attempts_never_raise url params headers [0; 1; 2] w) as [out Hout].
    destruct (attempts url params headers (KeyRequest url (sorted params)) [0; 1; 2] w)
      as [r w'].
    cbn in Hout. subst r. destruct out as [data|]; eexists; reflexivity.
Qed.

(** the catalog search raises only when the body of the answer is not an object *)
Lemma search_comicvine_volume_raised (series_title : string) (w : world) (e : exn) :
  fst (search_comicvine_volume series_title w) = Raise e -> e = AttributeError.
Proof.
  unfold search_comicvine_volume, os_getenv, bind, gets.
  destruct (unset (assoc "COMICVINE_KEY" (environ w))); [discriminate|].
  match goal with |- context [_make_api_request ?u ?p ?h w] =>
    destruct (make_api_request_returns u p h w) as [data Hdata];
    destruct (_make_api_request u p h w) as [r w1] end.
  cbn in Hdata. subst r. destruct data; cbn; intro H; inversion H; reflexivity.
Qed.

(** *** The [@cached] wrappers *)

Lemma cached_sticks (args : list string) (body body' : M pyval) (w w' w'' : world)
  (v : pyval) :
  cached args body w = (Ok v, w') ->
  api_cache w'' = api_cache w' ->
  cached args body' w'' = (Ok v, w'').
Proof.
  unfold cached, bind, cache_lookup, gets. intros Hrun Hcache. rewrite Hcache.
  destruct (find (fun e => cache_key_eqb (fst e) (KeyArgs args)) (api_cache w))
    as [e|] eqn:Hfind; cbn [option_map] in Hrun.
  - inversion Hrun; subst. rewrite Hfind. reflexivity.
  - destruct (body w) as [[v1|e] w1]; [|discriminate Hrun].
    cbn in Hrun. inversion Hrun; subst. cbn [api_cache].
    rewrite lookup_after_store. reflexivity.
Qed.

(** the marketplace search raises only when the body of the answer is not an object *)
Lemma search_ebay_listings_raised (query : string) (w : world) (e : exn) :
  fst (search_ebay_listings query w) = Raise e -> e = AttributeError.
Proof.
  unfold search_ebay_listings, cached, os_getenv, bind, cache_lookup, gets.
  destruct (find _ (api_cache w)) as [hit|]; cbn [option_map]; [discriminate|].
  destruct (unset (assoc "EBAY_TOKEN" (environ w))); [discriminate|].
  match goal with |- context [_make_api_request ?u ?p ?h w] =>
    destruct (make_api_request_returns u p h w) as [data Hdata];
    destruct (_make_api_request u p h w) as [r w1] end.
  cbn in Hdata. subst r. destruct data; cbn; intro H; inversion H; reflexivity.
Qed.

(** X4: memoized answers stick. Once [get_gocollect_pricing] or
    [search_ebay_listings] has returned a value for its arguments, every
    later call with these arguments returns that value and does nothing
    else, as long as the cache holds what the call left: neither the
    environment (a credential set since) nor the network is looked at.
    The value may be the empty one of a missing credential or of a failed
    fetch. *)
Theorem memoized_answers_stick (w w' w'' : world) (v : pyval) :
  api_cache w'' = api_cache w' ->
  (forall comic_id grade,
      get_gocollect_pricing comic_id grade w = (Ok v, w') ->
      get_gocollect_pricing comic_id grade w'' = (Ok v, w''))
  /\ (forall query,
      search_ebay_listings query w = (Ok v, w') ->
      search_ebay_listings query w'' = (Ok v, w'')).
Proof.
  intro Hcache. split; intros; eapply cached_sticks; eauto.
Qed.

(** X5: a missing credential is remembered. Without GOCOLLECT_KEY the
    first call of [get_gocollect_pricing] for given arguments sends
    nothing and returns the empty object, and stores it: the same call
    keeps returning the empty object after the key has been set. The same
    holds of [search_ebay_listings] and EBAY_TOKEN, with the empty list. *)
Theorem missing_credential_is_remembered (w : world) (environ' : items) :
  (forall comic_id grade,
      unset (assoc "GOCOLLECT_KEY" (environ w)) = true ->
      unmemoized [comic_id; grade] w ->
      let r := get_gocollect_pricing comic_id grade w in
      fst r = Ok (PDict []) /\ sent (snd r) = sent w
      /\ get_gocollect_pricing comic_id grade (with_environ environ' (snd r))
         = (Ok (PDict []), with_environ environ' (snd r)))
  /\ (forall query,
      unset (assoc "EBAY_TOKEN" (environ w)) = true ->
      unmemoized [query] w ->
      let r := search_ebay_listings query w in
      fst r = Ok (PList []) /\ sent (snd r) = sent w
      /\ search_ebay_listings query (with_environ environ' (snd r))
         = (Ok (PList []), with_environ environ' (snd r))).
Proof.
  split.
  - intros comic_id grade Hunset Hmiss. cbv zeta.
    assert (Hrun : get_gocollect_pricing comic_id grade w
                   = (Ok (PDict []), snd (cache_store (KeyArgs [comic_id; grade])
                                            (PDict []) w))).
    { unfold get_gocollect_pricing, cached, os_getenv, bind, cache_lookup, gets.
      unfold unmemoized in Hmiss. rewrite Hmiss. cbv beta iota zeta. cbn [option_map].
      cbv beta iota zeta. rewrite Hunset. reflexivity. }
    rewrite Hrun. cbn [fst snd]. repeat split.
    unfold get_gocollect_pricing in *. eapply cached_sticks; [exact Hrun|reflexivity].
  - intros query Hunset Hmiss. cbv zeta.
    assert (Hrun : search_ebay_listings query w
                   = (Ok (PList []), snd (cache_store (KeyArgs [query]) (PList []) w))).
    { unfold search_ebay_listings, cached, os_getenv, bind, cache_lookup, gets.
      unfold unmemoized in Hmiss. rewrite Hmiss. cbv beta iota zeta. cbn [option_map].
      cbv beta iota zeta. rewrite Hunset. reflexivity. }
    rewrite Hrun. cbn [fst snd]. repeat split.
    unfold search_ebay_listings in *. eapply cached_sticks; [exact Hrun|reflexivity].
Qed.

Example answer_is_served_again_witness :
  let url := "https://api.gocollect.com/v1/insights/item/93358" in
  let w := fresh [Response 503 PNone; Response 200 (PDict [("value", PInt 150)])] [] in
  let w' := snd (_make_api_request url [("grade", "8.0")]
                   [("Authorization", "Bearer gc")] w) in
  _make_api_request url [("grade", "8.0")] [("Authorization", "Bearer other")] w'
  = (Ok (PDict [("value", PInt 150)]), w').
Proof.
  apply (answer_is_served_again "https://api.gocollect.com/v1/insights/item/93358"
           [("grade", "8.0")] [("Authorization", "Bearer gc")]
           [("Authorization", "Bearer other")]
           (fresh [Response 503 PNone; Response 200 (PDict [("value", PInt 150)])] [])
           (PDict [("value", PInt 150)])).
  - vm_compute. reflexivity.
  - discriminate.
Defined.

Example failed_fetch_is_not_cached_witness :
  let url := "https://comicvine.gamespot.com/api/search/" in
  let w := fresh [NoResponse; Response 500 PNone; Response 502 PNone;
                  Response 200 (PDict [("results", PList [])])] [] in
  let w' := snd (_make_api_request url [("query", "Batman")] [] w) in
  api_cache w' = api_cache w
  /\ exists more,
       sent (snd (_make_api_request url [("query", "Batman")] [] w'))
       = (sent w' ++ request_of url [("query", "Batman")] [] :: more)%list.
Proof.
  apply (failed_fetch_is_not_cached "https://comicvine.gamespot.com/api/search/"
           [("query", "Batman")] [] []).
  - reflexivity.
  - intros [|[|[|n]]] Hn; try reflexivity; lia.
Defined.

Example memoized_answers_stick_witness :
  let w := fresh [Response 500 PNone; Response 500 PNone; Response 500 PNone] [] in
  let w' := snd (get_gocollect_pricing "93358" "8.0" w) in
  let w'' := with_environ [("GOCOLLECT_KEY", "renewed")] w' in
  get_gocollect_pricing "93358" "8.0" w'' = (Ok (PDict []), w'').
Proof.
  cbv zeta.
  apply (proj1 (memoized_answers_stick
           (fresh [Response 500 PNone; Response 500 PNone; Response 500 PNone] [])
           (snd (get_gocollect_pricing "93358" "8.0"
                   (fresh [Response 500 PNone; Response 500 PNone; Response 500 PNone] [])))
           (with_environ [("GOCOLLECT_KEY", "renewed")]
              (snd (get_gocollect_pricing "93358" "8.0"
                      (fresh [Response 500 PNone; Response 500 PNone; Response 500 PNone]
                         []))))
           (PDict []) eq_refl)).
  vm_compute. reflexivity.
Defined.

Example missing_credential_is_remembered_witness :
  let w := with_environ [] (fresh [] []) in
  let r := search_ebay_listings "Batman 1" w in
  fst r = Ok (PList []) /\ sent (snd r) = sent w
  /\ search_ebay_listings "Batman 1" (with_environ all_keys (snd r))
     = (Ok (PList []), with_environ all_keys (snd r)).
Proof.
  apply (proj2 (missing_credential_is_remembered (with_environ [] (fresh [] [])) all_keys)).
  - reflexivity.
  - reflexivity.
Defined.

(* ------------------------------------------------------------------ *)
(** ** Reconciliation: what every run keeps *)

Lemma grown_refl {A : Type} (l : list A) : grown l l.
Proof. exists []. symmetry. apply app_nil_r. Qed.

Lemma grown_app {A : Type} (l more : list A) : grown l (l ++ more)%list.
Proof. exists more. reflexivity. Qed.

Lemma grown_trans {A : Type} (l1 l2 l3 : list A) : grown l1 l2 -> grown l2 l3 -> grown l1 l3.
Proof. intros [a ->] [b ->]. exists (a ++ b)%list. symmetry. apply app_assoc. Qed.

Lemma grown_from_refl (t : tables) : grown_from t t.
Proof. repeat split; apply grown_refl. Qed.

Lemma grown_from_trans (t1 t2 t3 : tables) :
  grown_from t1 t2 -> grown_from t2 t3 -> grown_from t1 t3.
Proof.
  unfold grown_from. intros H1 H2.
  repeat match goal with H : _ /\ _ |- _ => destruct H end.
  repeat split; eapply grown_trans; eassumption.
Qed.

(** an INSERT appends one row to one table and touches no other row *)
Lemma insert_grows (o : obj) (t t' : tables) (i : Z) :
  insert o t = Some (i, t') -> grown_from t t'.
Proof.
  destruct o; cbn [insert];
    repeat match goal with
           | |- context [match ?x with _ => _ end] => destruct x; try discriminate
           end;
    intro H; inversion H; subst; repeat split; cbn;
    first [apply grown_refl | apply grown_app].
Qed.

Lemma grown_from_kept (t0 : tables) : kept_by_insert (grown_from t0).
Proof.
  intros o t i t' Ht Hi. eapply grown_from_trans; [exact Ht|].
  eapply insert_grows, Hi.
Qed.

(** X6: reconciliation is append-only. Whatever the catalog answers and
    whatever fails, every row that was durable before a call of
    [get_or_create_issue_from_comicvine] is durable after it, unchanged and
    at the same place; an existing Series or Issue is never updated. *)
Theorem reconciliation_only_appends (series_title issue_number : string) (w : world) :
  session w = durable w ->
  grown_from (durable w)
    (durable (snd (get_or_create_issue_from_comicvine series_title issue_number w))).
Proof.
  intro Hs.
  apply (keeps_reconcile (grown_from (durable w)) (grown_from_kept (durable w))
           series_title issue_number w).
  split; [rewrite Hs|]; apply grown_from_refl.
Qed.

Example reconciliation_only_appends_witness :
  let w := snd (get_or_create_issue_from_comicvine "Spider" "1" (fresh spider_catalog [])) in
  grown_from (durable w)
    (durable (snd (get_or_create_issue_from_comicvine "Spiderman" "1" w))).
Proof.
  cbv zeta. apply reconciliation_only_appends. vm_compute. reflexivity.
Defined.

Lemma NoDup_snoc {A : Type} (l : list A) (x : A) :
  NoDup l -> ~ In x l -> NoDup (l ++ [x])%list.
Proof.
  induction l as [|y l IH]; cbn [app]; intros Hl Hx.
  - constructor; [tauto|constructor].
  - inversion Hl; subst. constructor.
    + rewrite in_app_iff. cbn [In]. intros [H|[H|[]]]; [tauto|].
      subst. apply Hx. left. reflexivity.
    + apply IH; [assumption|]. intro H. apply Hx. right. exact H.
Qed.

Lemma existsb_false_not_in {A K : Type} (same : A -> bool) (key : A -> K) (k : K)
  (l : list A) :
  (forall r, key r = k -> same r = true) ->
  existsb same l = false -> ~ In k (map key l).
Proof.
  intros Hsame Hex Hin. apply in_map_iff in Hin. destruct Hin as (r & Hr & Hin).
  assert (H : existsb same l = true) by (apply existsb_exists; exists r; auto).
  congruence.
Qed.

Lemma unique_rows_kept : kept_by_insert unique_rows.
Proof.
  intros o t i t' (Hsrc & Hx & Hi) Hins. unfold unique_rows.
  destruct o.
  - apply insert_source in Hins as Hfacts.
    destruct Hfacts as (-> & _ & _ & -> & -> & _).
    split; [|split; assumption].
    rewrite map_app. cbn [map snd]. apply NoDup_snoc; [exact Hsrc|].
    cbn [insert] in Hins. destruct (existsb _ (source t)) eqn:E; [discriminate|].
    eapply existsb_false_not_in; [|exact E].
    intros r Hr. cbn beta. rewrite Hr. apply String.eqb_refl.
  - apply insert_series in Hins. destruct Hins as (_ & _ & _ & -> & -> & -> & _).
    auto.
  - apply insert_issue in Hins as Hfacts.
    destruct Hfacts as (-> & _ & -> & _ & -> & _).
    split; [assumption|]. split; [assumption|].
    rewrite map_app. cbn [map snd]. apply NoDup_snoc; [exact Hi|].
    cbn [insert] in Hins. destruct (Issue_issue_number x) as [n|] eqn:En; [|discriminate].
    destruct (existsb _ (issue t)) eqn:E; [discriminate|].
    eapply existsb_false_not_in; [|exact E].
    intros r Hr. cbn beta. inversion Hr as [[H1 H2]].
    unfold same_series_issue. rewrite H1, H2, En, Z.eqb_refl. cbn.
    apply String.eqb_refl.
  - apply insert_source_xref in Hins. destruct Hins as (-> & _ & E & -> & _ & -> & _).
    split; [assumption|]. split; [|assumption].
    rewrite map_app. cbn [map snd]. apply NoDup_snoc; [exact Hx|].
    eapply existsb_false_not_in; [|exact E].
    intros r Hr. cbn beta. unfold triple in Hr. inversion Hr as [[H1 H2 H3]].
    unfold same_triple. rewrite H1, H2, H3, Z.eqb_refl, !String.eqb_refl. reflexivity.
  - cbn [insert] in Hins. inversion Hins; subst. cbn. auto.
  - cbn [insert] in Hins. inversion Hins; subst. cbn. auto.
  - cbn [insert] in Hins. destruct (_ || _); inversion Hins; subst. cbn. auto.
Qed.

(** X7: the UNIQUE constraints survive every reconciliation. If no two
    Source rows share a name, no two SourceXref rows a (source, entity type,
    external id) triple and no two Issue rows a (series, number) pair, in
    what the session sees and in what is durable, then the same is true of
    the durable tables after [get_or_create_issue_from_comicvine], whatever
    it returned. *)
Theorem reconciliation_keeps_unique_rows (series_title issue_number : string) (w : world) :
  unique_rows (session w) ->
  unique_rows (durable w) ->
  unique_rows (durable (snd (get_or_create_issue_from_comicvine series_title issue_number w))).
Proof.
  intros Hs Hd.
  apply (keeps_reconcile unique_rows unique_rows_kept series_title issue_number w).
  split; assumption.
Qed.

Lemma unique_rows_empty : unique_rows empty_tables.
Proof. repeat split; constructor. Qed.

Example reconciliation_keeps_unique_rows_witness :
  unique_rows (durable (snd (get_or_create_issue_from_comicvine "Spiderman" "1"
                               (fresh spider_catalog [])))).
Proof.
  apply reconciliation_keeps_unique_rows; exact unique_rows_empty.
Defined.

(** *** Which exceptions a run can raise *)

Section Throws.

Context {A B : Type}.

Lemma throws_ret (allowed : exn -> Prop) (a : A) : throws allowed (ret a).
Proof. intros w e H. discriminate H. Qed.

Lemma throws_gets (allowed : exn -> Prop) (f : world -> A) : throws allowed (gets f).
Proof. intros w e H. discriminate H. Qed.

Lemma throws_modify (allowed : exn -> Prop) (f : world -> world) : throws allowed (modify f).
Proof. intros w e H. discriminate H. Qed.

Lemma throws_raise (allowed : exn -> Prop) (e : exn) : allowed e -> throws allowed (@raise A e).
Proof. intros He w e' H. inversion H; subst. exact He. Qed.

Lemma throws_bind (allowed : exn -> Prop) (m : M A) (k : A -> M B) :
  throws allowed m -> (forall a, throws allowed (k a)) -> throws allowed (bind m k).
Proof.
  intros Hm Hk w e. unfold bind. specialize (Hm w).
  destruct (m w) as [[a|e'] w1]; cbn [fst] in *.
  - apply Hk.
  - intro H. inversion H; subst. apply Hm. reflexivity.
Qed.

Lemma throws_try_except (allowed : exn -> Prop) (m : M A) (handlers : exn -> option (M A)) :
  throws (fun e => match handlers e with Some _ => True | None => allowed e end) m ->
  (forall e h, handlers e = Some h -> throws allowed h) ->
  throws allowed (try_except m handlers).
Proof.
  intros Hm Hh w e. unfold try_except. specialize (Hm w).
  destruct (m w) as [[a|e'] w1]; cbn [fst] in *.
  - discriminate.
  - specialize (Hm e' eq_refl). destruct (handlers e') as [h|] eqn:E.
    + apply (Hh e' h E).
    + intro H. inversion H; subst. exact Hm.
Qed.

Lemma throws_weaken (allowed allowed' : exn -> Prop) (m : M A) :
  (forall e, allowed e -> allowed' e) -> throws allowed m -> throws allowed' m.
Proof. intros H Hm w e He. apply H, (Hm w e He). Qed.

End Throws.

Lemma try_except_raised {A : Type} (m : M A) (handlers : exn -> option (M A))
  (w w' : world) (e : exn) :
  try_except m handlers w = (Raise e, w') ->
  (exists e' w1 h, m w = (Raise e', w1) /\ handlers e' = Some h /\ h w1 = (Raise e, w'))
  \/ (m w = (Raise e, w') /\ handlers e = None).
Proof.
  unfold try_except. destruct (m w) as [[a|e'] w1]; intro H; [discriminate|].
  destruct (handlers e') as [h|] eqn:E.
  - left. exists e', w1, h. auto.
  - inversion H; subst. right. auto.
Qed.

Lemma throws_db_roundtrip : throws database_error db_roundtrip.
Proof.
  intros w e. rewrite db_roundtrip_run. cbn [fst].
  destruct (hd false (db_faults w)); intro H; inversion H. reflexivity.
Qed.

Lemma throws_db_insert o : throws database_error (db_insert o).
Proof.
  intros w e. unfold db_insert. destruct (insert o (session w)) as [[i t]|]; cbn [fst];
    intro H; inversion H. reflexivity.
Qed.

Lemma throws_flush_objs os : throws database_error (flush_objs os).
Proof.
  induction os as [|o rest IH]; cbn [flush_objs].
  - apply throws_ret.
  - apply throws_bind; [apply throws_db_roundtrip|intros _].
    apply throws_bind; [apply throws_db_insert|intros i].
    apply throws_bind; [exact IH|intros ids]. apply throws_ret.
Qed.

Lemma throws_db_flush : throws database_error db_flush.
Proof.
  unfold db_flush. apply throws_bind; [apply throws_gets|intros os]. apply throws_flush_objs.
Qed.

Lemma throws_db_commit : throws database_error db_commit.
Proof.
  unfold db_commit. apply throws_bind; [apply throws_db_flush|intros ids].
  apply throws_bind; [apply throws_db_roundtrip|intros _].
  apply throws_bind; [apply throws_modify|intros _]. apply throws_ret.
Qed.

Lemma throws_db_query {A : Type} (select : tables -> A) : throws database_error (db_query select).
Proof.
  unfold db_query. apply throws_bind; [apply throws_db_flush|intros ids].
  apply throws_bind; [apply throws_db_roundtrip|intros _]. apply throws_gets.
Qed.

Lemma throws_db_add o : throws database_error (db_add o).
Proof. apply throws_modify. Qed.

Lemma throws_db_rollback (allowed : exn -> Prop) : throws allowed db_rollback.
Proof. apply throws_modify. Qed.

Lemma throws_source_body n u :
  throws database_error
    (source <- db_query (source_named n) ;;
     match source with
     | Some found => ret found
     | None =>
         let source := {| Source_name := n; Source_url := u |} in
         db_add (NewSource source) ;;
         ids <- db_commit ;;
         db_refresh ;;
         ret (new_id ids, source)
     end).
Proof.
  apply throws_bind; [apply throws_db_query|].
  intros [found|]; [apply throws_ret|].
  apply throws_bind; [apply throws_db_add|intros _].
  apply throws_bind; [apply throws_db_commit|intros ids].
  apply throws_bind; [apply throws_db_roundtrip|intros _]. apply throws_ret.
Qed.

Lemma throws_get_or_create_source n u : throws database_error (get_or_create_source n u).
Proof.
  unfold get_or_create_source. apply throws_try_except.
  - eapply throws_weaken; [|apply throws_source_body].
    intros e He. cbn beta. destruct (is_SQLAlchemyError e); [exact Logic.I|exact He].
  - intros e h H. destruct (is_SQLAlchemyError e) eqn:E; inversion H; subst h.
    apply throws_bind; [apply throws_db_rollback|intros _].
    apply throws_raise. exact E.
Qed.

(** *** What data_manager.py raises, an [except Exception] clause catches *)

Lemma catchable_database_error (e : exn) : database_error e -> catchable e.
Proof. destruct e; intro H; first [reflexivity|discriminate H]. Qed.

Lemma throws_try_catchable {A : Type} (m : M A) (handlers : exn -> option (M A)) :
  throws catchable m -> (forall e h, handlers e = Some h -> throws catchable h) ->
  throws catchable (try_except m handlers).
Proof.
  intros Hm Hh. apply throws_try_except; [|exact Hh].
  eapply throws_weaken; [|exact Hm]. intros e He. cbn beta.
  destruct (handlers e); [exact Logic.I|exact He].
Qed.

(** a clause that catches [Exception] lets through only what its handlers
    raise *)
Lemma throws_caught {A : Type} (allowed : exn -> Prop) (m : M A)
  (handlers : exn -> option (M A)) :
  throws catchable m -> (forall e, catchable e -> handlers e <> None) ->
  (forall e h, handlers e = Some h -> throws allowed h) ->
  throws allowed (try_except m handlers).
Proof.
  intros Hm Hall Hh. apply throws_try_except; [|exact Hh].
  eapply throws_weaken; [|exact Hm]. intros e He. cbn beta.
  destruct (handlers e) eqn:E; [exact Logic.I|]. destruct (Hall e He E).
Qed.

Lemma never_raises_run {A : Type} (m : M A) (w : world) :
  never_raises m -> exists a, fst (m w) = Ok a.
Proof.
  intro H. specialize (H w). destruct (fst (m w)) as [a|e]; [eauto|].
  destruct (H e eq_refl).
Qed.

Lemma catches_of_database {A : Type} (m : M A) : throws database_error m -> throws catchable m.
Proof. apply throws_weaken, catchable_database_error. Qed.

Lemma catches_db_flush : throws catchable db_flush.
Proof. apply catches_of_database, throws_db_flush. Qed.

Lemma catches_db_commit : throws catchable db_commit.
Proof. apply catches_of_database, throws_db_commit. Qed.

Lemma catches_db_query {A : Type} (select : tables -> A) : throws catchable (db_query select).
Proof. apply catches_of_database, throws_db_query. Qed.

Lemma catches_db_roundtrip : throws catchable db_roundtrip.
Proof. apply catches_of_database, throws_db_roundtrip. Qed.

Lemma catches_get_or_create_source n u : throws catchable (get_or_create_source n u).
Proof. apply catches_of_database, throws_get_or_create_source. Qed.

Lemma catches_requests_get url params headers timeout :
  throws catchable (requests_get url params headers timeout).
Proof.
  intros w e. unfold requests_get. destruct (wire w) as [|[status_code json|] rest];
    cbn [fst]; intro H; inversion H; reflexivity.
Qed.

Lemma catches_py_int v : throws catchable (py_int v).
Proof.
  unfold py_int, py_int_of_str. destruct v; try apply throws_ret;
    try (apply throws_raise; reflexivity).
  - destruct (truncate f); [apply throws_ret|].
    apply throws_raise. destruct (PrimFloat.is_nan f); reflexivity.
  - destruct (int_of_str s); [apply throws_ret|apply throws_raise; reflexivity].
Qed.

Ltac catch_cases :=
  repeat match goal with
         | |- throws _ (match ?x with _ => _ end) => destruct x
         end;
  first [apply throws_ret | apply throws_raise; reflexivity].

Lemma catches_raise_for_status response : throws catchable (raise_for_status response).
Proof. unfold raise_for_status. catch_cases. Qed.

Lemma catches_py_get d k default : throws catchable (py_get d k default).
Proof. unfold py_get. catch_cases. Qed.

Lemma catches_py_getitem d k : throws catchable (py_getitem d k).
Proof. unfold py_getitem. catch_cases. Qed.

Lemma catches_py_index0 v : throws catchable (py_index0 v).
Proof. unfold py_index0. catch_cases. Qed.

Lemma catches_py_iter v : throws catchable (py_iter v).
Proof. unfold py_iter. catch_cases. Qed.

Lemma catches_py_int_of_str s : throws catchable (py_int_of_str s).
Proof. unfold py_int_of_str. catch_cases. Qed.

Lemma catches_py_float v : throws catchable (py_float v).
Proof. unfold py_float. cbv zeta. catch_cases. Qed.

Create HintDb catches.
#[local] Hint Resolve catches_db_flush catches_db_commit catches_db_query catches_db_roundtrip
  catches_get_or_create_source catches_requests_get catches_py_int
  catches_raise_for_status catches_py_get catches_py_getitem catches_py_index0
  catches_py_iter catches_py_int_of_str catches_py_float : catches.

(** Walks down a computation and checks each [raise] on the way. *)
Ltac catch :=
  repeat first
    [ progress intros
    | solve [auto with catches]
    | apply throws_ret | apply throws_gets | apply throws_modify
    | apply throws_raise;
      first [reflexivity | apply catchable_database_error; assumption]
    | apply throws_bind
    | apply throws_try_catchable
    | match goal with
      | |- throws _ (match ?x with _ => _ end) => destruct x
      | H : on_db_error _ _ = Some _ |- _ => unfold on_db_error in H
      | H : on_any_error _ = Some _ |- _ => unfold on_any_error in H
      | H : (if ?c then _ else _) = Some _ |- _ =>
          destruct c eqn:?; inversion H; subst; clear H
      | H : None = Some _ |- _ => discriminate H
      | H : Some _ = Some _ |- _ => inversion H; subst; clear H
      | H : match ?e with _ => _ end = Some _ |- _ => destruct e
      end ].

Lemma catches_attempts url params headers key remaining :
  throws catchable (attempts url params headers key remaining).
Proof. induction remaining as [|attempt rest IH]; cbn [attempts]; catch. Qed.

#[local] Hint Resolve catches_attempts : catches.

Lemma catches_make_api_request url params headers :
  throws catchable (_make_api_request url params headers).
Proof. unfold _make_api_request. catch. Qed.

#[local] Hint Resolve catches_make_api_request : catches.

Lemma catches_search_comicvine_volume t : throws catchable (search_comicvine_volume t).
Proof. unfold search_comicvine_volume. catch. Qed.

Lemma catches_get_comicvine_issues_for_volume v :
  throws catchable (get_comicvine_issues_for_volume v).
Proof. unfold get_comicvine_issues_for_volume. catch. Qed.

Lemma catches_next_issue candidates n : throws catchable (next_issue candidates n).
Proof. induction candidates as [|iss rest IH]; cbn [next_issue]; catch. Qed.

#[local] Hint Resolve catches_search_comicvine_volume catches_get_comicvine_issues_for_volume
  catches_next_issue : catches.

Lemma catches_get_or_create_series t :
  throws catchable (_get_or_create_series_from_comicvine t).
Proof. unfold _get_or_create_series_from_comicvine. catch. Qed.

Lemma catches_get_or_create_issue_for_series s n :
  throws catchable (_get_or_create_issue_for_series s n).
Proof. unfold _get_or_create_issue_for_series. catch. Qed.

#[local] Hint Resolve catches_get_or_create_series catches_get_or_create_issue_for_series
  : catches.

Lemma catchable_handled (e : exn) :
  catchable e ->
  (if is_SQLAlchemyError e then Some (db_rollback ;; ret (@None (Z * Issue)))
   else if is_Exception e then Some (db_rollback ;; ret None)
   else None) <> None.
Proof. unfold catchable. intros ->. destruct (is_SQLAlchemyError e); discriminate. Qed.

Lemma never_raises_reconcile t n : never_raises (get_or_create_issue_from_comicvine t n).
Proof.
  unfold never_raises, get_or_create_issue_from_comicvine. apply throws_caught.
  - catch.
  - apply catchable_handled.
  - intros e h H.
    destruct (is_SQLAlchemyError e); [|destruct (is_Exception e)];
      inversion H; subst h;
      (apply throws_bind; [apply throws_db_rollback|intros _; apply throws_ret]).
Qed.

(** *** get_or_create_source *)

(** X8: [get_or_create_source] is a get after the first create. Once a
    call has returned a Source for a name, a further call for that name
    (with any URL) whose one SELECT meets no fault returns the same row and
    writes nothing: no second row is ever created for the name. *)
Theorem get_or_create_source_is_idempotent (name url url' : string) (w w' : world)
  (s : Z * Source) :
  pending w = [] ->
  get_or_create_source name url w = (Ok s, w') ->
  hd false (db_faults w') = false ->
  get_or_create_source name url' w' = (Ok s, tick w')
  /\ session (tick w') = session w'
  /\ durable (tick w') = durable w'.
Proof.
  intros Hp H Hf. split; [|split; reflexivity].
  pose proof (get_or_create_source_pending _ _ _ _ _ Hp H) as Hp'.
  apply get_or_create_source_found; [exact Hp'|exact Hf|].
  destruct (get_or_create_source_ok _ _ _ _ _ Hp H)
    as [(Hs & ->)|(Hs & Hsnd & t & Hi & ->)].
  - exact Hs.
  - simpl_world. apply insert_source in Hi. destruct Hi as (Hsrc & _).
    destruct s as [i x]. cbn [snd fst] in *. subst x.
    unfold source_named in *. rewrite Hsrc.
    apply find_app_last; [exact Hs|]. apply String.eqb_refl.
Qed.

Example get_or_create_source_is_idempotent_witness :
  let w' := snd (get_or_create_source "eBay" "https://www.ebay.com" (fresh [] [])) in
  get_or_create_source "eBay" "https://ebay.example" w'
  = (Ok (1, {| Source_name := "eBay"; Source_url := "https://www.ebay.com" |}), tick w')
  /\ session (tick w') = session w'
  /\ durable (tick w') = durable w'.
Proof.
  cbv zeta.
  apply (get_or_create_source_is_idempotent "eBay" "https://www.ebay.com"
           "https://ebay.example" (fresh [] [])); vm_compute; reflexivity.
Defined.

Lemma get_or_create_source_raised (name url : string) (w w' : world) (e : exn) :
  get_or_create_source name url w = (Raise e, w') ->
  is_SQLAlchemyError e = true /\ clean w'.
Proof.
  intro H. unfold get_or_create_source in H.
  apply try_except_raised in H.
  destruct H as [(e' & w1 & h & Hm & Hh & H)|(Hm & Hh)].
  - destruct (is_SQLAlchemyError e') eqn:E; inversion Hh; subst h.
    unfold bind, raise in H. rewrite db_rollback_run in H. inversion H; subst.
    split; [exact E|]. split; reflexivity.
  - pose proof (throws_source_body name url w e (f_equal fst Hm)) as Hbody.
    unfold database_error in Hbody. rewrite Hbody in Hh. discriminate.
Qed.

(** X9: when [get_or_create_source] raises, it raises a database error
    and it has rolled back: the session shows exactly what is durable and
    nothing is pending, wherever the call started. *)
Theorem get_or_create_source_raises_rolled_back (name url : string) (w w' : world)
  (e : exn) :
  get_or_create_source name url w = (Raise e, w') ->
  is_SQLAlchemyError e = true /\ clean w'.
Proof. apply get_or_create_source_raised. Qed.

Example get_or_create_source_raises_rolled_back_witness :
  let r := get_or_create_source "GoCollect" "https://gocollect.com"
             (reconciled [] (fails_at 4)) in
  is_SQLAlchemyError OperationalError = true /\ clean (snd r).
Proof.
  cbv zeta.
  apply (get_or_create_source_raises_rolled_back "GoCollect" "https://gocollect.com"
           (reconciled [] (fails_at 4))).
  vm_compute. reflexivity.
Defined.

(** *** The contract of get_or_create_issue_from_comicvine *)

Lemma settles_reconcile t n : settles (get_or_create_issue_from_comicvine t n).
Proof. unfold get_or_create_issue_from_comicvine. settle. Qed.

(** X10: [get_or_create_issue_from_comicvine] is best effort and never
    raises: whatever the database, the catalog and the network do, and
    whatever the documents of the catalog hold, it returns an issue or
    None. Called with no transaction open, it also returns with none open:
    its writes are either committed or rolled back. *)
Theorem reconciliation_never_raises (series_title issue_number : string) (w : world) :
  let r := get_or_create_issue_from_comicvine series_title issue_number w in
  (exists i, fst r = Ok i) /\ (clean w -> clean (snd r)).
Proof.
  cbv zeta.
  destruct (never_raises_run _ w (never_raises_reconcile series_title issue_number))
    as [i Hi].
  split; [eauto|].
  intros Hw. pose proof (settles_reconcile series_title issue_number w Hw) as H.
  unfold closed_if_ok in H. rewrite Hi in H. exact H.
Qed.

Example reconciliation_never_raises_witness :
  let r := get_or_create_issue_from_comicvine "Spiderman" "1"
             (fresh anonymous_catalog (fails_at 3)) in
  fst r = Ok None /\ clean (snd r).
Proof.
  cbv zeta.
  destruct (reconciliation_never_raises "Spiderman" "1"
              (fresh anonymous_catalog (fails_at 3))) as [_ Hclean].
  split; [vm_compute; reflexivity|].
  apply (Hclean (conj eq_refl eq_refl)).
Defined.

Lemma catalog_write_same_pricing (t0 : tables) (o : obj) (t : tables) (i : Z) (t' : tables) :
  catalog_write o = true -> same_pricing t0 t -> insert o t = Some (i, t') ->
  same_pricing t0 t'.
Proof.
  unfold same_pricing. intros Ho (H1 & H2 & H3) Hi. destruct o; try discriminate Ho.
  - apply insert_source in Hi. destruct Hi as (_ & _ & _ & _ & _ & -> & -> & ->). auto.
  - apply insert_series in Hi. destruct Hi as (_ & _ & _ & _ & _ & _ & -> & -> & ->). auto.
  - apply insert_issue in Hi. destruct Hi as (_ & _ & _ & _ & _ & -> & -> & ->). auto.
  - apply insert_source_xref in Hi.
    destruct Hi as (_ & _ & _ & _ & _ & _ & -> & -> & ->). auto.
Qed.

(** X11: reconciliation stays out of the pricing tables. Called with
    nothing pending and no transaction open,
    [get_or_create_issue_from_comicvine] leaves price_snapshot, graded_price
    and market_listing exactly as they were, whatever it returns. *)
Theorem reconciliation_leaves_pricing_tables (series_title issue_number : string)
  (w : world) :
  clean w ->
  same_pricing (durable w)
    (durable (snd (get_or_create_issue_from_comicvine series_title issue_number w))).
Proof.
  intros [Hs Hp].
  apply (guarded_reconcile catalog_write (same_pricing (durable w))
           (catalog_write_same_pricing (durable w)) series_title issue_number
           (fun o Ho => Ho) w).
  unfold guarded, same_pricing. rewrite Hs, Hp. cbn. auto.
Qed.

Example reconciliation_leaves_pricing_tables_witness :
  let w := snd (update_pricing_for_issue spider_issue_row 8.0%float
                  (reconciled [ebay_reply [listing_full; listing_bare]] [])) in
  same_pricing (durable w)
    (durable (snd (get_or_create_issue_from_comicvine "Spiderman" "1" w))).
Proof.
  cbv zeta. apply reconciliation_leaves_pricing_tables. split; vm_compute; reflexivity.
Defined.

(** *** What reconciliation returns *)

Lemma opt_eqb_true (a b : option string) : opt_eqb a b = true -> a = b.
Proof.
  destruct a as [x|], b as [y|]; cbn; try discriminate.
  intro H. apply String.eqb_eq in H. congruence.
Qed.

Lemma existing_issue_some (series_title issue_number : string) (t : tables)
  (i : Z * Issue) :
  existing_issue series_title issue_number t = Some i ->
  stored_issue i t /\ Issue_issue_number (snd i) = Some issue_number
  /\ held_by_matching_series series_title i t = true.
Proof.
  unfold existing_issue, stored_issue, held_by_matching_series. intro H.
  apply find_some in H. destruct H as [Hin H].
  apply andb_true_iff in H. destruct H as [Hs Hn].
  split; [split; [exact Hin|]|split; [apply opt_eqb_true, Hn|exact Hs]].
  apply existsb_exists in Hs. destruct Hs as (s & Hin' & Hs).
  apply andb_true_iff in Hs. destruct Hs as [Hid _].
  exists s. split; [exact Hin'|]. apply Z.eqb_eq, Hid.
Qed.

(** What a returned Issue is, in the tables that the session sees. *)
Lemma reconcile_result_stored (series_title issue_number : string) (w w' : world)
  (i : Z * Issue) :
  pending w = [] ->
  get_or_create_issue_from_comicvine series_title issue_number w = (Ok (Some i), w') ->
  stored_issue i (session w') /\ Issue_issue_number (snd i) = Some issue_number.
Proof.
  intros Hp H.
  unfold get_or_create_issue_from_comicvine in H.
  apply try_except_ok in H. destruct H as [H|(e & w1 & h & _ & Hh & H)].
  2:{ destruct (is_SQLAlchemyError e); [|destruct (is_Exception e)];
        inversion Hh; subst h; unfold bind, ret in H; rewrite db_rollback_run in H;
        discriminate. }
  step H found w1 Hq. apply (db_query_ok _ _ _ _ Hp) in Hq. destruct Hq as (-> & -> & _).
  destruct (existing_issue series_title issue_number (session w)) as [i0|] eqn:Hfast.
  - inversion H; subst. simpl_world.
    destruct (existing_issue_some _ _ _ _ Hfast) as (Hst & Hn & _). auto.
  - step H found_series w2 Hseries. destruct found_series as [s|]; [|discriminate].
    assert (Hp1 : pending (tick w) = []) by (simpl_world; exact Hp).
    destruct (series_step_ok _ _ _ _ Hp1 Hseries) as (Hp2 & _ & Hs).
    assert (Hin : In s (series (session w2))).
    { destruct Hs as [(Hfound & ->)|(_ & -> & _)].
      - unfold existing_series in Hfound. apply find_some in Hfound. apply Hfound.
      - apply in_or_app. right. left. reflexivity. }
    destruct (issue_step_ok _ _ _ _ _ Hp2 H) as (_ & Hser & Hiss & Hsid & Hnum).
    split; [split|exact Hnum].
    + rewrite Hiss. apply in_or_app. right. left. reflexivity.
    + exists s. rewrite Hser. auto.
Qed.

(** X12: what reconciliation returns is stored. Called with no
    transaction open, an Issue returned by
    [get_or_create_issue_from_comicvine] is a durable row that carries the
    requested issue number, and the Series it refers to is a durable row
    as well: the caller is never handed an object that a rollback took
    back, nor an issue without its series. *)
Theorem returned_issue_is_stored (series_title issue_number : string) (w w' : world)
  (i : Z * Issue) :
  clean w ->
  get_or_create_issue_from_comicvine series_title issue_number w = (Ok (Some i), w') ->
  stored_issue i (durable w') /\ Issue_issue_number (snd i) = Some issue_number.
Proof.
  intros Hw H.
  assert (Hclean : clean w').
  { pose proof (settles_reconcile series_title issue_number w Hw) as Hs.
    rewrite H in Hs. exact Hs. }
  destruct Hclean as [Hsd' _]. rewrite <- Hsd'.
  apply (reconcile_result_stored series_title issue_number w w' i (proj2 Hw) H).
Qed.

Example returned_issue_is_stored_witness :
  let r := get_or_create_issue_from_comicvine "Spiderman" "1" (fresh spider_catalog []) in
  stored_issue spider_issue_row (durable (snd r))
  /\ Issue_issue_number (snd spider_issue_row) = Some "1".
Proof.
  cbv zeta.
  apply (returned_issue_is_stored "Spiderman" "1" (fresh spider_catalog [])).
  - split; reflexivity.
  - vm_compute. reflexivity.
Defined.

(** *** Created rows and their cross-references *)

Lemma get_or_create_source_named (name url : string) (w w' : world) (s : Z * Source) :
  pending w = [] ->
  get_or_create_source name url w = (Ok s, w') ->
  source_named name (session w') = Some s.
Proof.
  intros Hp H.
  destruct (get_or_create_source_ok _ _ _ _ _ Hp H)
    as [(Hs & ->)|(Hs & Hsnd & t & Hi & ->)].
  - exact Hs.
  - simpl_world. apply insert_source in Hi. destruct Hi as (Hsrc & _).
    destruct s as [i x]. cbn [snd fst] in *. subst x.
    unfold source_named in *. rewrite Hsrc.
    apply find_app_last; [exact Hs|]. apply String.eqb_refl.
Qed.

Lemma xref_of_some (source_id : Z) (entity_type : string) (entity_id : Z) (t : tables)
  (x : Z * SourceXref) :
  xref_of source_id entity_type entity_id t = Some x ->
  In x (source_xref t)
  /\ SourceXref_source_id (snd x) = source_id
  /\ SourceXref_entity_type (snd x) = entity_type
  /\ SourceXref_entity_id (snd x) = entity_id.
Proof.
  unfold xref_of. intro H. apply find_some in H. destruct H as [Hin H].
  apply andb_true_iff in H. destruct H as [H H3].
  apply andb_true_iff in H. destruct H as [H1 H2].
  apply Z.eqb_eq in H1. apply String.eqb_eq in H2. apply Z.eqb_eq in H3. auto.
Qed.

(** What a successful issue step leaves: the transaction is closed, and
    the series and the new issue are both cross-referenced. *)
Lemma issue_step_links (s : Z * Series) (issue_number : string) (w w' : world)
  (i : Z * Issue) :
  pending w = [] ->
  _get_or_create_issue_for_series s issue_number w = (Ok (Some i), w') ->
  durable w' = session w'
  /\ linked "series" (fst s) (session w')
  /\ linked "issue" (fst i) (session w').
Proof.
  intros Hp H. unfold _get_or_create_issue_for_series in H.
  step H cv_source w1 Hsrc.
  pose proof (get_or_create_source_pending _ _ _ _ _ Hp Hsrc) as Hp1.
  pose proof (get_or_create_source_named _ _ _ _ _ Hp Hsrc) as Hnamed.
  step H xref_series w2 Hq. apply (db_query_ok _ _ _ _ Hp1) in Hq.
  destruct Hq as (-> & -> & _).
  destruct (xref_of _ _ _ _) as [xref|] eqn:Hxref; [|discriminate].
  apply xref_of_some in Hxref. destruct Hxref as (Xin & X1 & X2 & X3).
  step_pure H volume_id Hv.
  step H cv_issues wv Hfetch.
  assert (Hdb : same_db (tick w1) wv).
  { pose proof (keeps_db_get_comicvine_issues_for_volume volume_id (tick w1)) as K.
    rewrite Hfetch in K. exact K. }
  destruct Hdb as (Hf & Hd & Hss & Hpp). simpl_world.
  step_pure H candidates Hc. step_pure H found Hfound.
  destruct (truthy found) eqn:Htruthy; cbn [negb] in H; [|discriminate].
  apply try_except_ok in H. destruct H as [H|(e & w2 & h & _ & Hh & H)].
  2:{ unfold on_db_error in Hh. destruct (is_SQLAlchemyError e); inversion Hh; subst h.
      unfold bind, ret in H. rewrite db_rollback_run in H. discriminate. }
  step_pure H x Hx.
  step H u1 w2 Hadd. rewrite db_add_run in Hadd. inversion Hadd; subst w2. clear Hadd.
  step H ids w3 Hfl.
  eapply db_flush_one_ok in Hfl; [|simpl_world; rewrite Hpp, Hp1; reflexivity].
  destruct Hfl as (n & t & Hi & -> & _ & ->). simpl_world.
  apply insert_issue in Hi. destruct Hi as (_ & _ & Hi2 & _ & Hi4 & _).
  step_pure H cv_id Hid. step_pure H external_id Hext.
  step H u2 w5 Hadd. rewrite db_add_run in Hadd. inversion Hadd; subst w5. clear Hadd.
  step H ids' w6 Hcm. eapply db_commit_one_ok in Hcm; [|reflexivity].
  destruct Hcm as (j & t' & Hj & -> & _ & _ & ->). simpl_world.
  apply insert_source_xref in Hj. destruct Hj as (J1 & _ & _ & J2 & _).
  inversion H; subst. simpl_world. clear H. cbn [new_id last fst].
  assert (Hsource : source_named "Comic Vine" t' = Some cv_source).
  { unfold source_named in *. rewrite J2, Hi2, Hss. exact Hnamed. }
  split; [reflexivity|]. split.
  - exists cv_source, xref. rewrite J1, Hi4, Hss.
    repeat split; auto. apply in_or_app. left. exact Xin.
  - exists cv_source. eexists. rewrite J1.
    split; [exact Hsource|]. split; [apply in_or_app; right; left; reflexivity|].
    cbn. auto.
Qed.

(** X13: what reconciliation creates is cross-referenced. Called with no
    transaction open, whenever [get_or_create_issue_from_comicvine] returns
    an Issue that the fast path did not find, the durable tables hold the
    "Comic Vine" Source, a SourceXref from it to the issue and a SourceXref
    from it to the issue's Series, committed together with the issue. *)
Theorem created_issue_is_linked (series_title issue_number : string) (w w' : world)
  (i : Z * Issue) :
  clean w ->
  existing_issue series_title issue_number (session w) = None ->
  get_or_create_issue_from_comicvine series_title issue_number w = (Ok (Some i), w') ->
  linked "issue" (fst i) (durable w')
  /\ linked "series" (Issue_series_id (snd i)) (durable w').
Proof.
  intros [_ Hp] Hnew H.
  unfold get_or_create_issue_from_comicvine in H.
  apply try_except_ok in H. destruct H as [H|(e & w1 & h & _ & Hh & H)].
  2:{ destruct (is_SQLAlchemyError e); [|destruct (is_Exception e)];
        inversion Hh; subst h; unfold bind, ret in H; rewrite db_rollback_run in H;
        discriminate. }
  step H found w1 Hq. apply (db_query_ok _ _ _ _ Hp) in Hq. destruct Hq as (-> & -> & _).
  rewrite Hnew in H.
  step H found_series w2 Hseries. destruct found_series as [s|]; [|discriminate].
  assert (Hp1 : pending (tick w) = []) by (simpl_world; exact Hp).
  destruct (series_step_ok _ _ _ _ Hp1 Hseries) as (Hp2 & _ & _).
  destruct (issue_step_ok _ _ _ _ _ Hp2 H) as (_ & _ & _ & Hsid & _).
  destruct (issue_step_links _ _ _ _ _ Hp2 H) as (Hdur & Hls & Hli).
  rewrite Hdur, Hsid. auto.
Qed.

Example created_issue_is_linked_witness :
  let r := get_or_create_issue_from_comicvine "Spiderman" "1" (fresh spider_catalog []) in
  linked "issue" (fst spider_issue_row) (durable (snd r))
  /\ linked "series" (Issue_series_id (snd spider_issue_row)) (durable (snd r)).
Proof.
  cbv zeta.
  apply (created_issue_is_linked "Spiderman" "1" (fresh spider_catalog [])).
  - split; reflexivity.
  - reflexivity.
  - vm_compute. reflexivity.
Defined.

(** *** A title that neither the database nor the catalog knows *)

(** X14: no candidate, no row. When the title matches no local Series and
    the catalog search yields no candidate (no credential, a failed fetch,
    an empty result list), [get_or_create_issue_from_comicvine] returns
    None and the database is exactly as before: nothing is written, not
    even the "Comic Vine" Source row, whether or not its queries fail. *)
Theorem no_candidate_creates_nothing (series_title issue_number : string) (w : world) :
  clean w ->
  existing_issue series_title issue_number (session w) = None ->
  existing_series series_title (session w) = None ->
  (forall volumes,
      fst (search_comicvine_volume series_title (tick (tick w))) = Ok volumes ->
      truthy volumes = false) ->
  let r := get_or_create_issue_from_comicvine series_title issue_number w in
  fst r = Ok None /\ durable (snd r) = durable w /\ clean (snd r).
Proof.
  intros [Hsd Hp] Hissue Hseries Hnone. cbv zeta.
  assert (Hrun : exists w',
             get_or_create_issue_from_comicvine series_title issue_number w = (Ok None, w')
             /\ durable w' = durable w /\ clean w').
  { unfold get_or_create_issue_from_comicvine, try_except. unfold bind at 1.
    rewrite (db_query_run _ w Hp).
    destruct (hd false (db_faults w)).
    { eexists. split; [reflexivity|]. unfold clean. cbn. auto. }
    rewrite Hissue. unfold bind at 1. unfold _get_or_create_series_from_comicvine.
    unfold bind at 1.
    rewrite (db_query_run _ (tick w)) by (simpl_world; exact Hp).
    destruct (hd false (db_faults (tick w))).
    { eexists. split; [reflexivity|]. unfold clean. cbn. auto. }
    simpl_world. rewrite Hseries. unfold bind at 1.
    pose proof (keeps_db_search_comicvine_volume series_title (tick (tick w)))
      as (_ & Hd & Hs & Hpp).
    pose proof (search_comicvine_volume_raised series_title (tick (tick w))) as Hraised.
    destruct (search_comicvine_volume series_title (tick (tick w))) as [[volumes|e] wv];
      cbn [fst snd] in *.
    - rewrite (Hnone volumes eq_refl). eexists. split; [reflexivity|].
      unfold clean. rewrite Hd, Hs, Hpp. simpl_world. auto.
    - rewrite (Hraised e eq_refl). eexists. split; [reflexivity|].
      unfold clean. cbn. rewrite Hd. simpl_world. auto. }
  destruct Hrun as (w' & -> & Hd & Hc). auto.
Qed.

Example no_candidate_creates_nothing_witness :
  let w := with_environ [] (fresh spider_catalog []) in
  let r := get_or_create_issue_from_comicvine "Spiderman" "1" w in
  fst r = Ok None /\ durable (snd r) = durable w /\ clean (snd r).
Proof.
  apply (no_candidate_creates_nothing "Spiderman" "1"
           (with_environ [] (fresh spider_catalog []))).
  - split; reflexivity.
  - reflexivity.
  - reflexivity.
  - intros volumes H. vm_compute in H. inversion H. reflexivity.
Defined.

(** *** A Series without its cross-reference *)

Lemma xref_of_same_table (source_id : Z) (entity_type : string) (entity_id : Z)
  (t t' : tables) :
  source_xref t' = source_xref t ->
  xref_of source_id entity_type entity_id t' = xref_of source_id entity_type entity_id t.
Proof. unfold xref_of. intros ->. reflexivity. Qed.

(** the cross-reference that a step reads after it has resolved its Source *)
Lemma xref_after_source (name url entity_type : string) (entity_id : Z) (w w' : world)
  (s : Z * Source) :
  pending w = [] ->
  get_or_create_source name url w = (Ok s, w') ->
  xref_of (fst s) entity_type entity_id (session w')
  = xref_under name entity_type entity_id (session w)
  /\ xref_under name entity_type entity_id (session w')
     = xref_under name entity_type entity_id (session w).
Proof.
  intros Hp H. pose proof (get_or_create_source_named _ _ _ _ _ Hp H) as Hnamed.
  unfold xref_under at 2. rewrite Hnamed.
  assert (Hx : xref_of (fst s) entity_type entity_id (session w')
               = xref_under name entity_type entity_id (session w)).
  { unfold xref_under.
    destruct (get_or_create_source_ok _ _ _ _ _ Hp H)
      as [(Hfound & ->)|(Hnew & _ & t & Hi & ->)]; simpl_world.
    - rewrite Hfound. reflexivity.
    - rewrite Hnew. apply insert_source in Hi.
      destruct Hi as (_ & -> & _ & _ & Hxt & _).
      apply xref_of_same_table. exact Hxt. }
  split; exact Hx.
Qed.

Lemma guarded_source_named (allowed : obj -> bool) (J : tables -> Prop)
  (name url : string) :
  (forall o t i t', allowed o = true -> J t -> insert o t = Some (i, t') -> J t') ->
  allowed (NewSource {| Source_name := name; Source_url := url |}) = true ->
  keeps (guarded allowed J) (get_or_create_source name url).
Proof.
  intros J_insert Ho. unfold get_or_create_source. apply keeps_try_except.
  - apply keeps_bind; [apply guarded_db_query, J_insert|].
    intros [found|]; [apply keeps_ret|].
    apply keeps_bind; [apply guarded_db_add, Ho|intros _].
    apply keeps_bind; [apply guarded_db_commit, J_insert|intros ids].
    apply keeps_bind; [apply guarded_db_roundtrip|intros _]. apply keeps_ret.
  - intros e h Hh. destruct (is_SQLAlchemyError e); inversion Hh; subst h.
    apply keeps_bind; [apply guarded_db_rollback|intros _]. apply keeps_raise.
Qed.

Lemma find_none_of_existsb {A : Type} (p : A -> bool) (l : list A) :
  existsb p l = false -> find p l = None.
Proof.
  induction l as [|x l IH]; cbn; [reflexivity|].
  destruct (p x); [discriminate|exact IH].
Qed.

Lemma xref_under_kept (name entity_type : string) (entity_id : Z) (o : obj)
  (t : tables) (i : Z) (t' : tables) :
  source_row name o = true ->
  insert o t = Some (i, t') ->
  xref_under name entity_type entity_id t' = xref_under name entity_type entity_id t
  /\ series t' = series t /\ issue t' = issue t.
Proof.
  intros Ho Hi. destruct o as [x| | | | | |]; try discriminate Ho.
  cbn [source_row] in Ho. apply String.eqb_eq in Ho.
  pose proof Hi as Hi'. apply insert_source in Hi'.
  destruct Hi' as (Hsrc & -> & Hser & Hiss & Hxt & _).
  split; [|auto]. unfold xref_under.
  cbn [insert] in Hi. destruct (existsb _ (source t)) eqn:E; [discriminate|].
  rewrite Ho in E. apply find_none_of_existsb in E.
  unfold source_named. rewrite E, Hsrc.
  rewrite (find_app_last _ _ (next_id (source t), x) E)
    by (cbn; rewrite Ho; apply String.eqb_refl).
  cbn [fst]. apply xref_of_same_table. exact Hxt.
Qed.

Lemma orphaned_kept (series_title issue_number : string) (o : obj) (t : tables) (i : Z)
  (t' : tables) :
  source_row "Comic Vine" o = true ->
  orphaned series_title issue_number t ->
  insert o t = Some (i, t') ->
  orphaned series_title issue_number t'.
Proof.
  intros Ho (Hissue & s & Hseries & Hx) Hi. unfold orphaned.
  assert (Hkept := fun id => xref_under_kept "Comic Vine" "series" id o t i t' Ho Hi).
  destruct (Hkept 0) as (_ & Hser & Hiss).
  unfold existing_issue, existing_series in *. rewrite Hser, Hiss.
  split; [exact Hissue|]. exists s. split; [exact Hseries|].
  rewrite (proj1 (Hkept (fst s))). exact Hx.
Qed.

(** the issue step for a Series that has no cross-reference *)
Lemma issue_step_unlinked (series_title number issue_number : string) (s : Z * Series)
  (w : world) :
  clean w ->
  guarded (source_row "Comic Vine") (orphaned series_title number) w ->
  xref_under "Comic Vine" "series" (fst s) (session w) = None ->
  let r := _get_or_create_issue_for_series s issue_number w in
  sent (snd r) = sent w
  /\ guarded (source_row "Comic Vine") (orphaned series_title number) (snd r)
  /\ match fst r with
     | Ok None => clean (snd r)
     | Ok (Some _) => False
     | Raise e => is_SQLAlchemyError e = true
     end.
Proof.
  intros Hw Hg Hx. cbv zeta. destruct Hw as [Hsd Hp].
  pose proof (guarded_source_named (source_row "Comic Vine") (orphaned series_title number)
                "Comic Vine" "https://comicvine.gamespot.com"
                (orphaned_kept series_title number) eq_refl w Hg) as Hg1.
  pose proof (offline_get_or_create_source "Comic Vine" "https://comicvine.gamespot.com" w)
    as Hoff.
  pose proof (settles_get_or_create_source "Comic Vine" "https://comicvine.gamespot.com" w
                (conj Hsd Hp)) as Hclean.
  pose proof (throws_get_or_create_source "Comic Vine" "https://comicvine.gamespot.com" w)
    as Hthrows.
  unfold _get_or_create_issue_for_series, bind.
  destruct (get_or_create_source "Comic Vine" "https://comicvine.gamespot.com" w)
    as [[src|e] w1] eqn:Hsrc; cbn [fst snd closed_if_ok] in *.
  2:{ split; [exact Hoff|]. split; [exact Hg1|]. apply (Hthrows e eq_refl). }
  destruct (xref_after_source _ _ "series" (fst s) _ _ _ Hp Hsrc) as [Hx1 _].
  rewrite Hx in Hx1. destruct Hclean as [Hsd1 Hp1].
  rewrite (db_query_run _ w1 Hp1).
  destruct (hd false (db_faults w1)); cbv beta iota; cbn [fst snd].
  - split; [exact Hoff|]. split; [|reflexivity]. exact Hg1.
  - rewrite Hx1. cbn [fst snd ret]. split; [exact Hoff|]. split; [exact Hg1|].
    split; simpl_world; assumption.
Qed.

(** X15: a Series without its cross-reference blocks reconciliation. When
    the title matches a local Series that has no "Comic Vine"
    cross-reference (as the one left behind by a failed link), and no issue
    of the requested number is held by a matching Series,
    [get_or_create_issue_from_comicvine] returns None without sending any
    request, and leaves a database of which the same is true: every later
    call for that title and number returns None as well. The catalog is
    never asked again, and the missing cross-reference is never repaired. *)
Theorem orphan_series_blocks_reconciliation (series_title issue_number : string)
  (w : world) :
  clean w ->
  orphaned series_title issue_number (session w) ->
  let r := get_or_create_issue_from_comicvine series_title issue_number w in
  fst r = Ok None
  /\ sent (snd r) = sent w
  /\ clean (snd r)
  /\ orphaned series_title issue_number (session (snd r)).
Proof.
  intros [Hsd Hp] Horph. cbv zeta.
  assert (Hrun : exists w',
             get_or_create_issue_from_comicvine series_title issue_number w = (Ok None, w')
             /\ sent w' = sent w /\ clean w'
             /\ orphaned series_title issue_number (session w')).
  { pose proof Horph as (Hissue & s & Hseries & Hx).
    unfold get_or_create_issue_from_comicvine, try_except. unfold bind at 1.
    rewrite (db_query_run _ w Hp).
    destruct (hd false (db_faults w)).
    { eexists. split; [reflexivity|]. unfold clean. cbn. rewrite <- Hsd. auto. }
    rewrite Hissue. unfold bind at 1. unfold _get_or_create_series_from_comicvine.
    unfold bind at 1.
    rewrite (db_query_run _ (tick w)) by (simpl_world; exact Hp).
    destruct (hd false (db_faults (tick w))).
    { eexists. split; [reflexivity|]. unfold clean. cbn. rewrite <- Hsd. auto. }
    simpl_world. rewrite Hseries. cbn [ret].
    assert (Hw2 : clean (tick (tick w))) by (split; simpl_world; assumption).
    assert (Hg2 : guarded (source_row "Comic Vine") (orphaned series_title issue_number)
                    (tick (tick w))).
    { unfold guarded. simpl_world. rewrite <- Hsd, Hp. auto. }
    destruct (issue_step_unlinked series_title issue_number issue_number s
                (tick (tick w)) Hw2 Hg2 Hx) as (Hsent & (Hgs & Hgd & _) & Hout).
    destruct (_get_or_create_issue_for_series s issue_number (tick (tick w)))
      as [[[i|]|e] w'] ; cbn [fst snd] in *.
    - contradiction.
    - eexists. split; [reflexivity|]. auto.
    - rewrite Hout. eexists. split; [reflexivity|]. unfold clean. cbn. auto. }
  destruct Hrun as (w' & -> & H1 & H2 & H3). auto.
Qed.

Example orphan_series_blocks_reconciliation_witness :
  let w := snd (get_or_create_issue_from_comicvine "spider" "1"
                  (fresh anonymous_catalog [])) in
  let r := get_or_create_issue_from_comicvine "spider" "1" w in
  fst r = Ok None
  /\ sent (snd r) = sent w
  /\ clean (snd r)
  /\ orphaned "spider" "1" (session (snd r)).
Proof.
  apply orphan_series_blocks_reconciliation.
  - split; vm_compute; reflexivity.
  - split; [vm_compute; reflexivity|]. eexists. split; vm_compute; reflexivity.
Defined.

(** *** The title is a pattern *)

Lemma append_assoc (a b c : string) : ((a ++ b) ++ c)%string = (a ++ (b ++ c))%string.
Proof. induction a as [|x a IH]; cbn [append]; [reflexivity|]. rewrite IH. reflexivity. Qed.

Lemma append_nil_r (a : string) : (a ++ "")%string = a.
Proof. induction a as [|x a IH]; cbn [append]; [reflexivity|]. rewrite IH. reflexivity. Qed.

Lemma ci_equal_refl (s : string) : ci_equal s s = true.
Proof.
  induction s as [|c s IH]; [reflexivity|].
  cbn [ci_equal]. rewrite IH. unfold ci_eqb. rewrite Ascii.eqb_refl. reflexivity.
Qed.

Lemma existing_series_matches (series_title : string) (t : tables) (r : Z * Series) :
  In r (series t) -> title_matches series_title r = true ->
  exists found, existing_series series_title t = Some found.
Proof.
  intros Hin Hm. unfold existing_series.
  destruct (find (title_matches series_title) (series t)) as [found|] eqn:E; [eauto|].
  apply (find_none _ _ E) in Hin. congruence.
Qed.

(** X16: the caller's title is used as a pattern. The local lookup does
    not escape the title it is given: an empty title matches every Series
    that has a title, and an underscore in the title stands for any one
    character, so that a lookup can return a Series whose title does not
    contain the title asked for. *)
Theorem title_is_a_pattern (t : tables) (r : Z * Series) :
  In r (series t) ->
  (forall title,
      Series_title (snd r) = Some title ->
      exists found, existing_series "" t = Some found)
  /\ (forall before c after,
      Series_title (snd r) = Some (before ++ String c after) ->
      exists found, existing_series (before ++ "_" ++ after) t = Some found).
Proof.
  intro Hin. split.
  - intros title Htitle. apply (existing_series_matches "" t r Hin).
    apply (title_matches_substring "" "" "" title); [exact Htitle|reflexivity].
  - intros before c after Htitle.
    apply (existing_series_matches _ t r Hin).
    unfold title_matches. rewrite Htitle. cbn [ilike].
    change ("%" ++ (before ++ "_" ++ after) ++ "%")
      with (String "%" ((before ++ String "_" after) ++ "%")).
    apply like_percent_here. rewrite append_assoc.
    apply like_literal; [apply ci_equal_refl|].
    change (String "_" after ++ "%") with (String "_" (after ++ "%")).
    cbn [like]. change (Ascii.eqb "_" "%") with false.
    change (Ascii.eqb "_" "_") with true. cbn [orb andb].
    rewrite <- (append_nil_r after) at 2.
    apply like_literal; [apply ci_equal_refl|reflexivity].
Qed.

Example title_is_a_pattern_witness :
  let t := durable (snd (get_or_create_issue_from_comicvine "Spider" "1"
                           (fresh spider_catalog []))) in
  (exists found, existing_series "" t = Some found)
  /\ (exists found, existing_series ("Spider" ++ "_" ++ "Man") t = Some found).
Proof.
  cbv zeta.
  destruct (title_is_a_pattern
              (durable (snd (get_or_create_issue_from_comicvine "Spider" "1"
                               (fresh spider_catalog []))))
              spider_series) as [Hempty Hunderscore].
  - vm_compute. auto.
  - split.
    + apply (Hempty "Spider-Man"). reflexivity.
    + apply (Hunderscore "Spider" "-"%char "Man"). reflexivity.
Defined.

(* ------------------------------------------------------------------ *)
(** ** Pricing ingestion: what every run keeps *)

Lemma bind_raised {A B : Type} (m : M A) (k : A -> M B) (w w' : world) (e : exn) :
  bind m k w = (Raise e, w') ->
  m w = (Raise e, w') \/ exists a w1, m w = (Ok a, w1) /\ k a w1 = (Raise e, w').
Proof.
  unfold bind. destruct (m w) as [[a|e'] w1]; intro H.
  - right. exists a, w1. auto.
  - left. inversion H; subst. reflexivity.
Qed.

Lemma issue_series_title_outcome (i : Z * Issue) (w : world) :
  snd (issue_series_title i w) = w
  /\ forall e, fst (issue_series_title i w) = Raise e -> e = AttributeError.
Proof.
  unfold issue_series_title, bind, gets.
  destruct (find_by_id _ _) as [r|]; cbn; split; try reflexivity;
    intros e H; inversion H; reflexivity.
Qed.

(** *** update_pricing_for_issue *)

Lemma catches_issue_series_title i : throws catchable (issue_series_title i).
Proof. unfold issue_series_title. catch. Qed.

Lemma catches_cached args body : throws catchable body -> throws catchable (cached args body).
Proof. intro H. unfold cached, cache_lookup, cache_store. catch. Qed.

Lemma catches_get_gocollect_pricing comic_id grade :
  throws catchable (get_gocollect_pricing comic_id grade).
Proof. unfold get_gocollect_pricing. apply catches_cached. catch. Qed.

Lemma catches_search_ebay_listings query : throws catchable (search_ebay_listings query).
Proof. unfold search_ebay_listings. apply catches_cached. catch. Qed.

Lemma catches_listing_of snapshot_id item : throws catchable (listing_of snapshot_id item).
Proof. unfold listing_of. catch. Qed.

#[local] Hint Resolve catches_issue_series_title catches_get_gocollect_pricing
  catches_search_ebay_listings catches_listing_of : catches.

Lemma catches_add_listings snapshot_id items :
  throws catchable (add_listings snapshot_id items).
Proof. induction items as [|item rest IH]; cbn [add_listings]; catch. Qed.

#[local] Hint Resolve catches_add_listings : catches.

(** [except SQLAlchemyError] followed by [except Exception], each rolling
    back, lets nothing through *)
Lemma never_raises_on_any_error (m : M unit) :
  throws catchable m -> never_raises (try_except m on_any_error).
Proof.
  intro Hm. apply throws_caught; [exact Hm| |].
  - unfold catchable, on_any_error. intros e ->.
    destruct (is_SQLAlchemyError e); discriminate.
  - intros e h H. unfold on_any_error in H.
    destruct (is_SQLAlchemyError e); [|destruct (is_Exception e)];
      inversion H; subst h; apply throws_db_rollback.
Qed.

Lemma never_raises_update_ebay_listings i : never_raises (_update_ebay_listings i).
Proof. unfold _update_ebay_listings. apply never_raises_on_any_error. catch. Qed.

(** X17: the listings sub-flow is contained. No exception leaves
    [_update_ebay_listings], whatever the marketplace answers and the
    database does: it always returns; called with no transaction open, it
    returns with none open. *)
Theorem listings_never_raise (issue : Z * Issue) (w : world) :
  let r := _update_ebay_listings issue w in
  fst r = Ok tt /\ (clean w -> clean (snd r)).
Proof.
  cbv zeta.
  destruct (never_raises_run _ w (never_raises_update_ebay_listings issue)) as [[] Hr].
  split; [exact Hr|].
  intros Hw. pose proof (settles_update_ebay_listings issue w Hw) as H.
  unfold closed_if_ok in H. rewrite Hr in H. exact H.
Qed.

Example listings_never_raise_witness :
  let r := _update_ebay_listings spider_issue_row
             (reconciled [ebay_reply [listing_full; listing_untitled]] []) in
  clean (snd r).
Proof.
  cbv zeta.
  destruct (listings_never_raise spider_issue_row
              (reconciled [ebay_reply [listing_full; listing_untitled]] []))
    as [_ Hclean].
  apply Hclean; split; vm_compute; reflexivity.
Defined.

Lemma valuation_raised (issue : Z * Issue) (grade_str : string) (w w' : world) (e : exn) :
  clean w ->
  _update_gocollect_pricing issue grade_str w = (Raise e, w') ->
  (is_SQLAlchemyError e = true \/ e = AttributeError)
  /\ clean w' /\ sent w' = sent w.
Proof.
  intros Hw H. unfold _update_gocollect_pricing in H.
  apply bind_raised in H. destruct H as [H|(src & w1 & Hsrc & H)].
  { pose proof (offline_get_or_create_source "GoCollect" "https://gocollect.com" w) as Hoff.
    rewrite H in Hoff. apply get_or_create_source_raised in H.
    destruct H as [He Hc]. auto. }
  assert (Hw1 : clean w1).
  { pose proof (settles_get_or_create_source "GoCollect" "https://gocollect.com" w Hw) as K.
    rewrite Hsrc in K. exact K. }
  assert (Hs1 : sent w1 = sent w).
  { pose proof (offline_get_or_create_source "GoCollect" "https://gocollect.com" w) as Hoff.
    rewrite Hsrc in Hoff. exact Hoff. }
  destruct Hw1 as [Hsd Hp].
  apply bind_raised in H. destruct H as [H|(xref & w2 & Hq & H)].
  { rewrite (db_query_run _ w1 Hp) in H.
    destruct (hd false (db_faults w1)); inversion H; subst.
    split; [left; reflexivity|]. split; [split; assumption|exact Hs1]. }
  apply (db_query_ok _ _ _ _ Hp) in Hq. destruct Hq as (-> & -> & _).
  destruct (xref_of _ _ _ _) as [x|].
  - exfalso. apply (f_equal fst) in H. cbn [fst] in H. revert H.
    apply never_raises_on_any_error. catch.
  - apply bind_raised in H. destruct H as [H|(a & w3 & _ & H)]; [|discriminate].
    destruct (issue_series_title_outcome issue (tick w1)) as [Hsame Hattr].
    rewrite H in Hsame, Hattr. cbn [fst snd] in *. subst w'.
    split; [right; apply Hattr; reflexivity|]. split; [split; assumption|exact Hs1].
Qed.

(** X18: what can leave [update_pricing_for_issue]. Called with no
    transaction open, it either returns, with none open; or it raises a
    database error or an AttributeError from the steps of the valuation
    sub-flow that precede its [try] (resolving the Source, looking up the
    cross-reference, reading the series title), and then nothing has been
    requested from either pricing source and no transaction is open.
    Nothing else leaves it, whatever the pricing sources answer. *)
Theorem pricing_escapes_only_before_fetch (issue : Z * Issue) (grade_guess : float)
  (w : world) :
  clean w ->
  let r := update_pricing_for_issue issue grade_guess w in
  match fst r with
  | Ok _ => clean (snd r)
  | Raise e =>
      (is_SQLAlchemyError e = true \/ e = AttributeError)
      /\ clean (snd r) /\ sent (snd r) = sent w
  end.
Proof.
  intros Hw. cbv zeta. unfold update_pricing_for_issue. cbv zeta. unfold bind.
  pose proof (settles_update_gocollect_pricing issue (format_1f grade_guess) w Hw) as Hok.
  destruct (_update_gocollect_pricing issue (format_1f grade_guess) w) as [[u|e] w1] eqn:H1;
    cbn [fst snd] in *.
  - pose proof (settles_update_ebay_listings issue w1 Hok) as Hok2.
    pose proof (never_raises_update_ebay_listings issue w1) as Hth.
    destruct (_update_ebay_listings issue w1) as [[u'|e] w2]; cbn [fst snd] in *.
    + exact Hok2.
    + destruct (Hth e eq_refl).
  - apply (valuation_raised _ _ _ _ _ Hw H1).
Qed.

Example pricing_escapes_only_before_fetch_witness :
  let w := reconciled [ebay_reply [listing_full; listing_bare]] (fails_at 2) in
  let r := update_pricing_for_issue spider_issue_row 8.0%float w in
  match fst r with
  | Ok _ => clean (snd r)
  | Raise e =>
      (is_SQLAlchemyError e = true \/ e = AttributeError)
      /\ clean (snd r) /\ sent (snd r) = sent w
  end.
Proof.
  cbv zeta. apply pricing_escapes_only_before_fetch. split; vm_compute; reflexivity.
Defined.

(** X19: pricing is append-only. Every row that was durable before a call
    of [update_pricing_for_issue] is durable after it, unchanged: snapshots,
    graded prices and listings accumulate and are never overwritten. *)
Theorem pricing_only_appends (issue : Z * Issue) (grade_guess : float) (w : world) :
  session w = durable w ->
  grown_from (durable w) (durable (snd (update_pricing_for_issue issue grade_guess w))).
Proof.
  intro Hs.
  apply (keeps_update_pricing (grown_from (durable w)) (grown_from_kept (durable w))
           issue grade_guess w).
  split; [rewrite Hs|]; apply grown_from_refl.
Qed.

Example pricing_only_appends_witness :
  let w := reconciled [ebay_reply [listing_full; listing_bare]] [] in
  grown_from (durable w) (durable (snd (update_pricing_for_issue spider_issue_row 8.0%float w))).
Proof. cbv zeta. apply pricing_only_appends. vm_compute. reflexivity. Defined.

Lemma pricing_write_same_catalog (t0 : tables) (o : obj) (t : tables) (i : Z) (t' : tables) :
  pricing_write o = true -> same_catalog t0 t -> insert o t = Some (i, t') ->
  same_catalog t0 t'.
Proof.
  unfold same_catalog. intros Ho (H1 & H2 & H3) Hi. destruct o; try discriminate Ho.
  - apply insert_source in Hi. destruct Hi as (_ & _ & -> & -> & -> & _). auto.
  - cbn [insert] in Hi. inversion Hi; subst. cbn. auto.
  - cbn [insert] in Hi. inversion Hi; subst. cbn. auto.
  - cbn [insert] in Hi. destruct (_ || _); inversion Hi; subst. cbn. auto.
Qed.

(** X20: pricing stays out of the catalog tables. Called with nothing
    pending and no transaction open, [update_pricing_for_issue] leaves
    series, issue and source_xref exactly as they were, whatever the pricing
    sources answer and whether it returns or raises. *)
Theorem pricing_leaves_catalog_tables (issue : Z * Issue) (grade_guess : float)
  (w : world) :
  clean w ->
  same_catalog (durable w) (durable (snd (update_pricing_for_issue issue grade_guess w))).
Proof.
  intros [Hs Hp].
  apply (guarded_update_pricing pricing_write (same_catalog (durable w))
           (pricing_write_same_catalog (durable w)) issue grade_guess
           (fun o Ho => Ho) w).
  unfold guarded, same_catalog. rewrite Hs, Hp. cbn. auto.
Qed.

Example pricing_leaves_catalog_tables_witness :
  let w := reconciled [ebay_reply [listing_full; listing_bare]] [] in
  same_catalog (durable w)
    (durable (snd (update_pricing_for_issue spider_issue_row 8.0%float w))).
Proof.
  cbv zeta. apply pricing_leaves_catalog_tables. split; vm_compute; reflexivity.
Defined.

(** *** Valuation without a cross-reference *)

Lemma source_write_same_valuation (t0 : tables) (o : obj) (t : tables) (i : Z)
  (t' : tables) :
  source_write o = true -> same_valuation t0 t -> insert o t = Some (i, t') ->
  same_valuation t0 t'.
Proof.
  unfold same_valuation. intros Ho (H1 & H2) Hi. destruct o; try discriminate Ho.
  apply insert_source in Hi. destruct Hi as (_ & _ & _ & _ & _ & -> & -> & _). auto.
Qed.

Lemma listing_write_same_graded (t0 : tables) (o : obj) (t : tables) (i : Z)
  (t' : tables) :
  listing_write o = true -> same_graded t0 t -> insert o t = Some (i, t') ->
  same_graded t0 t'.
Proof.
  unfold same_graded. intros Ho H Hi. destruct o; try discriminate Ho.
  - apply insert_source in Hi. destruct Hi as (_ & _ & _ & _ & _ & _ & -> & _). exact H.
  - cbn [insert] in Hi. inversion Hi; subst. exact H.
  - cbn [insert] in Hi. destruct (_ || _); inversion Hi; subst. exact H.
Qed.

(** the valuation sub-flow when the issue has no valuation cross-reference *)
Lemma valuation_skipped (issue : Z * Issue) (grade_str : string) (w : world) :
  clean w ->
  valuation_xref issue (session w) = None ->
  let r := _update_gocollect_pricing issue grade_str w in
  sent (snd r) = sent w
  /\ guarded source_write (same_valuation (durable w)) (snd r).
Proof.
  intros [Hsd Hp] Hnone. cbv zeta.
  assert (Hg : guarded source_write (same_valuation (durable w)) w).
  { unfold guarded, same_valuation. rewrite Hsd, Hp. cbn. auto. }
  pose proof (guarded_get_or_create_source source_write (same_valuation (durable w))
                (source_write_same_valuation (durable w))
                "GoCollect" "https://gocollect.com" (fun o Ho => Ho) w Hg) as Hg1.
  pose proof (offline_get_or_create_source "GoCollect" "https://gocollect.com" w) as Hoff.
  unfold _update_gocollect_pricing. unfold bind.
  destruct (get_or_create_source "GoCollect" "https://gocollect.com" w)
    as [[src|e] w1] eqn:Hsrc; cbn [fst snd] in *; [|auto].
  pose proof (get_or_create_source_pending _ _ _ _ _ Hp Hsrc) as Hp1.
  assert (Hx : xref_of (fst src) "issue" (fst issue) (session w1) = None).
  { unfold valuation_xref, xref_under in Hnone.
    destruct (get_or_create_source_ok _ _ _ _ _ Hp Hsrc)
      as [(Hfound & ->)|(Hnew & _ & t & Hi & ->)]; simpl_world.
    - rewrite Hfound in Hnone. exact Hnone.
    - rewrite Hnew in Hnone. apply insert_source in Hi.
      destruct Hi as (_ & -> & _ & _ & Hxt & _).
      rewrite (xref_of_same_table _ _ _ _ _ Hxt). exact Hnone. }
  rewrite (db_query_run _ w1 Hp1).
  destruct (hd false (db_faults w1)); cbv beta iota; cbn [fst snd]; [auto|].
  rewrite Hx.
  destruct (issue_series_title_outcome issue (tick w1)) as [Hsame _].
  destruct (issue_series_title issue (tick w1)) as [[title|e] w2]; cbn [fst snd] in *;
    subst w2; auto.
Qed.

(** X21: no valuation without a cross-reference. When the issue has no
    cross-reference under the "GoCollect" Source, the valuation sub-flow
    sends no request and writes neither a snapshot nor a graded price, and
    [update_pricing_for_issue] as a whole leaves graded_price as it was:
    whatever the listings sub-flow does, it never writes a GradedPrice. *)
Theorem no_valuation_without_xref (issue : Z * Issue) (grade_guess : float) (w : world) :
  clean w ->
  valuation_xref issue (session w) = None ->
  (let r := _update_gocollect_pricing issue (format_1f grade_guess) w in
   sent (snd r) = sent w /\ same_valuation (durable w) (durable (snd r)))
  /\ graded_price (durable (snd (update_pricing_for_issue issue grade_guess w)))
     = graded_price (durable w).
Proof.
  intros Hw Hnone.
  destruct (valuation_skipped issue (format_1f grade_guess) w Hw Hnone)
    as (Hsent & Hs & Hd & Hp).
  split; [cbv zeta; auto|].
  unfold update_pricing_for_issue. cbv zeta. unfold bind.
  destruct (_update_gocollect_pricing issue (format_1f grade_guess) w) as [[u|e] w1];
    cbn [fst snd] in *; [|apply Hd].
  apply (guarded_update_ebay_listings listing_write (same_graded (durable w))
           (listing_write_same_graded (durable w)) issue (fun o Ho => Ho) w1).
  unfold guarded, same_graded. split; [apply Hs|]. split; [apply Hd|].
  rewrite forallb_forall in *. intros o Ho. specialize (Hp o Ho).
  destruct o; try discriminate Hp. reflexivity.
Qed.

Example no_valuation_without_xref_witness :
  let w := reconciled [ebay_reply [listing_full; listing_bare]] [] in
  (let r := _update_gocollect_pricing spider_issue_row (format_1f 8.0%float) w in
   sent (snd r) = sent w /\ same_valuation (durable w) (durable (snd r)))
  /\ graded_price (durable (snd (update_pricing_for_issue spider_issue_row 8.0%float w)))
     = graded_price (durable w).
Proof.
  cbv zeta. apply no_valuation_without_xref; [split|]; vm_compute; reflexivity.
Defined.

(** *** The conservative value *)

Lemma half_even_close (num den : Z) :
  0 < den -> 2 * Z.abs (num - half_even num den * den) <= den.
Proof.
  intro Hden. unfold half_even.
  pose proof (Z.div_mod num den ltac:(lia)) as Hdm.
  pose proof (Z.mod_pos_bound num den Hden) as Hm.
  destruct (2 * (num mod den) <? den) eqn:E1;
    [apply Z.ltb_lt in E1; nia|apply Z.ltb_ge in E1].
  destruct (den <? 2 * (num mod den)) eqn:E2;
    [apply Z.ltb_lt in E2; nia|apply Z.ltb_ge in E2].
  destruct (Z.even (num / den)); nia.
Qed.

Lemma times_denominator (k : Z) (m : positive) (e : Z) : 0 < snd (times k m e).
Proof. unfold times. cbn [snd]. apply Z.pow_pos_nonneg; lia. Qed.

(** rounding to the cent moves an amount by half a cent at most *)
Lemma cents_within_half_cent (x : float) (c : Z) :
  cents x = Some c -> within_half_cent c x.
Proof.
  unfold cents, within_half_cent. destruct (Prim2SF x) as [s|s| |s m e]; try discriminate.
  - intro H. inversion H. reflexivity.
  - pose proof (times_denominator 100 m e) as Hden.
    destruct (times 100 m e) as [num den]. cbn [snd] in Hden.
    pose proof (half_even_close num den Hden) as Hclose.
    intro H. inversion H; subst c. destruct s; lia.
Qed.

Lemma cents_of_amount (x : float) : is_amount x = true <-> exists c, cents x = Some c.
Proof.
  unfold is_amount, cents. destruct (Prim2SF x) as [s|s| |s m e].
  - split; eauto.
  - split; [discriminate|intros [c H]; discriminate H].
  - split; [discriminate|intros [c H]; discriminate H].
  - destruct (times 100 m e). split; eauto.
Qed.

Lemma py_float_value (v : pyval) (w w' : world) (x : float) :
  py_float v w = (Ok x, w') -> value_of (py_float v) x.
Proof.
  unfold py_float, value_of. destruct v; cbv zeta; try discriminate.
  - intro H. inversion H. reflexivity.
  - destruct (PrimFloat.is_infinity (float_of_Z z)); [discriminate|].
    intro H. inversion H. reflexivity.
  - intro H. inversion H. reflexivity.
  - destruct (float_of_str s); [|discriminate]. intro H. inversion H. reflexivity.
Qed.

Lemma on_any_error_durable (m : M unit) (w : world) :
  durable (snd (try_except m on_any_error w)) = durable (snd (m w)).
Proof.
  unfold try_except, on_any_error. destruct (m w) as [[a|e] w1]; [reflexivity|].
  destruct (is_SQLAlchemyError e); [reflexivity|].
  destruct (is_Exception e); reflexivity.
Qed.

Lemma valued_same (grade_str : string) (rows rows' : table GradedPrice) :
  rows' = rows -> valued grade_str rows rows'.
Proof. intro H. left. exact H. Qed.

Lemma title_read_durable (issue : Z * Issue) (k : option string -> M unit) (w : world) :
  (forall t, k t = ret tt) ->
  durable (snd (bind (issue_series_title issue) k w)) = durable w.
Proof.
  intro Hk. unfold bind.
  destruct (issue_series_title_outcome issue w) as [Hsame _].
  destruct (issue_series_title issue w) as [[t|e] w1]; cbn [snd] in *; subst w1;
    [rewrite Hk|]; reflexivity.
Qed.

(** the valuation sub-flow writes one graded price at most, and that one
    from the value it was given *)
Lemma valuation_rows (issue : Z * Issue) (grade_str : string) (w : world) :
  clean w ->
  valued grade_str (graded_price (durable w))
    (graded_price (durable (snd (_update_gocollect_pricing issue grade_str w)))).
Proof.
  intros [Hsd Hp].
  assert (Hg : guarded source_write (same_valuation (durable w)) w).
  { unfold guarded, same_valuation. rewrite Hsd, Hp. cbn. auto. }
  pose proof (guarded_get_or_create_source source_write (same_valuation (durable w))
                (source_write_same_valuation (durable w))
                "GoCollect" "https://gocollect.com" (fun o Ho => Ho) w Hg) as Hg1.
  unfold _update_gocollect_pricing. unfold bind at 1.
  destruct (get_or_create_source "GoCollect" "https://gocollect.com" w)
    as [[src|e] w1] eqn:Hsrc; cbn [fst snd] in *.
  2:{ apply valued_same. apply Hg1. }
  pose proof (get_or_create_source_pending _ _ _ _ _ Hp Hsrc) as Hp1.
  destruct Hg1 as ((_ & Hs1) & (_ & Hd1) & _).
  unfold bind at 1. rewrite (db_query_run _ w1 Hp1).
  destruct (hd false (db_faults w1)); cbv beta iota.
  { apply valued_same. exact Hd1. }
  destruct (xref_of (fst src) "issue" (fst issue) (session w1)) as [x|].
  2:{ apply valued_same. rewrite title_read_durable by reflexivity. exact Hd1. }
  rewrite on_any_error_durable.
  pose proof (keeps_db_get_gocollect_pricing (SourceXref_external_id (snd x)) grade_str
                (tick w1)) as Hdb.
  unfold bind at 1.
  destruct (get_gocollect_pricing (SourceXref_external_id (snd x)) grade_str (tick w1))
    as [[pricing_data|e] w2]; cbn [snd] in Hdb; destruct Hdb as (Hf2 & Hd2 & Hs2 & Hp2);
    simpl_world.
  2:{ apply valued_same. cbn [snd]. congruence. }
  destruct (truthy pricing_data); cbn [negb].
  2:{ apply valued_same. unfold ret. cbn [snd]. congruence. }
  unfold bind at 1.
  destruct (py_get pricing_data "value" PNone w2) as [[fmv|e] w3] eqn:Hget;
    apply (pure_run _ _ _ _ (pure_py_get _ _ _)) in Hget; subst w3.
  2:{ apply valued_same. cbn [snd]. congruence. }
  destruct (truthy fmv) eqn:Hfmv; cbn [negb].
  2:{ apply valued_same. rewrite title_read_durable by reflexivity. congruence. }
  rewrite (bind_run _ _ _ _ _ (db_add_run _ _)).
  unfold bind at 1.
  match goal with
  | |- context [db_flush ?v] =>
      rewrite (db_flush_one (NewPriceSnapshot
                 {| PriceSnapshot_issue_id := fst issue;
                    PriceSnapshot_source_id := fst src;
                    PriceSnapshot_payload := pricing_data |}) v)
        by (simpl_world; rewrite Hp2, Hp1; reflexivity)
  end.
  simpl_world.
  destruct (hd false (db_faults w2)).
  { apply valued_same. cbn [snd]. simpl_world. congruence. }
  destruct (insert_price_snapshot
              {| PriceSnapshot_issue_id := fst issue;
                 PriceSnapshot_source_id := fst src;
                 PriceSnapshot_payload := pricing_data |} (session w2))
    as (t3 & Hins & _ & _ & _ & _ & _ & I6 & _).
  rewrite Hins. cbn [new_id last].
  unfold bind at 1.
  match goal with
  | |- context [py_float fmv ?v] =>
      destruct (py_float fmv v) as [[value|e] w4] eqn:Hfloat;
        pose proof (pure_run _ _ _ _ (pure_py_float _) Hfloat) as Hw4; subst w4
  end.
  2:{ apply valued_same. cbn [snd]. simpl_world. congruence. }
  apply py_float_value in Hfloat.
  rewrite (bind_run _ _ _ _ _ (db_add_run _ _)).
  unfold bind at 1.
  match goal with
  | |- context [db_commit ?v] =>
      rewrite (db_commit_one (NewGradedPrice
                 (valuation_row (next_id (price_snapshot (session w2))) grade_str fmv value)) v)
        by reflexivity
  end.
  simpl_world.
  destruct (hd false (tl (db_faults w2))).
  { apply valued_same. cbn [snd]. simpl_world. congruence. }
  cbn [insert].
  destruct (hd false (tl (tl (db_faults w2)))).
  { apply valued_same. cbn [snd]. simpl_world. congruence. }
  rewrite title_read_durable by reflexivity. simpl_world. cbn [graded_price].
  right. exists (next_id (price_snapshot (session w2))), fmv, value.
  split; [|split; [exact Hfmv|exact Hfloat]].
  rewrite I6, Hs2. simpl_world. rewrite Hs1. reflexivity.
Qed.

Lemma in_up_to (n : Z) : 0 <= n <= 10000 -> In n (up_to 10000).
Proof.
  intro H. unfold up_to. apply in_map_iff. exists (Z.to_nat n).
  split; [apply Z2Nat.id; lia|]. apply in_seq. lia.
Qed.




(** *** A valuation that is stored *)

Lemma field_truthy (d : pyval) (k : string) (w : world) :
  truthy (field d k) = true ->
  truthy d = true /\ py_get d k PNone w = (Ok (field d k), w).
Proof.
  destruct d as [| | | | | |kv]; cbn; try discriminate.
  destruct kv as [|p rest]; [cbn; discriminate|]. intros _. split; reflexivity.
Qed.

(** X22: a valuation is stored with its conservative value. When the
    issue has a cross-reference under the "GoCollect" Source, the pricing
    source answers with an object whose [value] is truthy and converts to
    the float [value], and no persistence fault occurs, the valuation
    sub-flow commits one PriceSnapshot holding the whole answer, and one
    GradedPrice that refers to it, with the grade label it was called
    with, the fair market value as received, and as conservative value the
    binary64 product of [value] by 0.8. *)
Theorem valuation_is_persisted (issue : Z * Issue) (s : Z * Series) (src : Z * Source)
  (x : Z * SourceXref) (grade_str : string) (pricing_data : pyval) (value : float)
  (w w1 : world) :
  pending w = [] ->
  fault_free w ->
  source_named "GoCollect" (session w) = Some src ->
  xref_of (fst src) "issue" (fst issue) (session w) = Some x ->
  find_by_id (Issue_series_id (snd issue)) (series (session w)) = Some s ->
  get_gocollect_pricing (SourceXref_external_id (snd x)) grade_str w
  = (Ok pricing_data, w1) ->
  truthy (field pricing_data "value") = true ->
  value_of (py_float (field pricing_data "value")) value ->
  let r := _update_gocollect_pricing issue grade_str w in
  let snapshot_id := next_id (price_snapshot (session w)) in
  fst r = Ok tt
  /\ price_snapshot (durable (snd r))
     = (price_snapshot (session w)
        ++ [(snapshot_id, valuation_snapshot issue src pricing_data)])%list
  /\ graded_price (durable (snd r))
     = (graded_price (session w)
        ++ [(next_id (graded_price (session w)),
             valuation_row snapshot_id grade_str (field pricing_data "value") value)])%list.
Proof.
  intros Hp Hff Hsrc Hxref Hseries Hfetch Htruthy Hvalue. cbv zeta.
  assert (Hf0 : hd false (db_faults w) = false) by (rewrite Hff; reflexivity).
  pose proof (tick_fault_free w Hff) as Htick.
  assert (Hdb : same_db w w1).
  { pose proof (keeps_db_get_gocollect_pricing (SourceXref_external_id (snd x))
                  grade_str w) as K.
    rewrite Hfetch in K. exact K. }
  destruct Hdb as (Hf1 & Hd1 & Hs1 & Hp1).
  destruct (field_truthy pricing_data "value" w1 Htruthy) as [Hdata Hget].
  set (sid := next_id (price_snapshot (session w))).
  set (snap := valuation_snapshot issue src pricing_data).
  destruct (insert_price_snapshot snap (session w1))
    as (t2 & Hins & I1 & _ & I3 & _ & _ & I6 & _).
  assert (Hsid : next_id (price_snapshot (session w1)) = sid).
  { unfold sid. congruence. }
  rewrite Hsid in Hins, I1.
  set (row := valuation_row sid grade_str (field pricing_data "value") value).
  assert (Hrun : exists wF,
             _update_gocollect_pricing issue grade_str w = (Ok tt, wF)
             /\ price_snapshot (durable wF) = price_snapshot t2
             /\ graded_price (durable wF)
                = (graded_price t2 ++ [(next_id (graded_price t2), row)])%list).
  { unfold _update_gocollect_pricing.
    rewrite (bind_run _ _ _ _ _ (get_or_create_source_found _ _ _ _ Hp Hf0 Hsrc)).
    rewrite Htick. unfold bind at 1. rewrite (db_query_run _ w Hp), Hf0, Htick, Hxref.
    eexists. split.
    - apply try_except_run.
      rewrite (bind_run _ _ _ _ _ Hfetch). rewrite Hdata. cbn [negb].
      rewrite (bind_run _ _ _ _ _ Hget). rewrite Htruthy. cbn [negb].
      rewrite (bind_run _ _ _ _ _ (db_add_run _ _)).
      unfold bind at 1. fold (valuation_snapshot issue src pricing_data). fold snap.
      rewrite (db_flush_one (NewPriceSnapshot snap))
        by (simpl_world; rewrite Hp1, Hp; reflexivity).
      simpl_world. rewrite Hf1, Hff. cbn [hd tl]. rewrite Hins.
      cbn [new_id last].
      rewrite (bind_run _ _ _ _ _ (Hvalue _)).
      rewrite (bind_run _ _ _ _ _ (db_add_run _ _)).
      fold (valuation_row sid grade_str (field pricing_data "value") value). fold row.
      unfold bind at 1.
      rewrite (db_commit_one (NewGradedPrice row)) by reflexivity.
      simpl_world. cbn [hd tl insert].
      match goal with
      | |- bind (issue_series_title issue) _ ?v = _ =>
          assert (Htitle : issue_series_title issue v = (Ok (Series_title (snd s)), v))
            by (unfold issue_series_title, bind, gets; simpl_world; cbn [series];
                rewrite I3, Hs1, Hseries; reflexivity);
          rewrite (bind_run _ _ _ _ _ Htitle)
      end.
      reflexivity.
    - simpl_world. cbn [price_snapshot graded_price]. auto. }
  destruct Hrun as (wF & -> & HF1 & HF2). cbn [fst snd].
  split; [reflexivity|]. split.
  - rewrite HF1, I1, Hs1. reflexivity.
  - rewrite HF2, I6, Hs1. reflexivity.
Qed.

Example valuation_is_persisted_witness :
  let pricing_data := PDict [("value", PInt 150); ("grade", PStr "8.0")] in
  let w := cross_referenced [Response 200 pricing_data] in
  let src := (2, {| Source_name := "GoCollect"; Source_url := "https://gocollect.com" |}) in
  let r := _update_gocollect_pricing spider_issue_row "8.0" w in
  let snapshot_id := next_id (price_snapshot (session w)) in
  fst r = Ok tt
  /\ price_snapshot (durable (snd r))
     = (price_snapshot (session w)
        ++ [(snapshot_id, valuation_snapshot spider_issue_row src pricing_data)])%list
  /\ graded_price (durable (snd r))
     = (graded_price (session w)
        ++ [(next_id (graded_price (session w)),
             valuation_row snapshot_id "8.0" (field pricing_data "value") 150%float)])%list.
Proof.
  cbv zeta.
  apply (valuation_is_persisted spider_issue_row spider_series
           (2, {| Source_name := "GoCollect"; Source_url := "https://gocollect.com" |})
           (3, {| SourceXref_source_id := 2; SourceXref_entity_type := "issue";
                  SourceXref_entity_id := 1; SourceXref_external_id := "93358" |})
           "8.0" (PDict [("value", PInt 150); ("grade", PStr "8.0")]) 150%float
           (cross_referenced
              [Response 200 (PDict [("value", PInt 150); ("grade", PStr "8.0")])])
           (snd (get_gocollect_pricing "93358" "8.0"
                   (cross_referenced
                      [Response 200 (PDict [("value", PInt 150); ("grade", PStr "8.0")])]))));
    try (intro w0); vm_compute; reflexivity.
Defined.

(** *** No listing *)

(** X23: no listing, no row. When the marketplace search yields nothing
    (no credential, a failed fetch, no [itemSummaries], an empty list),
    [_update_ebay_listings] returns and the database is exactly as before:
    unlike the valuation sub-flow, it does not even create its Source row. *)
Theorem no_listing_writes_nothing (issue : Z * Issue) (w : world) :
  clean w ->
  (forall s listings,
      find_by_id (Issue_series_id (snd issue)) (series (session w)) = Some s ->
      fst (search_ebay_listings (search_query_of (Series_title (snd s)) issue) w)
      = Ok listings ->
      truthy listings = false) ->
  let r := _update_ebay_listings issue w in
  fst r = Ok tt /\ durable (snd r) = durable w /\ clean (snd r).
Proof.
  intros [Hsd Hp] Hnone. cbv zeta.
  assert (Hrun : exists w',
             _update_ebay_listings issue w = (Ok tt, w')
             /\ durable w' = durable w /\ clean w').
  { unfold _update_ebay_listings, try_except. unfold bind at 1.
    unfold issue_series_title, bind at 1, gets.
    destruct (find_by_id (Issue_series_id (snd issue)) (series (session w)))
      as [s|] eqn:Hs.
    2:{ eexists. split; [reflexivity|]. unfold clean. cbn. auto. }
    cbn [ret]. fold (search_query_of (Series_title (snd s)) issue).
    unfold bind at 1.
    pose proof (keeps_db_search_ebay_listings
                  (search_query_of (Series_title (snd s)) issue) w) as (_ & Hd & Hss & Hpp).
    pose proof (search_ebay_listings_raised
                  (search_query_of (Series_title (snd s)) issue) w) as Hraised.
    specialize (Hnone s).
    destruct (search_ebay_listings (search_query_of (Series_title (snd s)) issue) w)
      as [[listings|e] w1]; cbn [fst snd] in *.
    - rewrite (Hnone listings eq_refl eq_refl). eexists. split; [reflexivity|].
      unfold clean. rewrite Hd, Hss, Hpp. auto.
    - rewrite (Hraised e eq_refl). eexists. split; [reflexivity|].
      unfold clean. cbn. auto. }
  destruct Hrun as (w' & -> & Hd & Hc). auto.
Qed.

Example no_listing_writes_nothing_witness :
  let w := reconciled [Response 200 (PDict [("total", PInt 0)])] [] in
  let r := _update_ebay_listings spider_issue_row w in
  fst r = Ok tt /\ durable (snd r) = durable w /\ clean (snd r).
Proof.
  apply (no_listing_writes_nothing spider_issue_row
           (reconciled [Response 200 (PDict [("total", PInt 0)])] [])).
  - split; reflexivity.
  - intros s listings Hs H. vm_compute in Hs. inversion Hs; subst s.
    vm_compute in H. inversion H. reflexivity.
Defined.

(** *** An answer without a usable value *)

(** the [try] block of the valuation sub-flow, when the answer has no
    usable value: whatever it does, nothing becomes durable *)
Lemma valuation_try_unusable (issue : Z * Issue) (gocollect_source : Z * Source)
  (x : Z * SourceXref) (grade_str : string) (w : world) :
  (forall data,
      fst (get_gocollect_pricing (SourceXref_external_id (snd x)) grade_str w) = Ok data ->
      truthy (field data "value") = false) ->
  durable
    (snd (try_except
            (pricing_data <- get_gocollect_pricing (SourceXref_external_id (snd x))
                               grade_str ;;
             if negb (truthy pricing_data) then ret tt
             else
               fmv <- py_get pricing_data "value" PNone ;;
               if negb (truthy fmv) then issue_series_title issue ;; ret tt
               else
                 db_add (NewPriceSnapshot
                           {| PriceSnapshot_issue_id := fst issue;
                              PriceSnapshot_source_id := fst gocollect_source;
                              PriceSnapshot_payload := pricing_data |}) ;;
                 ids <- db_flush ;;
                 let snapshot_id := new_id ids in
                 value <- py_float fmv ;;
                 let conservative_value := (value * 0.8)%float in
                 db_add (NewGradedPrice
                           {| GradedPrice_snapshot_id := snapshot_id;
                              GradedPrice_grade_label := grade_str;
                              GradedPrice_fmv_usd := fmv;
                              GradedPrice_conservative_value_usd :=
                                PFloat conservative_value |}) ;;
                 db_commit ;;
                 issue_series_title issue ;;
                 ret tt)
            on_any_error w))
  = durable w.
Proof.
  intro Hnone. unfold try_except. unfold bind at 1.
  pose proof (keeps_db_get_gocollect_pricing (SourceXref_external_id (snd x)) grade_str w)
    as (_ & Hd & _).
  destruct (get_gocollect_pricing (SourceXref_external_id (snd x)) grade_str w)
    as [[data|e] w1]; cbn [fst snd] in *.
  2:{ unfold on_any_error. destruct (is_SQLAlchemyError e); [exact Hd|].
      destruct (is_Exception e); exact Hd. }
  specialize (Hnone data eq_refl).
  destruct (truthy data); cbn [negb]; [|exact Hd].
  destruct data as [| | | | | |kv]; try exact Hd.
  unfold bind at 1. cbn [py_get ret]. cbn [field] in Hnone. rewrite Hnone. cbn [negb].
  unfold bind.
  destruct (issue_series_title_outcome issue w1) as [Hsame Hraised].
  destruct (issue_series_title issue w1) as [[title|e] w2]; cbn [fst snd] in *; subst w2.
  - exact Hd.
  - rewrite (Hraised e eq_refl). exact Hd.
Qed.

(** X24: an answer without a usable value stores nothing. When every
    answer that the pricing source can give in the present state of the
    cache, the network and the environment lacks a truthy [value] (it is
    empty, not an object, or its value is missing, null, 0 or empty),
    [_update_gocollect_pricing] writes neither a PriceSnapshot nor a
    GradedPrice, whatever else happens: the raw answer is not kept. *)
Theorem unusable_valuation_stores_nothing (issue : Z * Issue) (grade_str : string)
  (w : world) :
  clean w ->
  (forall w0 comic_id data,
      environ w0 = environ w -> api_cache w0 = api_cache w -> wire w0 = wire w ->
      fst (get_gocollect_pricing comic_id grade_str w0) = Ok data ->
      truthy (field data "value") = false) ->
  same_valuation (durable w) (durable (snd (_update_gocollect_pricing issue grade_str w))).
Proof.
  intros [Hsd Hp] Hnone.
  assert (Hg : guarded source_write (same_valuation (durable w)) w).
  { unfold guarded, same_valuation. rewrite Hsd, Hp. cbn. auto. }
  pose proof (guarded_get_or_create_source source_write (same_valuation (durable w))
                (source_write_same_valuation (durable w))
                "GoCollect" "https://gocollect.com" (fun o Ho => Ho) w Hg) as Hg1.
  unfold _update_gocollect_pricing. unfold bind at 1.
  destruct (get_or_create_source "GoCollect" "https://gocollect.com" w)
    as [[src|e] w1] eqn:Hsrc; cbn [fst snd] in *; [|apply Hg1].
  pose proof (get_or_create_source_pending _ _ _ _ _ Hp Hsrc) as Hp1.
  assert (Hnet : environ w1 = environ w /\ api_cache w1 = api_cache w /\ wire w1 = wire w).
  { destruct (get_or_create_source_ok _ _ _ _ _ Hp Hsrc)
      as [(_ & ->)|(_ & _ & t & _ & ->)]; cbn; auto. }
  destruct Hnet as (Henv & Hcache & Hwire).
  unfold bind at 1. rewrite (db_query_run _ w1 Hp1).
  destruct (hd false (db_faults w1)); cbv beta iota; cbn [fst snd]; [apply Hg1|].
  destruct (xref_of (fst src) "issue" (fst issue) (session w1)) as [x|].
  - rewrite valuation_try_unusable; [apply Hg1|].
    intros data Hdata. apply (Hnone (tick w1) (SourceXref_external_id (snd x)) data);
      simpl_world; assumption.
  - unfold bind.
    destruct (issue_series_title_outcome issue (tick w1)) as [Hsame _].
    destruct (issue_series_title issue (tick w1)) as [[title|e] w2]; cbn [fst snd] in *;
      subst w2; apply Hg1.
Qed.

Example unusable_valuation_stores_nothing_witness :
  let w := cross_referenced [Response 200 (PDict [("value", PInt 0)])] in
  same_valuation (durable w) (durable (snd (_update_gocollect_pricing spider_issue_row
                                             "8.0" w))).
Proof.
  apply unusable_valuation_stores_nothing.
  - split; reflexivity.
  - intros [e c wr sn sl fs d s p] comic_id data He Hc Hw H.
    cbn [environ api_cache wire] in He, Hc, Hw. subst e c wr.
    vm_compute in H. inversion H. reflexivity.
Defined.
(* ------------------------------------------------------------------ *)
(** ** The callers *)

(** *** The grading rule *)

Lemma ltb_leb (x y : float) : (x <? y)%float = true -> (x <=? y)%float = true.
Proof.
  rewrite ltb_spec, leb_spec. unfold SFltb, SFleb.
  destruct (SFcompare (Prim2SF x) (Prim2SF y)) as [[| |]|]; congruence.
Qed.

Lemma deductions_get_number (d : string) : zero_or_float (deductions_get d).
Proof.
  unfold deductions_get, zero_or_float.
  repeat match goal with |- context [if ?c then _ else _] => destruct c end; eauto.
Qed.

Lemma py_add_number (a b : pyval) (w : world) :
  zero_or_float a -> zero_or_float b ->
  exists c, py_add a b w = (Ok c, w) /\ zero_or_float c
            /\ ((exists f, a = PFloat f) -> exists g, c = PFloat g).
Proof.
  unfold zero_or_float.
  intros [->|[f ->]] [->|[g ->]]; eexists; (split; [vm_compute; reflexivity|]);
    split; eauto; intros [x Hx]; try discriminate Hx; eauto.
Qed.

Lemma py_sum_number (items : list pyval) :
  forall total w,
    zero_or_float total -> Forall zero_or_float items ->
    exists t, py_sum total items w = (Ok t, w) /\ zero_or_float t.
Proof.
  induction items as [|x rest IH]; intros total w Ht Hitems; cbn [py_sum].
  - exists total. auto.
  - inversion Hitems as [|? ? Hx Hrest]; subst.
    destruct (py_add_number total x w Ht Hx) as (c & Hadd & Hc & _).
    destruct (IH c w Hc Hrest) as (t & Hsum & Hnum).
    exists t. split; [|exact Hnum].
    unfold bind. rewrite Hadd. exact Hsum.
Qed.

Lemma grade_of_run (defects : string) (w : world) :
  exists grade, grade_of (PStr defects) w = (Ok grade, w)
                /\ (0 <=? grade)%float = true.
Proof.
  unfold grade_of.
  destruct (py_sum_number (map (fun d => deductions_get (strip d)) (split ","%char defects))
              (PInt 0) w (or_introl eq_refl)) as (t & Hsum & Ht).
  { apply Forall_forall. intros x Hx. apply in_map_iff in Hx.
    destruct Hx as (d & <- & _). apply deductions_get_number. }
  destruct (py_add_number (PFloat 10.0%float) t w (or_intror (ex_intro _ _ eq_refl)) Ht)
    as (c & Hadd & _ & Hfloat).
  destruct (Hfloat (ex_intro _ _ eq_refl)) as [g ->].
  exists (if (0.0 <? g)%float then g else 0.0%float). split.
  - unfold bind at 1. rewrite Hsum. unfold bind at 1. rewrite Hadd. reflexivity.
  - destruct (0.0 <? g)%float eqn:E; [apply ltb_leb, E|reflexivity].
Qed.

(** X25: a grade is never negative. For every defects text, the grading
    rule of both drivers returns a float that is at least 0.0 (so not a
    NaN either); it never raises and changes nothing. *)
Theorem grade_is_never_negative (defects : string) (w : world) :
  exists grade,
    apply_grading_rules (PStr defects) w = (Ok grade, w)
    /\ tool_calculate_grade (PStr defects) w = (Ok grade, w)
    /\ (0 <=? grade)%float = true.
Proof.
  destruct (grade_of_run defects w) as (grade & Hrun & Hpos).
  exists grade. auto.
Qed.

(** *** One image of the batch *)

Lemma pure_py_contains needle v : pure (py_contains needle v).
Proof. unfold py_contains. frame. Qed.

#[local] Hint Resolve pure_py_contains : frames.

Lemma pure_process_comic_image_mock v : pure (process_comic_image_mock v).
Proof. unfold process_comic_image_mock. frame. Qed.

Lemma pure_tool_analyze_image v : pure (tool_analyze_image v).
Proof. unfold tool_analyze_image. frame. Qed.

Lemma pure_py_add a b : pure (py_add a b).
Proof. unfold py_add. frame. Qed.

#[local] Hint Resolve pure_py_add : frames.

Lemma pure_py_sum items : forall total, pure (py_sum total items).
Proof. induction items as [|x rest IH]; intro total; cbn [py_sum]; frame. Qed.

#[local] Hint Resolve pure_py_sum : frames.

Lemma pure_grade_of v : pure (grade_of v).
Proof. unfold grade_of, max_0. frame. Qed.

#[local] Hint Resolve pure_process_comic_image_mock pure_tool_analyze_image pure_grade_of
  : frames.

Lemma settles_update_pricing i g : settles (update_pricing_for_issue i g).
Proof.
  unfold update_pricing_for_issue. cbv zeta.
  apply settles_bind; [apply settles_update_gocollect_pricing|intros _].
  apply settles_update_ebay_listings.
Qed.

Lemma settles_process_single_comic image_file : settles (process_single_comic image_file).
Proof.
  unfold process_single_comic.
  apply settles_bind; [apply settles_of_pure; frame|intros _].
  apply settles_try_except.
  - apply settles_bind; [apply settles_of_pure; frame|intros image_name].
    apply settles_bind; [apply settles_of_pure; frame|intros vision_data].
    apply settles_bind; [apply settles_reconcile|intros [found|]]; [|apply settles_ret].
    apply settles_bind; [apply settles_of_pure, pure_grade_of|].
    intros grade_guess. apply settles_update_pricing.
  - intros e h H. unfold on_unexpected_error in H.
    destruct (is_Exception e); inversion H; subst h. apply commits_db_rollback.
Qed.

Lemma catches_of_never {A : Type} (m : M A) : never_raises m -> throws catchable m.
Proof. apply throws_weaken. intros e []. Qed.

Lemma never_raises_grade_of (defects : string) : never_raises (grade_of (PStr defects)).
Proof.
  intros w e H. destruct (grade_of_run defects w) as (grade & Hrun & _).
  rewrite Hrun in H. discriminate H.
Qed.

Lemma catches_py_contains needle v : throws catchable (py_contains needle v).
Proof. unfold py_contains. catch_cases. Qed.

#[local] Hint Resolve catches_py_contains : catches.

Lemma catches_process_comic_image_mock v : throws catchable (process_comic_image_mock v).
Proof. unfold process_comic_image_mock. catch. Qed.

Lemma catches_update_pricing i g : throws catchable (update_pricing_for_issue i g).
Proof.
  unfold update_pricing_for_issue. cbv zeta. apply throws_bind.
  - unfold _update_gocollect_pricing. catch.
  - intros _. apply catches_of_never, never_raises_update_ebay_listings.
Qed.

Lemma never_raises_guarded_steps image_file : never_raises (guarded_steps image_file).
Proof.
  unfold guarded_steps. apply throws_caught.
  - apply throws_bind; [apply catches_py_getitem|intros image_name].
    apply throws_bind; [apply catches_process_comic_image_mock|intros vision_data].
    apply throws_bind; [apply catches_of_never, never_raises_reconcile|].
    intros [found|]; [|apply throws_ret].
    apply throws_bind; [apply catches_of_never, never_raises_grade_of|intros grade_guess].
    apply catches_update_pricing.
  - unfold catchable, on_unexpected_error. intros e ->. discriminate.
  - intros e h H. unfold on_unexpected_error in H.
    destruct (is_Exception e); inversion H; subst h. apply throws_db_rollback.
Qed.

Lemma process_single_comic_named (image_file : pyval) (w : world) :
  has_name image_file = true ->
  process_single_comic image_file w = guarded_steps image_file w.
Proof.
  intro Hn. unfold process_single_comic, guarded_steps. unfold bind at 1.
  destruct image_file as [| | | | | |kv]; try discriminate Hn. cbn in Hn |- *.
  destruct (assoc "name" kv); [reflexivity|discriminate Hn].
Qed.

(** X26: one image never stops the batch. [process_single_comic] lets no
    exception out once it has read the name of the image: what
    reconciliation, grading or pricing raise, the database errors that
    [update_pricing_for_issue] lets escape included, is caught and the
    session rolled back. Only the lookup of ["name"] in its first line can
    raise, before anything is done; for an image that has a name the
    function returns. Called with no transaction open, it leaves none
    open. *)
Theorem process_single_comic_contains_errors (image_file : pyval) (w : world) :
  let r := process_single_comic image_file w in
  (forall e, fst r = Raise e ->
     fst (py_getitem image_file "name" w) = Raise e /\ snd r = w)
  /\ (has_name image_file = true -> fst r = Ok tt)
  /\ (clean w -> clean (snd r)).
Proof.
  cbv zeta.
  assert (Hraise : forall e, fst (process_single_comic image_file w) = Raise e ->
     fst (py_getitem image_file "name" w) = Raise e
     /\ snd (process_single_comic image_file w) = w).
  { intros e He.
    destruct (process_single_comic image_file w) as [r w'] eqn:Hrun.
    cbn [fst snd] in *. subst r. unfold process_single_comic in Hrun.
    apply bind_raised in Hrun. destruct Hrun as [Hget|(a & w1 & Hget & Hbody)].
    - rewrite Hget. split; [reflexivity|].
      eapply pure_run; [apply pure_py_getitem|exact Hget].
    - exfalso. apply (never_raises_guarded_steps image_file w1 e).
      unfold guarded_steps. rewrite Hbody. reflexivity. }
  split; [exact Hraise|]. split.
  - intros Hname. rewrite (process_single_comic_named _ _ Hname).
    destruct (never_raises_run _ w (never_raises_guarded_steps image_file)) as [[] Hr].
    exact Hr.
  - intros Hw.
    pose proof (settles_process_single_comic image_file w Hw) as Hs.
    unfold closed_if_ok in Hs.
    destruct (fst (process_single_comic image_file w)) as [u|e] eqn:E; [exact Hs|].
    destruct (Hraise e eq_refl) as [_ ->]. exact Hw.
Qed.

Example process_single_comic_contains_errors_witness :
  let image_file := PDict [("id", PStr "sample_comics/Batman_1.jpg");
                           ("name", PStr "Batman_1.jpg")] in
  let r := process_single_comic image_file (fresh [] (fails_at 2)) in
  fst r = Ok tt /\ clean (snd r).
Proof.
  cbv zeta.
  destruct (process_single_comic_contains_errors
              (PDict [("id", PStr "sample_comics/Batman_1.jpg");
                      ("name", PStr "Batman_1.jpg")])
              (fresh [] (fails_at 2))) as (_ & Hok & Hclean).
  split; [apply Hok; reflexivity|].
  apply Hclean. split; reflexivity.
Defined.

(** X27: the batch runs to its end. The loop of [main] over image files
    that each carry a name returns: it lets no exception out, whatever the
    catalog, the pricing sources and the database do for any of the
    images; started with no transaction open, it leaves none open. *)
Theorem batch_runs_to_its_end (image_files : list pyval) :
  forallb has_name image_files = true ->
  forall w,
    let r := process_all image_files w in
    fst r = Ok tt /\ (clean w -> clean (snd r)).
Proof.
  induction image_files as [|file rest IH]; intros Hnames w; cbv zeta.
  - cbn. auto.
  - cbn [forallb] in Hnames. apply andb_true_iff in Hnames. destruct Hnames as [Hn Hrest].
    cbn [process_all]. unfold bind.
    pose proof (settles_process_single_comic file w) as Hsettles.
    destruct (never_raises_run _ w (never_raises_guarded_steps file)) as [[] Hr].
    rewrite <- (process_single_comic_named _ _ Hn) in Hr.
    destruct (process_single_comic file w) as [[u|e] w1]; cbn [fst snd] in *;
      [|discriminate Hr].
    destruct (IH Hrest w1) as [Hok Hc]. split; [exact Hok|].
    intros Hw. apply Hc, Hsettles, Hw.
Qed.

Example batch_runs_to_its_end_witness :
  let image_files := [PDict [("id", PStr "sample_comics/Batman_1.jpg");
                             ("name", PStr "Batman_1.jpg")];
                      PDict [("id", PStr "sample_comics/Muse_1.png");
                             ("name", PStr "Muse_1.png")]] in
  let r := process_all image_files (fresh spider_catalog (fails_at 5)) in
  fst r = Ok tt /\ (clean (fresh spider_catalog (fails_at 5)) -> clean (snd r)).
Proof.
  cbv zeta. apply batch_runs_to_its_end. reflexivity.
Defined.

(** *** The agent *)

Import ComicBookAgent.

Lemma positive_ids_kept : kept_by_insert positive_ids.
Proof.
  intros o t i t' Hpos Hins. unfold positive_ids in *. destruct o.
  - apply insert_source in Hins. destruct Hins as (_ & _ & _ & -> & _). exact Hpos.
  - apply insert_series in Hins. destruct Hins as (_ & _ & _ & _ & -> & _). exact Hpos.
  - apply insert_issue in Hins. destruct Hins as (-> & -> & _).
    intros r Hr. apply in_app_or in Hr. destruct Hr as [Hr|[<-|[]]]; [auto|].
    cbn [fst]. unfold next_id. pose proof (max_id_nonneg (issue t)). lia.
  - apply insert_source_xref in Hins. destruct Hins as (_ & _ & _ & _ & _ & -> & _).
    exact Hpos.
  - cbn [insert] in Hins. inversion Hins; subst. exact Hpos.
  - cbn [insert] in Hins. inversion Hins; subst. exact Hpos.
  - cbn [insert] in Hins. destruct (_ || _); inversion Hins; subst. exact Hpos.
Qed.

Lemma reconcile_result_positive (series_title issue_number : string) (w w' : world)
  (i : Z * Issue) :
  clean w -> positive_ids (session w) ->
  get_or_create_issue_from_comicvine series_title issue_number w = (Ok (Some i), w') ->
  0 < fst i.
Proof.
  intros [Hsd Hp] Hpos H.
  pose proof (keeps_reconcile positive_ids positive_ids_kept series_title issue_number w)
    as Hkept.
  rewrite H in Hkept. cbn [fst snd] in Hkept.
  destruct Hkept as [Hs _]; [split; [exact Hpos|rewrite <- Hsd; exact Hpos]|].
  apply Hs. apply (reconcile_result_stored _ _ _ _ _ Hp H).
Qed.

(** what the vision placeholder of the agent can answer *)
Lemma tool_analyze_image_run (image_path : pyval) (w : world) :
  (exists e, tool_analyze_image image_path w = (Raise e, w))
  \/ (exists d, tool_analyze_image image_path w = (Ok d, w)
       /\ unset (Some (Details_series_title d)) = false
       /\ (Details_defects d = "spine_tick, corner_blunt"
           \/ Details_defects d = "spine_tick")).
Proof.
  unfold tool_analyze_image, bind, py_contains.
  destruct image_path as [|b|z|f|s|l|kv]; cbn; eauto;
    match goal with |- context [if ?c then _ else _] => destruct c end;
    right; eexists; (split; [reflexivity|]); cbn; auto.
Qed.

Lemma mock_grades (defects : string) (w : world) :
  defects = "spine_tick, corner_blunt" \/ defects = "spine_tick" ->
  exists grade, tool_calculate_grade (PStr defects) w = (Ok grade, w)
                /\ truthy (PFloat grade) = true.
Proof.
  intros [->| ->]; eexists; (split; [vm_compute; reflexivity|]); vm_compute; reflexivity.
Qed.

Lemma run_finished (turns : nat) (state : State) (w : world) :
  State_is_finished state = true -> run turns state w = (Ok (Some state), w).
Proof. destruct turns; cbn [run]; intros ->; reflexivity. Qed.

Lemma run_turn (turns : nat) (state : State) (w : world) :
  State_is_finished state = false ->
  run (S turns) state w = bind (reason_and_act state) (run turns) w.
Proof. cbn [run]. intros ->. reflexivity. Qed.

Lemma price_outcome (issue_id : Z) (grade : float) (state : State) (w : world) :
  match fst (price issue_id grade state w) with
  | Ok state' => state' = set_finished state
  | Raise _ => True
  end.
Proof.
  unfold price, bind.
  destruct (db_query _ w) as [[[found|]|e] w1]; cbn [fst]; [| |exact Logic.I].
  - destruct (update_pricing_for_issue found grade w1) as [[u|e] w2]; cbn; auto.
  - destruct (get_or_create_source _ _ w1) as [[src|e] w2]; cbn; auto.
Qed.

(** the last turn: pricing, then the loop ends *)
Lemma halted_after_grading (turns : nat) (state : State) (issue_id : Z) (grade : float)
  (w : world) :
  State_is_finished state = false ->
  unset (State_series_title state) = false ->
  State_issue_id state = Some issue_id -> truthy (PInt issue_id) = true ->
  State_grade state = Some grade -> truthy (PFloat grade) = true ->
  halted (fst (run (S turns) state w)).
Proof.
  intros Hnf Ht Hid Hidt Hg Hgt. rewrite (run_turn _ _ _ Hnf).
  unfold reason_and_act. rewrite Ht, Hid, Hidt, Hg, Hgt. cbn [negb].
  unfold bind at 1. pose proof (price_outcome issue_id grade state w) as Hprice.
  destruct (price issue_id grade state w) as [[state'|e] w1]; cbn [fst snd halted] in *;
    [|exact Logic.I].
  subst state'. rewrite run_finished by reflexivity. reflexivity.
Qed.

(** the turn before: grading *)
Lemma halted_after_identification (turns : nat) (state : State) (issue_id : Z)
  (defects : string) (w : world) :
  State_is_finished state = false ->
  unset (State_series_title state) = false ->
  State_issue_id state = Some issue_id -> truthy (PInt issue_id) = true ->
  State_grade state = None ->
  State_defects state = Some defects ->
  (defects = "spine_tick, corner_blunt" \/ defects = "spine_tick") ->
  halted (fst (run (S (S turns)) state w)).
Proof.
  intros Hnf Ht Hid Hidt Hg Hd Hmock. rewrite (run_turn _ _ _ Hnf).
  unfold reason_and_act. rewrite Ht, Hid, Hidt, Hg. cbn [negb].
  unfold grade_it. rewrite Hd. cbn [value_arg].
  destruct (mock_grades defects w Hmock) as (grade & Hrun & Htruthy).
  unfold bind at 1. unfold bind at 1. rewrite Hrun. cbn [ret].
  apply (halted_after_grading turns _ issue_id grade); auto.
Qed.

(** the turns that follow the analysis of the image *)
Lemma halted_after_analysis (turns : nat) (state : State) (series_title issue_number
  defects : string) (w : world) :
  clean w -> positive_ids (session w) ->
  State_is_finished state = false ->
  State_series_title state = Some series_title ->
  unset (Some series_title) = false ->
  State_issue_number state = Some issue_number ->
  State_issue_id state = None ->
  State_grade state = None ->
  State_defects state = Some defects ->
  (defects = "spine_tick, corner_blunt" \/ defects = "spine_tick") ->
  halted (fst (run (S (S (S turns))) state w)).
Proof.
  intros Hw Hpos Hnf Htitle Ht Hnum Hid Hg Hd Hmock. rewrite (run_turn _ _ _ Hnf).
  unfold reason_and_act. rewrite Htitle, Ht, Hid.
  unfold identify. rewrite Htitle, Hnum. cbn [text_arg].
  unfold bind. cbn [ret].
  destruct (get_or_create_issue_from_comicvine series_title issue_number w)
    as [[[found|]|e] w1] eqn:Hrun; cbn [fst snd ret halted].
  - pose proof (reconcile_result_positive _ _ _ _ _ Hw Hpos Hrun) as Hfound.
    apply (halted_after_identification turns _ (fst found) defects); cbn; auto.
    + rewrite Htitle. exact Ht.
    + apply negb_true_iff, Z.eqb_neq. lia.
  - rewrite run_finished by reflexivity. reflexivity.
  - exact Logic.I.
Qed.

(** X28: the agent halts. Started on any image path, with no transaction
    open and positive issue keys, the loop of [ComicBookAgent.run] ends
    within four turns: it analyses the image, identifies the comic (and
    stops there when reconciliation returns None), grades it and prices it.
    It ends with [is_finished] set or with an exception, which the agent
    does not catch; it never runs on. *)
Theorem agent_halts_within_four_turns (image_path : pyval) (turns : nat) (w : world) :
  clean w ->
  positive_ids (session w) ->
  (4 <= turns)%nat ->
  halted (fst (run turns (init image_path) w)).
Proof.
  intros Hw Hpos Hturns.
  destruct turns as [|[|[|[|n]]]]; try lia.
  rewrite run_turn by reflexivity.
  unfold reason_and_act. cbn [init State_series_title unset State_image_path].
  unfold bind at 1. unfold bind at 1.
  destruct (tool_analyze_image_run image_path w) as [[e Hrun]|(d & Hrun & Ht & Hmock)];
    rewrite Hrun; cbn [fst snd ret halted]; [exact Logic.I|].
  apply (halted_after_analysis n _ (Details_series_title d) (Details_issue_number d)
           (Details_defects d)); auto.
Qed.

Example agent_halts_within_four_turns_witness :
  halted (fst (run 4 (init (PStr "sample_comics/Batman_No_Mans_Land_1.jpg"))
                 (fresh spider_catalog []))).
Proof.
  apply agent_halts_within_four_turns.
  - split; reflexivity.
  - intros r Hr. destruct Hr.
  - lia.
Defined.
